(** * Storage coordination core of the secondary-index engine

    A shallow embedding of the storage manager (snapshot lifecycle,
    waiter registry, rollback, merge/prune) and of the scan request
    planner, with the properties of the design document stated and
    proved over it, followed by the helpers around them (index paths,
    host names, projections, snapshot workers, snapshot requests) and
    their properties.

    Conventions.
    - Go integers are [Z]; byte slices are [list byte]; a nil slice of
      the wire format is [None].
    - A Go map that is only looked up, inserted into or filtered is a
      [gmap]; a Go map or slice that is ranged over is given as the list
      of entries in the order the range visits them.
    - Code of the repository that is declared outside the files at hand
      is either a field of a type class (interfaces and library calls)
      or a definition whose comment starts "Modelled from the spec:". *)

From Stdlib Require Import ZArith List Bool Lia String Ascii Strings.Byte.
From Stdlib Require DecimalString DecimalN DecimalPos.
From stdpp Require Import base option list gmap strings.

Local Open Scope Z_scope.

(** ** Common types *)

Definition bytes := list byte.

#[global] Instance byte_eq_dec : EqDecision byte := Byte.byte_eq_dec.

(** An [error] value of Go; only its text is kept. *)
Definition Error := string.

(** Outcome of Go code that may return an error or panic. *)
Inductive res (A : Type) : Type :=
| Ok (a : A)
| Err (e : Error)
| Panic (msg : string).
Arguments Ok {A} a.
Arguments Err {A} e.
Arguments Panic {A} msg.

#[global] Instance res_ret : MRet res := fun A a => Ok a.

#[global] Instance res_bind : MBind res := fun A B k r =>
  match r with
  | Ok a => k a
  | Err e => Err e
  | Panic m => Panic m
  end.

(** [fmt.Errorf(prefix + "%s", e)]: the returned error wraps [e]. *)
Definition wrapErr {A} (prefix : string) (r : res A) : res A :=
  match r with
  | Err e => Err (prefix +:+ e)
  | other => other
  end.

(** ** Scan planner *)

Module Planner.

(** [bytes.Compare] of the Go library: lexicographic order on unsigned
    bytes, result in {-1, 0, 1}. *)
Fixpoint bytes_Compare (a b : bytes) : Z :=
  match a, b with
  | [], [] => 0
  | [], _ :: _ => -1
  | _ :: _, [] => 1
  | x :: a', y :: b' =>
      match N.compare (Byte.to_N x) (Byte.to_N y) with
      | Lt => -1
      | Gt => 1
      | Eq => bytes_Compare a' b'
      end
  end.

(** A value of the [IndexKey] interface: the nil interface, one of the
    two sentinels [MinIndexKey] / [MaxIndexKey] (compared by identity in
    the source), or a primary / secondary key holding its bytes. *)
Inductive IndexKey : Type :=
| nilKey
| MinIndexKey
| MaxIndexKey
| primaryKey (b : bytes)
| secondaryKey (b : bytes).

#[global] Instance IndexKey_eq_dec : EqDecision IndexKey.
Proof. solve_decision. Defined.

(** [k.Bytes()]. The sentinels carry no bytes. *)
Definition Bytes (k : IndexKey) : bytes :=
  match k with
  | primaryKey b | secondaryKey b => b
  | _ => []
  end.

(** [len(k.Bytes())] *)
Definition lenBytes (k : IndexKey) : Z := Z.of_nat (length (Bytes k)).

Inductive Inclusion : Type := Neither | Low | High | Both.

#[global] Instance Inclusion_eq_dec : EqDecision Inclusion.
Proof. solve_decision. Defined.

Inductive ScanFilterType : Type :=
| noType          (* zero value "" *)
| AllReq
| LookupReq
| RangeReq
| FilterRangeReq.

#[global] Instance ScanFilterType_eq_dec : EqDecision ScanFilterType.
Proof. solve_decision. Defined.

Record CompositeElementFilter : Type := mkCEF {
  cef_Low : IndexKey;
  cef_High : IndexKey;
  cef_Inclusion : Inclusion
}.

Record Filter : Type := mkFilter {
  CompositeFilters : list CompositeElementFilter;
  f_Low : IndexKey;
  f_High : IndexKey;
  f_Inclusion : Inclusion;
  f_ScanType : ScanFilterType
}.

Record Scan : Type := mkScan {
  s_Low : IndexKey;
  s_High : IndexKey;
  s_Incl : Inclusion;
  s_ScanType : ScanFilterType;
  s_Filters : list Filter;
  s_Equals : IndexKey
}.

(** A point in the index and the filter it is an endpoint of; [Type] is
    the string "low" or "high". *)
Record IndexPoint : Type := mkPoint {
  Value : IndexKey;
  FilterId : Z;
  Type_ : string
}.

#[global] Instance IndexPoint_eq_dec : EqDecision IndexPoint.
Proof. solve_decision. Defined.

(** Methods of [IndexKey] and library calls whose code is outside the
    sources: the two comparators of the key interface, the key
    constructors (which validate and encode the wire bytes), the
    collation codec and [sort.Sort]. *)
Class KeyOps : Type := {
  ComparePrefixIndexKey : IndexKey -> IndexKey -> Z;
  CompareIndexKey : IndexKey -> IndexKey -> Z;
  NewPrimaryKey : bytes -> res IndexKey;
  NewSecondaryKey : bytes -> res IndexKey;
  JoinArray : list bytes -> res bytes;
  ReverseCollate : bytes -> list bool -> res bytes;
  sort_Sort : forall A : Type, (A -> A -> bool) -> list A -> list A
}.

Section Points.
Context `{KeyOps}.

(** [minlen] *)
Definition minlen (x y : IndexPoint) : IndexPoint :=
  if lenBytes (Value x) <? lenBytes (Value y) then x else y.

(** [IndexPointLessThan]: true if x < y. *)
Definition IndexPointLessThan (x y : IndexPoint) : bool :=
  let a := Value x in
  let b := Value y in
  if decide (a = MinIndexKey) then true
  else if decide (a = MaxIndexKey) then false
  else if decide (b = MinIndexKey) then false
  else if decide (b = MaxIndexKey) then true
  else if ComparePrefixIndexKey a b <? 0 then true
  else if ComparePrefixIndexKey a b =? 0 then
    if lenBytes a =? lenBytes b then
      if decide (Type_ x = "low"%string /\ Type_ y = "high"%string) then true
      else false
    else
      let inclusiveKey := minlen x y in
      if decide (Type_ inclusiveKey = "low"%string) then
        if decide (inclusiveKey = x) then true else false
      else if decide (Type_ inclusiveKey = "high"%string) then
        if decide (inclusiveKey = y) then true else false
      else false
  else false.

(** [IndexKeyLessThan]: true if a < b. *)
Definition IndexKeyLessThan (a b : IndexKey) : bool :=
  if decide (a = MinIndexKey) then true
  else if decide (a = MaxIndexKey) then false
  else if decide (b = MinIndexKey) then false
  else if decide (b = MaxIndexKey) then true
  else bytes_Compare (Bytes a) (Bytes b) <? 0.

End Points.

(** *** Wire format of a scan *)

(** [protobuf.CompositeElementFilter]: wire bytes, [None] for a nil
    slice. *)
Record ProtoFilter : Type := mkProtoFilter {
  pf_Low : option bytes;
  pf_High : option bytes;
  pf_Inclusion : Inclusion
}.

(** [protobuf.Scan] *)
Record ProtoScan : Type := mkProtoScan {
  ps_Filters : list ProtoFilter;
  ps_Equals : list (option bytes)
}.

(** The fields of [ScanRequest] that [fillScans] reads. [Desc] is
    [r.IndexInst.Defn.Desc]. The key buffers of the request are not
    modelled: they only hold the storage of the encoded keys. *)
Record ScanRequest : Type := mkScanRequest {
  isPrimary : bool;
  r_Low : IndexKey;
  r_High : IndexKey;
  r_Keys : list IndexKey;
  r_Incl : Inclusion;
  Desc : list bool
}.

(** Modelled from the spec: [IndexDefn.HasDescending] is declared
    outside the sources; an index has a descending key when some bit of
    the per-key descending vector is set. *)
Definition HasDescending (r : ScanRequest) : bool := existsb id (Desc r).

Section Request.
Context `{KeyOps}.
Variable r : ScanRequest.

Definition bracketBytes : bytes := list_byte_of_string "[]".

(** [isNil] *)
Definition isNil (k : option bytes) : bool :=
  match k with
  | None => true
  | Some b => negb (isPrimary r) && bool_decide (b = bracketBytes)
  end.

(** [newKey] *)
Definition newKey (k : option bytes) : res IndexKey :=
  match k with
  | None => Err "Key is null"
  | Some b => if isPrimary r then NewPrimaryKey b else NewSecondaryKey b
  end.

(** [newLowKey] *)
Definition newLowKey (k : option bytes) : res IndexKey :=
  if isNil k then Ok MinIndexKey else newKey k.

(** [newHighKey] *)
Definition newHighKey (k : option bytes) : res IndexKey :=
  if isNil k then Ok MaxIndexKey else newKey k.

(** [joinKeys] *)
Definition joinKeys (keys : list bytes) : res bytes :=
  wrapErr "Error in joining keys: " (JoinArray keys).

(** [areFiltersNil] *)
Definition areFiltersNil (protoScan : ProtoScan) : bool :=
  forallb (fun fl => isNil (pf_Low fl) && isNil (pf_High fl))
          (ps_Filters protoScan).

(** [getEmptyScan]: the error of [newKey] is discarded, which leaves the
    nil key. *)
Definition getEmptyScan : res Scan :=
  match newKey (Some []) with
  | Ok key => Ok (mkScan key key Neither RangeReq [] nilKey)
  | Err _ => Ok (mkScan nilKey nilKey Neither RangeReq [] nilKey)
  | Panic m => Panic m
  end.

(** [getScanAll] *)
Definition getScanAll : Scan := mkScan nilKey nilKey Neither AllReq [] nilKey.

(** [getReverseCollatedIndexKey] *)
Definition getReverseCollatedIndexKey (input : bytes) (desc : list bool)
  : res IndexKey :=
  reversed ← ReverseCollate input desc;
  Ok (secondaryKey reversed).

(** [flipInclusion] *)
Definition flipInclusion (incl : Inclusion) (desc : list bool) : Inclusion :=
  match desc with
  | true :: _ =>
      match incl with
      | Low => High
      | High => Low
      | other => other
      end
  | _ => incl
  end.

(** [s[:n]] on the descending vector; slicing past the end panics. *)
Definition sliceDesc (n : nat) : res (list bool) :=
  if decide (n <= length (Desc r))%nat then Ok (take n (Desc r))
  else Panic "slice bounds out of range".

(** The keys of a list up to the first sentinel (step 3 of the reverse
    collation path). *)
Fixpoint pruneAtSentinel (ks : list IndexKey) : list IndexKey :=
  match ks with
  | [] => []
  | k :: ks' =>
      if decide (k = MinIndexKey \/ k = MaxIndexKey) then []
      else k :: pruneAtSentinel ks'
  end.

(** Step 2 of the reverse collation path: exchange low and high of the
    descending positions. [Desc[i]] past the end panics. *)
Fixpoint exchangeLowHigh (i : nat) (cfs : list CompositeElementFilter)
  : res (list IndexKey * list IndexKey) :=
  match cfs with
  | [] => Ok ([], [])
  | f :: cfs' =>
      match (Desc r : list bool) !! i with
      | None => Panic "index out of range"
      | Some d =>
          '(lows2, highs2) ← exchangeLowHigh (S i) cfs';
          if d : bool then Ok (cef_High f :: lows2, cef_Low f :: highs2)
          else Ok (cef_Low f :: lows2, cef_High f :: highs2)
      end
  end.

(** The lows (resp. highs) that are joined on an ascending index: the
    filters up to the first unbounded one. *)
Fixpoint lowsUntilMin (cfs : list CompositeElementFilter) : list bytes :=
  match cfs with
  | [] => []
  | f :: cfs' =>
      if decide (cef_Low f = MinIndexKey) then []
      else Bytes (cef_Low f) :: lowsUntilMin cfs'
  end.

Fixpoint highsUntilMax (cfs : list CompositeElementFilter) : list bytes :=
  match cfs with
  | [] => []
  | f :: cfs' =>
      if decide (cef_High f = MaxIndexKey) then []
      else Bytes (cef_High f) :: highsUntilMax cfs'
  end.

(** [fillFilterLowHigh]: the overall low and high of a filter, returned
    as a pair. *)
Definition fillFilterLowHigh (compFilters : list CompositeElementFilter)
  : res (IndexKey * IndexKey) :=
  if negb (HasDescending r) then
    match compFilters with
    | [] => Panic "index out of range"
    | f0 :: _ =>
        lo ← (if decide (cef_Low f0 = MinIndexKey) then Ok MinIndexKey
              else l ← wrapErr "Error in forming low key "
                                (JoinArray (lowsUntilMin compFilters));
                   Ok (secondaryKey l));
        hi ← (if decide (cef_High f0 = MaxIndexKey) then Ok MaxIndexKey
              else h ← wrapErr "Error in forming high key "
                                (JoinArray (highsUntilMax compFilters));
                   Ok (secondaryKey h));
        Ok (lo, hi)
    end
  else
    '(lows1, highs1) ← exchangeLowHigh 0 compFilters;
    let lows2 := pruneAtSentinel lows1 in
    let highs2 := pruneAtSentinel highs1 in
    lowKey ← (if decide (0 < length lows2)%nat then
                joinedLow ← joinKeys (map Bytes lows2);
                d ← sliceDesc (length lows2);
                getReverseCollatedIndexKey joinedLow d
              else Ok MinIndexKey);
    highKey ← (if decide (0 < length highs2)%nat then
                 joinedHigh ← joinKeys (map Bytes highs2);
                 d ← sliceDesc (length highs2);
                 getReverseCollatedIndexKey joinedHigh d
               else Ok MaxIndexKey);
    Ok (lowKey, highKey).

(** [fillFilterEquals] *)
Definition fillFilterEquals (protoScan : ProtoScan) : res Filter :=
  equals ← mapM (fun k => key ← wrapErr "Invalid equal key " (newKey k);
                          Ok (Bytes key))
                (ps_Equals protoScan);
  equalsKey ← wrapErr "Error in forming equals key " (JoinArray equals);
  eqReverse ← (if negb (HasDescending r) then Ok equalsKey
               else d ← sliceDesc (length equals);
                    ReverseCollate equalsKey d);
  let eqKey := secondaryKey eqReverse in
  let compFilters :=
    map (fun k => mkCEF (secondaryKey k) (secondaryKey k) Both) equals in
  Ok (mkFilter compFilters eqKey eqKey Both LookupReq).

(** *** Composing the scans of a secondary index *)

(** [filters[fl]]; an index outside the slice panics. *)
Definition filterAt (filters : list Filter) (fl : Z) : res Filter :=
  match (if decide (0 <= fl) then filters !! Z.to_nat fl else None) with
  | Some f => Ok f
  | None => Panic "index out of range"
  end.

(** State of the sweep over the sorted points: the scans emitted so far,
    the set of active filters with the order in which they became
    active, and the low end of the current region. *)
Record sweep : Type := mkSweep {
  sw_scans : list Scan;
  sw_filtersMap : gset Z;
  sw_filtersList : list Z;
  sw_low : IndexKey
}.

Definition setHighAndFilters (sc : Scan) (high : IndexKey) (fs : list Filter)
  : Scan :=
  mkScan (s_Low sc) high (s_Incl sc) (s_ScanType sc) (s_Filters sc ++ fs)
         (s_Equals sc).

(** One iteration of the loop of [composeScans]. *)
Definition composeStep (filters : list Filter) (st : sweep) (p : IndexPoint)
  : res sweep :=
  let low := if decide (sw_filtersMap st = ∅) then Value p else sw_low st in
  let filterid := FilterId p in
  if decide (filterid ∈ sw_filtersMap st) then
    let fm := sw_filtersMap st ∖ {[filterid]} in
    if decide (fm = ∅) then
      fs ← mapM (filterAt filters) (sw_filtersList st);
      match last (sw_scans st) with
      | Some prev =>
          if ComparePrefixIndexKey (s_High prev) low =? 0 then
            Ok (mkSweep (removelast (sw_scans st)
                           ++ [setHighAndFilters prev (Value p) fs])
                        fm [] low)
          else
            Ok (mkSweep (sw_scans st
                           ++ [mkScan low (Value p) Both FilterRangeReq fs nilKey])
                        fm [] low)
      | None =>
          Ok (mkSweep [mkScan low (Value p) Both FilterRangeReq fs nilKey]
                      fm [] low)
      end
    else Ok (mkSweep (sw_scans st) fm (sw_filtersList st) low)
  else
    Ok (mkSweep (sw_scans st) ({[filterid]} ∪ sw_filtersMap st)
                (sw_filtersList st ++ [filterid]) low).

Fixpoint composeLoop (filters : list Filter) (st : sweep)
    (points : list IndexPoint) : res sweep :=
  match points with
  | [] => Ok st
  | p :: points' =>
      st' ← composeStep filters st p;
      composeLoop filters st' points'
  end.

(** The second loop of [composeScans]: a single lookup filter becomes a
    lookup, a single filter with a single element becomes a plain
    range. *)
Definition collapseScan (sc : Scan) : Scan :=
  let sc1 :=
    match s_Filters sc with
    | [f] =>
        if decide (f_ScanType f = LookupReq) then
          mkScan (s_Low sc) (s_High sc) (s_Incl sc) LookupReq (s_Filters sc)
                 (s_Low sc)
        else sc
    | _ => sc
    end in
  match s_Filters sc1 with
  | [f] =>
      match CompositeFilters f with
      | [cf] =>
          if decide (s_ScanType sc1 = FilterRangeReq) then
            mkScan (s_Low sc1) (s_High sc1)
                   (flipInclusion (cef_Inclusion cf) (Desc r))
                   RangeReq (s_Filters sc1) (s_Equals sc1)
          else sc1
      | _ => sc1
      end
  | _ => sc1
  end.

(** [composeScans] *)
Definition composeScans (points : list IndexPoint) (filters : list Filter)
  : res (list Scan) :=
  st ← composeLoop filters (mkSweep [] ∅ [] nilKey) points;
  Ok (map collapseScan (sw_scans st)).

(** *** Composing the scans of a primary index *)

(** [lowInclude] *)
Definition lowInclude (lowInclusions : list Inclusion) : Z :=
  if existsb (fun incl => bool_decide (incl = Low \/ incl = Both))
             lowInclusions then 1 else 0.

(** [highInclude] *)
Definition highInclude (highInclusions : list Inclusion) : Z :=
  if existsb (fun incl => bool_decide (incl = High \/ incl = Both))
             highInclusions then 1 else 0.

(** [inclusionMatrix[inclLow][inclHigh]] *)
Definition inclusionMatrix (inclLow inclHigh : Z) : Inclusion :=
  match inclLow, inclHigh with
  | 0, 0 => Neither
  | 0, _ => High
  | _, 0 => Low
  | _, _ => Both
  end.

(** [MergeFiltersForPrimary] *)
Definition MergeFiltersForPrimary (scans : list Scan) (f2 : Filter)
  : list Scan :=
  let getNewScans (scans : list Scan) (f : Filter) :=
    scans ++ [mkScan (f_Low f) (f_High f) (f_Inclusion f) RangeReq [] nilKey] in
  match last scans with
  | None => getNewScans scans f2
  | Some f1 =>
      let '(l1, h1, i1) := (s_Low f1, s_High f1, s_Incl f1) in
      let '(l2, h2, i2) := (f_Low f2, f_High f2, f_Inclusion f2) in
      if 0 <? ComparePrefixIndexKey l2 h1 then getNewScans scans f2
      else if (ComparePrefixIndexKey h1 l2 =? 0)
              && negb (bool_decide (i1 = High \/ i1 = Both
                                    \/ i2 = Low \/ i2 = Both))
      then getNewScans scans f2
      else
        let '(low, inclLow) :=
          if ComparePrefixIndexKey l1 l2 =? 0
          then (l1, lowInclude [i1; i2]) else (nilKey, 0) in
        let '(high, inclHigh) :=
          if ComparePrefixIndexKey h1 h2 =? 0
          then (h1, highInclude [i1; i2]) else (nilKey, 0) in
        let '(low, inclLow) :=
          if decide (low = nilKey) then
            if ComparePrefixIndexKey l1 l2 <? 0 then (l1, lowInclude [i1])
            else (l2, lowInclude [i2])
          else (low, inclLow) in
        let '(high, inclHigh) :=
          if decide (high = nilKey) then
            if 0 <? ComparePrefixIndexKey h1 h2 then (h1, highInclude [i1])
            else (h2, highInclude [i2])
          else (high, inclHigh) in
        removelast scans
          ++ [mkScan low high (inclusionMatrix inclLow inclHigh)
                     (s_ScanType f1) (s_Filters f1) (s_Equals f1)]
  end.

(** [FilterLessThan]: true if x < y. *)
Definition FilterLessThan (x y : Filter) : bool :=
  let a := f_Low x in
  let b := f_Low y in
  if decide (a = MinIndexKey) then true
  else if decide (a = MaxIndexKey) then false
  else if decide (b = MinIndexKey) then false
  else if decide (b = MaxIndexKey) then true
  else ComparePrefixIndexKey a b <? 0.

(** *** [fillScans] *)

(** How the loop over the scans of the request ends: it falls through
    with the filters, points and scans collected, or it returns early
    with the scans of the request already set. *)
Inductive loopEnd : Type :=
| Fallthrough (filters : list Filter) (points : list IndexPoint)
              (scans : list Scan)
| Return (scans : list Scan).

Definition endpoints (filters : list Filter) (filter : Filter)
  : list IndexPoint :=
  let id := Z.of_nat (length (filters ++ [filter])) - 1 in
  [mkPoint (f_Low filter) id "low"; mkPoint (f_High filter) id "high"].

(** The loop of the primary path of [fillScans]. *)
Fixpoint primaryLoop (protoScans : list ProtoScan) (filters : list Filter)
    (points : list IndexPoint) (scans : list Scan) : res loopEnd :=
  match protoScans with
  | [] => Ok (Fallthrough filters points scans)
  | protoScan :: rest =>
      match ps_Equals protoScan with
      | eq0 :: _ =>
          key ← wrapErr "Invalid equal key " (newKey eq0);
          let filter := mkFilter [] key key Both noType in
          primaryLoop rest (filters ++ [filter])
                      (points ++ endpoints filters filter) scans
      | [] =>
          match ps_Filters protoScan with
          | [] => Ok (Return [getScanAll])
          | fl :: _ =>
              if areFiltersNil protoScan then Ok (Return [getScanAll])
              else
                l ← wrapErr "Invalid low key " (newLowKey (pf_Low fl));
                h ← wrapErr "Invalid high key " (newHighKey (pf_High fl));
                if IndexKeyLessThan h l then
                  e ← getEmptyScan;
                  primaryLoop rest filters points (scans ++ [e])
                else if (CompareIndexKey l h =? 0)
                        && negb (bool_decide (pf_Inclusion fl = Both)) then
                  e ← getEmptyScan;
                  primaryLoop rest filters points (scans ++ [e])
                else
                  let compfil := mkCEF l h (pf_Inclusion fl) in
                  let filter :=
                    mkFilter [compfil] l h (pf_Inclusion fl) noType in
                  primaryLoop rest (filters ++ [filter]) points scans
          end
      end
  end.

(** The inner loop of the secondary path: encode the element filters of
    one scan; [None] is the source's [skipScan = true]. *)
Fixpoint encodeFilters (fls : list ProtoFilter)
    (compFilters : list CompositeElementFilter)
  : res (option (list CompositeElementFilter)) :=
  match fls with
  | [] => Ok (Some compFilters)
  | fl :: rest =>
      l ← wrapErr "Invalid low key " (newLowKey (pf_Low fl));
      h ← wrapErr "Invalid high key " (newHighKey (pf_High fl));
      if IndexKeyLessThan h l then Ok None
      else encodeFilters rest
             (compFilters ++ [mkCEF l h (pf_Inclusion fl)])
  end.

(** The loop of the secondary path of [fillScans]. *)
Fixpoint secondaryLoop (protoScans : list ProtoScan) (filters : list Filter)
    (points : list IndexPoint) : res loopEnd :=
  match protoScans with
  | [] => Ok (Fallthrough filters points [])
  | protoScan :: rest =>
      match ps_Equals protoScan with
      | _ :: _ =>
          filter ← fillFilterEquals protoScan;
          secondaryLoop rest (filters ++ [filter])
                        (points ++ endpoints filters filter)
      | [] =>
          match ps_Filters protoScan with
          | [] => Ok (Return [getScanAll])
          | _ :: _ =>
              if areFiltersNil protoScan then Ok (Return [getScanAll])
              else
                enc ← encodeFilters (ps_Filters protoScan) [];
                match enc with
                | None => secondaryLoop rest filters points
                | Some compFilters =>
                    '(lo, hi) ← fillFilterLowHigh compFilters;
                    let filter := mkFilter compFilters lo hi Both noType in
                    secondaryLoop rest (filters ++ [filter])
                                  (points ++ endpoints filters filter)
                end
          end
      end
  end.

(** [fillScans]: the value left in [r.Scans], or the error returned. *)
Definition fillScans (protoScans : list ProtoScan) : res (list Scan) :=
  match protoScans with
  | [] =>
      match r_Keys r with
      | k0 :: _ => Ok [mkScan nilKey nilKey Neither LookupReq [] k0]
      | [] => Ok [mkScan (r_Low r) (r_High r) (r_Incl r) RangeReq [] nilKey]
      end
  | _ :: _ =>
      if isPrimary r then
        e ← primaryLoop protoScans [] [] [];
        match e with
        | Return scans => Ok scans
        | Fallthrough filters _ scans =>
            Ok (fold_left MergeFiltersForPrimary
                          (sort_Sort Filter FilterLessThan filters) scans)
        end
      else
        e ← secondaryLoop protoScans [] [];
        match e with
        | Return scans => Ok scans
        | Fallthrough filters points _ =>
            composeScans (sort_Sort IndexPoint IndexPointLessThan points)
                         filters
        end
  end.

End Request.

(** *** An instance over raw bytes

    Keys kept as their wire bytes, joined by concatenation, with the
    identity as reverse collation and a stable insertion sort. It is
    used to run the planner on concrete requests. *)

(** Modelled from the spec: [ComparePrefixIndexKey] is declared outside
    the sources; it is the "prefix comparator on composite keys", under
    which two keys are equal when one is a prefix of the other, so that
    "equal values" can still differ in length: the byte strings are
    compared over the length of the shorter one. *)
Definition prefixCompare (a b : IndexKey) : Z :=
  let n := Nat.min (length (Bytes a)) (length (Bytes b)) in
  bytes_Compare (take n (Bytes a)) (take n (Bytes b)).

Section Sort.
Context {A : Type} (less : A -> A -> bool).

Fixpoint insertSorted (x : A) (l : list A) : list A :=
  match l with
  | [] => [x]
  | y :: l' => if less x y then x :: y :: l' else y :: insertSorted x l'
  end.

Definition insertionSort (l : list A) : list A :=
  fold_left (fun acc x => insertSorted x acc) l [].

End Sort.

#[local] Instance rawKeys : KeyOps := {|
  ComparePrefixIndexKey := prefixCompare;
  CompareIndexKey := fun a b => bytes_Compare (Bytes a) (Bytes b);
  NewPrimaryKey := fun b => Ok (primaryKey b);
  NewSecondaryKey := fun b => Ok (secondaryKey b);
  JoinArray := fun ks => Ok (concat ks);
  ReverseCollate := fun b _ => Ok b;
  sort_Sort := fun A less l => insertionSort less l
|}.

Definition key (s : string) : IndexKey := secondaryKey (list_byte_of_string s).

Definition wire (s : string) : option bytes := Some (list_byte_of_string s).

(** A request on a primary index and one on a two-key ascending
    secondary index. *)
Definition primaryRequest : ScanRequest :=
  mkScanRequest true nilKey nilKey [] Neither [].

Definition secondaryRequest : ScanRequest :=
  mkScanRequest false nilKey nilKey [] Neither [false; false].

(** *** Properties stated about the planner *)

(** A key that is neither sentinel. *)
Definition ordinary (k : IndexKey) : Prop :=
  k <> MinIndexKey /\ k <> MaxIndexKey.

(** "Equal values compare by length": among points of equal value and
    different length, one direction of the length decides the order,
    the shorter point first or the longer point first. *)
Definition orderedByLength `{KeyOps} : Prop :=
  (forall x y, ordinary (Value x) -> ordinary (Value y) ->
     ComparePrefixIndexKey (Value x) (Value y) = 0 ->
     lenBytes (Value x) < lenBytes (Value y) ->
     IndexPointLessThan x y = true /\ IndexPointLessThan y x = false)
  \/
  (forall x y, ordinary (Value x) -> ordinary (Value y) ->
     ComparePrefixIndexKey (Value x) (Value y) = 0 ->
     lenBytes (Value x) < lenBytes (Value y) ->
     IndexPointLessThan y x = true /\ IndexPointLessThan x y = false).

(** An element filter of the wire whose keys encode and whose high key
    is strictly less than its low key. *)
Definition inverted `{KeyOps} (r : ScanRequest) (fl : ProtoFilter) : Prop :=
  exists l h, newLowKey r (pf_Low fl) = Ok l
              /\ newHighKey r (pf_High fl) = Ok h
              /\ IndexKeyLessThan h l = true.

(** An element filter of the wire whose keys encode. *)
Definition encodes `{KeyOps} (r : ScanRequest) (fl : ProtoFilter) : Prop :=
  exists l h, newLowKey r (pf_Low fl) = Ok l
              /\ newHighKey r (pf_High fl) = Ok h.

(** The empty-range scan: low = high, inclusion Neither, a plain
    range. *)
Definition emptyRange (e : Scan) : Prop :=
  s_Low e = s_High e /\ s_Incl e = Neither /\ s_ScanType e = RangeReq
  /\ s_Filters e = [].

End Planner.

(** ** Storage manager *)

Module Storage.

(** *** Timestamps *)

(** The snapshot type carried by a flush timestamp. The enumeration is
    declared outside the sources; [INMEM_SNAP] and [INMEM_SNAP_OSO] are
    the in-memory kinds that the snapshot creation code refers to. *)
Inductive SnapType : Type :=
| NO_SNAP
| DISK_SNAP
| INMEM_SNAP
| FORCE_COMMIT
| NO_SNAP_OSO
| INMEM_SNAP_OSO
| DISK_SNAP_OSO
| FORCE_COMMIT_MERGE.

#[global] Instance SnapType_eq_dec : EqDecision SnapType.
Proof. solve_decision. Defined.

(** [common.TsVbuuid]: one sequence number and one vbuuid per vbucket. *)
Record TsVbuuid : Type := mkTs {
  Bucket : string;
  Seqnos : list Z;
  Vbuuids : list Z;
  Crc64 : Z;
  SnapType_ : SnapType
}.

#[global] Instance TsVbuuid_eq_dec : EqDecision TsVbuuid.
Proof. solve_decision. Defined.

Definition GetSnapType (ts : TsVbuuid) : SnapType := SnapType_ ts.

Definition setCrc64 (ts : TsVbuuid) (crc : Z) : TsVbuuid :=
  mkTs (Bucket ts) (Seqnos ts) (Vbuuids ts) crc (SnapType_ ts).

Definition setVbuuids (ts : TsVbuuid) (v : list Z) : TsVbuuid :=
  mkTs (Bucket ts) (Seqnos ts) v (Crc64 ts) (SnapType_ ts).

(** [Timestamp]: the vector of sequence numbers alone. *)
Definition Timestamp := list Z.

(** Modelled from the spec: [NewTimestamp] is declared outside the
    sources; a timestamp is "a fixed-width vector over the upstream's
    virtual-bucket space", all zero when new. *)
Definition NewTimestamp (numVbuckets : nat) : Timestamp :=
  replicate numVbuckets 0.

(** Modelled from the spec: [NewTsVbuuid] is declared outside the
    sources; an epoch timestamp has every sequence number and vbuuid at
    zero and no snapshot type. Its [Crc64] is the zero value, as the
    source notes where it builds the nil snapshot ("nil snapshot should
    have ZERO Crc64"). *)
Definition NewTsVbuuid (bucket : string) (numVbuckets : nat) : TsVbuuid :=
  mkTs bucket (replicate numVbuckets 0) (replicate numVbuckets 0) 0 NO_SNAP.

(** Modelled from the spec: [TsVbuuid.Copy] is declared outside the
    sources; it is a clone of the timestamp, which on values is the
    identity. *)
Definition Copy (ts : TsVbuuid) : TsVbuuid := ts.

(** Modelled from the spec: [Timestamp.GreaterThan] is declared outside
    the sources; "[ts.seqnos > prior.seqnos] (pointwise, at least one
    strict)". *)
Definition GreaterThan (ts ts1 : Timestamp) : bool :=
  forallb (fun p => p.2 <=? p.1) (zip ts ts1)
  && existsb (fun p => p.2 <? p.1) (zip ts ts1).

(** Modelled from the spec: [TsVbuuid.EqualOrGreater] is declared
    outside the sources; "[a >= b] iff componentwise for sequence
    numbers (vbuuids optionally matched)". *)
Definition EqualOrGreater (ts other : TsVbuuid) (skipVbuuidCheck : bool)
  : bool :=
  bool_decide (length (Seqnos ts) = length (Seqnos other))
  && forallb (fun p => p.2 <=? p.1) (zip (Seqnos ts) (Seqnos other))
  && (skipVbuuidCheck || bool_decide (Vbuuids ts = Vbuuids other)).

(** Modelled from the spec: [TsVbuuid.HasZeroSeqNum] is declared outside
    the sources; it holds when the "upstream asked for complete rewind
    of some vb", that is when some sequence number is zero. *)
Definition HasZeroSeqNum (ts : TsVbuuid) : bool :=
  existsb (fun s => s =? 0) (Seqnos ts).

(** Modelled from the spec: [TsVbuuid.Equal] is declared outside the
    sources; two timestamps are equal when their sequence numbers and
    vbuuids are. *)
Definition Equal (a b : TsVbuuid) : bool :=
  bool_decide (Seqnos a = Seqnos b) && bool_decide (Vbuuids a = Vbuuids b).

(** Pointwise [<=] on sequence numbers, used by the rollback search. *)
Definition seqnosLe (a b : TsVbuuid) : bool :=
  bool_decide (length (Seqnos a) = length (Seqnos b))
  && forallb (fun p => p.1 <=? p.2) (zip (Seqnos a) (Seqnos b)).

(** *** CRC-64 of the Go library

    [hash/crc64] with the ECMA polynomial, as [crc64.Checksum] computes
    it: table driven, least significant bit first, with the register
    complemented on entry and on exit. *)

Definition ECMA : Z := 0xC96C5795D7870F42.

Definition mask64 : Z := 0xFFFFFFFFFFFFFFFF.

Definition tableEntry (i : Z) : Z :=
  Nat.iter 8 (fun crc =>
                if Z.testbit crc 0 then Z.lxor (Z.shiftr crc 1) ECMA
                else Z.shiftr crc 1) i.

Definition crc64_update (crc : Z) (p : list Z) : Z :=
  let crc := Z.lxor crc mask64 in
  let crc :=
    fold_left (fun crc v =>
                 Z.lxor (tableEntry (Z.lxor (Z.land crc 0xFF) v))
                        (Z.shiftr crc 8)) p crc in
  Z.lxor crc mask64.

(** The eight bytes of a [uint64], least significant first. *)
Definition littleEndian (v : Z) : list Z :=
  map (fun i => Z.land (Z.shiftr v (8 * Z.of_nat i)) 0xFF) (seq 0 8).

(** Modelled from the spec: [common.HashVbuuid] is declared outside the
    sources; the [Crc64] of a timestamp is "derived from [the] vbuuid
    vector", here as the CRC-64 checksum of the vector's bytes. *)
Definition crc64Vbuuid (vbuuids : list Z) : Z :=
  crc64_update 0 (concat (map littleEndian vbuuids)).

(** *** Snapshots and their reference counts *)

(** [SnapshotInfo]: what a slice reports about a snapshot it holds. *)
Record SnapshotInfo : Type := mkInfo {
  info_Timestamp : TsVbuuid;
  IsOSOSnap : bool
}.

#[global] Instance SnapshotInfo_eq_dec : EqDecision SnapshotInfo.
Proof. solve_decision. Defined.

(** A storage [Snapshot]. The source shares one object between every
    index snapshot that holds it; [snap_addr] is the identity of that
    object and its reference count lives in the store [Refs]. *)
Record Snapshot : Type := mkSnapshot {
  snap_addr : Z;
  snap_Timestamp : TsVbuuid
}.

#[global] Instance Snapshot_eq_dec : EqDecision Snapshot.
Proof. solve_decision. Defined.

(** Reference counts of the storage snapshots, by address. *)
Abbreviation Refs := (gmap Z Z).

Definition refcount (refs : Refs) (a : Z) : Z := default 0 (refs !! a).

(** Modelled from the spec: [Snapshot.Open] and [Snapshot.Close] belong
    to the storage engines; a slice snapshot "holds a refcounted storage
    Snapshot", opened by incrementing and closed by decrementing its
    count. *)
Definition Open (s : Snapshot) (refs : Refs) : Refs :=
  <[snap_addr s := refcount refs (snap_addr s) + 1]> refs.

Definition Close (s : Snapshot) (refs : Refs) : Refs :=
  <[snap_addr s := refcount refs (snap_addr s) - 1]> refs.

Record sliceSnapshot : Type := mkSliceSnap {
  ss_id : Z;
  ss_snap : Snapshot
}.

Record partitionSnapshot : Type := mkPartnSnap {
  ps_id : Z;
  ps_slices : gmap Z sliceSnapshot
}.

Record indexSnapshot : Type := mkIndexSnap {
  is_instId : Z;
  is_ts : option TsVbuuid;
  is_partns : gmap Z partitionSnapshot;
  is_epoch : bool;
  is_creationTime : Z
}.

(** The storage snapshots held by an index snapshot, one occurrence per
    slice snapshot. *)
Definition heldSnapshots (partns : gmap Z partitionSnapshot) : list Snapshot :=
  flat_map (fun kp => map (fun ks => ss_snap ks.2)
                          (map_to_list (ps_slices kp.2)))
           (map_to_list partns).

Definition openAll (l : list Snapshot) (refs : Refs) : Refs :=
  fold_left (fun refs s => Open s refs) l refs.

Definition closeAll (l : list Snapshot) (refs : Refs) : Refs :=
  fold_left (fun refs s => Close s refs) l refs.

(** Modelled from the spec: [CloneIndexSnapshot] is declared outside the
    sources; "cloning a snapshot bumps every slice refcount". The clone
    is the same index snapshot. *)
Definition CloneIndexSnapshot (snap : option indexSnapshot) (refs : Refs)
  : Refs :=
  match snap with
  | None => refs
  | Some i => openAll (heldSnapshots (is_partns i)) refs
  end.

(** Modelled from the spec: [DestroyIndexSnapshot] is declared outside
    the sources; it "decrements every slice Snapshot exactly once". *)
Definition DestroyIndexSnapshot (snap : option indexSnapshot) (refs : Refs)
  : Refs :=
  match snap with
  | None => refs
  | Some i => closeAll (heldSnapshots (is_partns i)) refs
  end.

(** *** Slices *)

(** The [Slice] capability. A slice is an object with hidden state; its
    methods are functions of that state. [OpenSnapshot] hands out a
    storage snapshot and accounts for it in the reference counts. *)
Class SliceOps (S : Type) : Type := {
  Id : S -> Z;
  IsDirty : S -> bool;
  FlushDone : S -> S;
  NewSnapshot : S -> TsVbuuid -> bool -> S * res SnapshotInfo;
  OpenSnapshot : S -> SnapshotInfo -> Refs -> S * Refs * res Snapshot;
  GetSnapshots : S -> res (list SnapshotInfo);
  Rollback : S -> SnapshotInfo -> S * option Error;
  RollbackToZero : S -> S * option Error;
  LastRollbackTs : S -> option TsVbuuid;
  SetLastRollbackTs : S -> option TsVbuuid -> S
}.

(** [PartitionInst]: a partition with the slices of its container, in
    the order of [GetAllSlices]. *)
Record PartitionInst (S : Type) : Type := mkPartnInst {
  PartitionId : Z;
  slices : list S
}.
Arguments mkPartnInst {S} _ _.
Arguments PartitionId {S} _.
Arguments slices {S} _.

(** *** Instances, messages, log

    The statistics counters that the source updates along the way are
    opaque to the design and are not modelled; nor is the [snapId] of an
    index snapshot, which is read from them for debugging. *)

Inductive IndexState : Type :=
| INDEX_STATE_INITIAL
| INDEX_STATE_PENDING
| INDEX_STATE_LOADING
| INDEX_STATE_ACTIVE
| INDEX_STATE_DELETED
| INDEX_STATE_CATCHUP.

#[global] Instance IndexState_eq_dec : EqDecision IndexState.
Proof. solve_decision. Defined.

(** The fields of [common.IndexInst] that the storage manager reads;
    [KeyspaceId] is [Defn.KeyspaceId(Stream)]. *)
Record IndexInst : Type := mkInst {
  InstId : Z;
  State : IndexState;
  Stream : Z;
  KeyspaceId : string;
  DefnBucket : string
}.

(** The zero value that a Go map lookup yields for a missing key. *)
Definition zeroInst : IndexInst := mkInst 0 INDEX_STATE_INITIAL 0 "" "".

(** Log lines of level error and fatal, one constructor for each
    logging statement of the source; lower levels are not kept. *)
Inductive LogEntry : Type :=
| ErrNewSnapshot (sliceId : Z) (err : Error)
    (* "Error Creating new snapshot Slice Index: .. Slice: .. Skipped." *)
| ErrOpenSnapshot (sliceId : Z) (err : Error)
    (* "Error Creating Snapshot for Index: .. Slice: .. Skipped." *)
| ErrNotifySnapshot (instId : Z) (cause : string)
    (* "storageMgr::notifySnapshot ..", on a recovered panic *)
| FatalMergeSnapshot (srcInstId tgtInstId : Z).
    (* "StorageMgr::handleIndexMergeSnapshot .." *)

(** Methods whose code is outside the sources: the hash of a vbuuid
    vector, the consistency predicate of the waiters, and
    [common.CrashOnError], of which only whether it returns matters:
    [CrashOnError err = true] when the call panics. *)
Inductive Consistency : Type :=
| AnyConsistency
| SessionConsistency
| QueryConsistency
| AbsoluteConsistency.

Class Env : Type := {
  HashVbuuid : list Z -> Z;
  CrashOnError : Error -> bool;
  isSnapshotConsistent :
    indexSnapshot -> Consistency -> option TsVbuuid -> bool
}.

(** *** State of the storage manager *)

Record IndexSnapshotContainer : Type := mkSnapC {
  snap : option indexSnapshot;
  sc_creationTime : Z;
  deleted : bool
}.

(** A waiter: [wch] names its reply channel; [expired] is a time in
    nanoseconds, with 0 for the zero time ([IsZero]). *)
Record snapshotWaiter : Type := mkWaiter {
  wch : Z;
  w_ts : option TsVbuuid;
  w_cons : Consistency;
  w_idxInstId : Z;
  expired : Z
}.

(** What is sent on a reply channel. *)
Inductive Reply : Type :=
| ReplySnapshot (s : indexSnapshot)
| ReplyError (e : Error).

Definition ErrScanTimedOut : Error := "Index scan timed out".
Definition ErrIndexRollback : Error := "Indexer rollback".
Definition errStorageCorrupted : Error :=
  "Storage corrupted and unrecoverable".

Inductive Severity : Type := FATAL | NORMAL.

Inductive ErrCode : Type := ERROR_STORAGE_MGR_MERGE_SNAPSHOT_FAIL.

(** Messages to the supervisor. *)
Inductive Message : Type :=
| MsgSuccess
| MsgError (code : ErrCode) (severity : Severity) (cause : string)
| MsgStorageSnapDone (streamId : Z) (keyspaceId : string) (ts : TsVbuuid)
                     (aborted : bool).

Record storageMgr (S : Type) : Type := mkMgr {
  indexInstMap : gmap Z IndexInst;
  indexPartnMap : gmap Z (list (PartitionInst S));
  indexSnapMap : gmap Z IndexSnapshotContainer;
  waitersMap : gmap Z (list snapshotWaiter);
  (* streamKeyspaceIdInstList, by stream and keyspace *)
  instLists : gmap (Z * string) (list Z);
  refs : Refs;
  (* messages sent so far, oldest first *)
  waiterCh : list (Z * Reply);
  snapshotNotifych : list (Z * indexSnapshot);
  supvCmdch : list Message;
  supvRespch : list Message;
  logs : list LogEntry;
  (* configuration *)
  numNotifyCh : Z;
  numVbuckets : nat
}.
Arguments mkMgr {S}.
Arguments indexInstMap {S} _.
Arguments indexPartnMap {S} _.
Arguments indexSnapMap {S} _.
Arguments waitersMap {S} _.
Arguments instLists {S} _.
Arguments refs {S} _.
Arguments waiterCh {S} _.
Arguments snapshotNotifych {S} _.
Arguments supvCmdch {S} _.
Arguments supvRespch {S} _.
Arguments logs {S} _.
Arguments numNotifyCh {S} _.
Arguments numVbuckets {S} _.

Section Setters.
Context {S : Type}.
Implicit Type m : storageMgr S.

Definition setPartnMap m (v : gmap Z (list (PartitionInst S))) :=
  mkMgr (indexInstMap m) v (indexSnapMap m) (waitersMap m) (instLists m)
        (refs m) (waiterCh m) (snapshotNotifych m) (supvCmdch m)
        (supvRespch m) (logs m) (numNotifyCh m) (numVbuckets m).

Definition setSnapMap m (v : gmap Z IndexSnapshotContainer) :=
  mkMgr (indexInstMap m) (indexPartnMap m) v (waitersMap m) (instLists m)
        (refs m) (waiterCh m) (snapshotNotifych m) (supvCmdch m)
        (supvRespch m) (logs m) (numNotifyCh m) (numVbuckets m).

Definition setWaitersMap m (v : gmap Z (list snapshotWaiter)) :=
  mkMgr (indexInstMap m) (indexPartnMap m) (indexSnapMap m) v (instLists m)
        (refs m) (waiterCh m) (snapshotNotifych m) (supvCmdch m)
        (supvRespch m) (logs m) (numNotifyCh m) (numVbuckets m).

Definition setRefs m (v : Refs) :=
  mkMgr (indexInstMap m) (indexPartnMap m) (indexSnapMap m) (waitersMap m)
        (instLists m) v (waiterCh m) (snapshotNotifych m) (supvCmdch m)
        (supvRespch m) (logs m) (numNotifyCh m) (numVbuckets m).

Definition sendWaiters m (l : list (Z * Reply)) :=
  mkMgr (indexInstMap m) (indexPartnMap m) (indexSnapMap m) (waitersMap m)
        (instLists m) (refs m) (waiterCh m ++ l) (snapshotNotifych m)
        (supvCmdch m) (supvRespch m) (logs m) (numNotifyCh m) (numVbuckets m).

Definition sendNotify m (l : list (Z * indexSnapshot)) :=
  mkMgr (indexInstMap m) (indexPartnMap m) (indexSnapMap m) (waitersMap m)
        (instLists m) (refs m) (waiterCh m) (snapshotNotifych m ++ l)
        (supvCmdch m) (supvRespch m) (logs m) (numNotifyCh m) (numVbuckets m).

Definition sendCmd m (msg : Message) :=
  mkMgr (indexInstMap m) (indexPartnMap m) (indexSnapMap m) (waitersMap m)
        (instLists m) (refs m) (waiterCh m) (snapshotNotifych m)
        (supvCmdch m ++ [msg]) (supvRespch m) (logs m) (numNotifyCh m)
        (numVbuckets m).

Definition sendResp m (msg : Message) :=
  mkMgr (indexInstMap m) (indexPartnMap m) (indexSnapMap m) (waitersMap m)
        (instLists m) (refs m) (waiterCh m) (snapshotNotifych m)
        (supvCmdch m) (supvRespch m ++ [msg]) (logs m) (numNotifyCh m)
        (numVbuckets m).

Definition addLogs m (l : list LogEntry) :=
  mkMgr (indexInstMap m) (indexPartnMap m) (indexSnapMap m) (waitersMap m)
        (instLists m) (refs m) (waiterCh m) (snapshotNotifych m)
        (supvCmdch m) (supvRespch m) (logs m ++ l) (numNotifyCh m)
        (numVbuckets m).

End Setters.

(** *** Publishing a snapshot and notifying the waiters *)

Section Manager.
Context {S : Type} `{SliceOps S} `{Env}.
Implicit Type m : storageMgr S.

(** [notifySnapshotCreation]: a clone of the snapshot is sent on the
    notification channel of the instance's shard. With no channel the
    division panics; the panic is recovered and logged. *)
Definition notifySnapshotCreation m (isnap : indexSnapshot) : storageMgr S :=
  if numNotifyCh m =? 0 then
    addLogs m [ErrNotifySnapshot (is_instId isnap) "integer divide by zero"]
  else
    let index := is_instId isnap `mod` numNotifyCh m in
    sendNotify (setRefs m (CloneIndexSnapshot (Some isnap) (refs m)))
               [(index, isnap)].

(** The nil snapshot of an instance. *)
Definition nilSnapshot (instId : Z) (bucket : string) (numVb : nat) (now : Z)
  : indexSnapshot :=
  mkIndexSnap instId (Some (NewTsVbuuid bucket numVb)) ∅ true now.

(** [initSnapshotContainerForInst]: the manager, whether a container is
    returned, and whether it was created by this call. *)
Definition initSnapshotContainerForInst m (instId : Z)
    (isnap : option indexSnapshot) (now : Z) : storageMgr S * bool * bool :=
  match indexInstMap m !! instId with
  | None => (m, false, false)
  | Some inst =>
      if decide (State inst = INDEX_STATE_DELETED) then (m, false, false)
      else
        match indexSnapMap m !! instId with
        | Some _ => (m, true, false)
        | None =>
            let snap :=
              match isnap with
              | None => nilSnapshot instId (DefnBucket inst) (numVbuckets m) now
              | Some i => i
              end in
            (setSnapMap m (<[instId := mkSnapC (Some snap) now false]>
                             (indexSnapMap m)),
             true, true)
        end
  end.

(** [initSnapshotWaitersForInst]: the manager and whether a waiters
    container is returned. *)
Definition initSnapshotWaitersForInst m (instId : Z) : storageMgr S * bool :=
  match indexInstMap m !! instId with
  | None => (m, false)
  | Some inst =>
      if decide (State inst = INDEX_STATE_DELETED) then (m, false)
      else
        match waitersMap m !! instId with
        | Some _ => (m, true)
        | None => (setWaitersMap m (<[instId := []]> (waitersMap m)), true)
        end
  end.

(** [addNilSnapshot] *)
Definition addNilSnapshot m (idxInstId : Z) (bucket : string) (now : Z)
  : storageMgr S :=
  match indexSnapMap m !! idxInstId with
  | Some _ => m
  | None =>
      let snap := nilSnapshot idxInstId bucket (numVbuckets m) now in
      notifySnapshotCreation
        (setSnapMap m (<[idxInstId := mkSnapC (Some snap) now false]>
                         (indexSnapMap m)))
        snap
  end.

(** The test of the walk for an expired waiter. *)
Definition isExpired (t : Z) (w : snapshotWaiter) : bool :=
  negb (expired w =? 0) && (expired w <? t).

(** The loop of [updateSnapMapAndNotify] over the waiters, with its
    accumulators: the reference counts, the replies sent and the
    waiters kept. *)
Fixpoint notifyWaiters (t : Z) (isnap : indexSnapshot)
    (waiters : list snapshotWaiter) (refs : Refs)
    (sent : list (Z * Reply)) (newWaiters : list snapshotWaiter)
  : Refs * list (Z * Reply) * list snapshotWaiter :=
  match waiters with
  | [] => (refs, sent, newWaiters)
  | w :: rest =>
      if isExpired t w then
        notifyWaiters t isnap rest refs
                      (sent ++ [(wch w, ReplyError ErrScanTimedOut)])
                      newWaiters
      else if isSnapshotConsistent isnap (w_cons w) (w_ts w) then
        notifyWaiters t isnap rest
                      (CloneIndexSnapshot (Some isnap) refs)
                      (sent ++ [(wch w, ReplySnapshot isnap)])
                      newWaiters
      else
        notifyWaiters t isnap rest refs sent (newWaiters ++ [w])
  end.

(** The first half of [updateSnapMapAndNotify]: the container of the
    instance is found or created and holds the new snapshot; the
    previous snapshot of a container that was found is destroyed.
    [None] when there is no container to return ([snapC == nil]). *)
Definition installSnapshot m (isnap : indexSnapshot) (now : Z)
  : option (storageMgr S) :=
  let instId := is_instId isnap in
  let '(m1, found, updated) :=
    match indexSnapMap m !! instId with
    | Some _ => (m, true, false)
    | None => initSnapshotContainerForInst m instId (Some isnap) now
    end in
  if negb found then None
  else if updated then Some m1
  else
    match indexSnapMap m1 !! instId with
    | None => Some m1
    | Some snapC =>
        Some (setSnapMap
                (setRefs m1 (DestroyIndexSnapshot (snap snapC) (refs m1)))
                (<[instId := mkSnapC (Some isnap) (sc_creationTime snapC)
                                     (deleted snapC)]> (indexSnapMap m1)))
    end.

(** The second half of [updateSnapMapAndNotify]: the waiters of the
    instance are walked. *)
Definition drainWaiters m (isnap : indexSnapshot) (now : Z) : storageMgr S :=
  let instId := is_instId isnap in
  let '(m4, ok) :=
    match waitersMap m !! instId with
    | Some _ => (m, true)
    | None => initSnapshotWaitersForInst m instId
    end in
  if negb ok then m4
  else
    let waiters := default [] (waitersMap m4 !! instId) in
    let '(refs', sent, newWaiters) :=
      notifyWaiters now isnap waiters (refs m4) [] [] in
    setWaitersMap (sendWaiters (setRefs m4 refs') sent)
                  (<[instId := newWaiters]> (waitersMap m4)).

(** [updateSnapMapAndNotify] *)
Definition updateSnapMapAndNotify m (isnap : indexSnapshot) (now : Z)
  : storageMgr S :=
  match installSnapshot m isnap now with
  | None => m
  | Some m2 => drainWaiters (notifySnapshotCreation m2 isnap) isnap now
  end.

End Manager.

(** *** Creating snapshots after a flush *)

(** How a loop (or one iteration of it) ends: it goes on to the next
    iteration, the function returns, or the process panics. *)
Inductive loopRes (A : Type) : Type :=
| Next (a : A)
| Returned (a : A)
| Crash (a : A) (cause : string).
Arguments Next {A} a.
Arguments Returned {A} a.
Arguments Crash {A} a cause.

Section Creation.
Context {S : Type} `{SliceOps S} `{Env}.
Implicit Type m : storageMgr S.

(** The flags that [createSnapshotWorker] derives from the snapshot
    type: [(needsCommit, forceCommit)]. *)
Definition commitFlags (snapType : SnapType) : bool * bool :=
  if decide (snapType = DISK_SNAP \/ snapType = DISK_SNAP_OSO)
  then (true, false)
  else if decide (snapType = FORCE_COMMIT \/ snapType = FORCE_COMMIT_MERGE)
  then (false, true)
  else (false, false).

(** The test of [createSnapshotForIndex] for a new storage snapshot. *)
Definition needNewSnapshot (latestSnapshot : option Snapshot)
    (dirty needsCommit forceCommit : bool) (ts snapTs : Timestamp) : bool :=
  bool_decide (latestSnapshot = None)
  || ((dirty || needsCommit) && GreaterThan ts snapTs)
  || forceCommit.

(** The variables of [createSnapshotForIndex] that its loops update. *)
Record creation : Type := mkCreation {
  c_refs : Refs;
  c_logs : list LogEntry;
  isSnapCreated : bool;
  hasNewSnapshot : bool;
  needsCommit : bool
}.

Definition nilDeref : string :=
  "invalid memory address or nil pointer dereference".

(** [lastPartnSnap.Slices()[slice.Id()].Snapshot()], when there is a
    last partition snapshot. *)
Definition latestOf (lastPartnSnap : option partitionSnapshot) (sliceId : Z)
  : res (option Snapshot) :=
  match lastPartnSnap with
  | None => Ok None
  | Some lps =>
      match ps_slices lps !! sliceId with
      | None => Panic nilDeref
      | Some ss => Ok (Some (ss_snap ss))
      end
  end.

(** The body of the loop over the slices of a partition. The state is
    the loop variables, the slice snapshots collected for the partition
    and the slice itself. *)
Definition snapshotSlice (numVb : nat) (idxInstId : Z) (tsVbuuid : TsVbuuid)
    (hasAllSB flushWasAborted forceCommit : bool)
    (lastPartnSnap : option partitionSnapshot)
    (c : creation) (sliceSnaps : gmap Z sliceSnapshot) (slice : S)
  : loopRes (creation * gmap Z sliceSnapshot * S) :=
  if flushWasAborted then Returned (c, sliceSnaps, slice)
  else
    let sliceId := Id slice in
    let slice := if hasAllSB then SetLastRollbackTs slice None else slice in
    match latestOf lastPartnSnap sliceId with
    | Panic cause | Err cause => Crash (c, sliceSnaps, slice) cause
    | Ok latestSnapshot =>
        let snapTs :=
          match latestSnapshot with
          | Some l => Seqnos (snap_Timestamp l)
          | None => NewTimestamp numVb
          end in
        let ts := Seqnos tsVbuuid in
        if needNewSnapshot latestSnapshot (IsDirty slice) (needsCommit c)
                           forceCommit ts snapTs
        then
          let needsCommit' := if forceCommit then forceCommit
                              else needsCommit c in
          let slice := FlushDone slice in
          let '(slice, r) := NewSnapshot slice tsVbuuid needsCommit' in
          match r with
          | Panic cause =>
              Crash (mkCreation (c_refs c) (c_logs c) (isSnapCreated c)
                                (hasNewSnapshot c) needsCommit',
                     sliceSnaps, slice) cause
          | Err err =>
              let c' :=
                mkCreation (c_refs c)
                           (c_logs c ++ [ErrNewSnapshot sliceId err])
                           false (hasNewSnapshot c) needsCommit' in
              if CrashOnError err then Crash (c', sliceSnaps, slice) err
              else Next (c', sliceSnaps, slice)
          | Ok info =>
              let '(slice, refs', r2) := OpenSnapshot slice info (c_refs c) in
              match r2 with
              | Panic cause =>
                  Crash (mkCreation refs' (c_logs c) (isSnapCreated c) true
                                    needsCommit',
                         sliceSnaps, slice) cause
              | Err err =>
                  let c' :=
                    mkCreation refs'
                               (c_logs c ++ [ErrOpenSnapshot sliceId err])
                               false true needsCommit' in
                  if CrashOnError err then Crash (c', sliceSnaps, slice) err
                  else Next (c', sliceSnaps, slice)
              | Ok newSnapshot =>
                  Next (mkCreation refs' (c_logs c) (isSnapCreated c) true
                                   needsCommit',
                        <[sliceId := mkSliceSnap sliceId newSnapshot]>
                          sliceSnaps,
                        slice)
              end
          end
        else
          match latestSnapshot with
          | None => Crash (c, sliceSnaps, slice) nilDeref
          | Some latest =>
              Next (mkCreation (Open latest (c_refs c)) (c_logs c)
                               (isSnapCreated c) (hasNewSnapshot c)
                               (needsCommit c),
                    <[sliceId := mkSliceSnap sliceId latest]> sliceSnaps,
                    slice)
          end
    end.

(** The loop over the slices of a partition; [done] are the slices
    already visited, in their new state. *)
Fixpoint snapshotSlices (numVb : nat) (idxInstId : Z) (tsVbuuid : TsVbuuid)
    (hasAllSB flushWasAborted forceCommit : bool)
    (lastPartnSnap : option partitionSnapshot)
    (c : creation) (sliceSnaps : gmap Z sliceSnapshot)
    (done todo : list S)
  : loopRes (creation * gmap Z sliceSnapshot * list S) :=
  match todo with
  | [] => Next (c, sliceSnaps, done)
  | slice :: rest =>
      match snapshotSlice numVb idxInstId tsVbuuid hasAllSB flushWasAborted
                          forceCommit lastPartnSnap c sliceSnaps slice with
      | Next (c', sliceSnaps', slice') =>
          snapshotSlices numVb idxInstId tsVbuuid hasAllSB flushWasAborted
                         forceCommit lastPartnSnap c' sliceSnaps'
                         (done ++ [slice']) rest
      | Returned (c', sliceSnaps', slice') =>
          Returned (c', sliceSnaps', done ++ slice' :: rest)
      | Crash (c', sliceSnaps', slice') cause =>
          Crash (c', sliceSnaps', done ++ slice' :: rest) cause
      end
  end.

(** [lastIndexSnap.Partitions()[partnId]], when the last index snapshot
    has partitions. *)
Definition lastPartnSnapOf (lastIndexSnap : option indexSnapshot)
    (partnId : Z) : option partitionSnapshot :=
  match lastIndexSnap with
  | None => None
  | Some li => is_partns li !! partnId
  end.

(** The loop over the partitions of the instance. *)
Fixpoint snapshotPartitions (numVb : nat) (idxInstId : Z)
    (tsVbuuid : TsVbuuid) (hasAllSB flushWasAborted forceCommit : bool)
    (lastIndexSnap : option indexSnapshot)
    (c : creation) (partnSnaps : gmap Z partitionSnapshot)
    (done todo : list (PartitionInst S))
  : loopRes (creation * gmap Z partitionSnapshot * list (PartitionInst S)) :=
  match todo with
  | [] => Next (c, partnSnaps, done)
  | partnInst :: rest =>
      let partnId := PartitionId partnInst in
      let lastPartnSnap := lastPartnSnapOf lastIndexSnap partnId in
      match snapshotSlices numVb idxInstId tsVbuuid hasAllSB flushWasAborted
                           forceCommit lastPartnSnap c ∅ []
                           (slices partnInst) with
      | Next (c', sliceSnaps, slices') =>
          snapshotPartitions numVb idxInstId tsVbuuid hasAllSB
            flushWasAborted forceCommit lastIndexSnap c'
            (<[partnId := mkPartnSnap partnId sliceSnaps]> partnSnaps)
            (done ++ [mkPartnInst partnId slices']) rest
      | Returned (c', _, slices') =>
          Returned (c', partnSnaps, done ++ mkPartnInst partnId slices' :: rest)
      | Crash (c', _, slices') cause =>
          Crash (c', partnSnaps, done ++ mkPartnInst partnId slices' :: rest)
                cause
      end
  end.

(** How a handler ends: it finishes, or the process panics. *)
Inductive Outcome : Type :=
| Finished (m : storageMgr S)
| Crashed (m : storageMgr S) (cause : string).

(** Whether an instance belongs to the keyspace and stream at hand and
    is not deleted. A missing instance reads as the zero value. *)
Definition instMatches m (streamId : Z) (keyspaceId : string) (idxInstId : Z)
  : bool :=
  let idxInst := default zeroInst (indexInstMap m !! idxInstId) in
  bool_decide (KeyspaceId idxInst = keyspaceId)
  && bool_decide (Stream idxInst = streamId)
  && negb (bool_decide (State idxInst = INDEX_STATE_DELETED)).

Definition storePartnMap m (idxInstId : Z) (partnMap : list (PartitionInst S))
  : storageMgr S :=
  match indexPartnMap m !! idxInstId with
  | None => m
  | Some _ => setPartnMap m (<[idxInstId := partnMap]> (indexPartnMap m))
  end.

(** [createSnapshotForIndex]. The deferred destruction of the clone of
    the last snapshot runs on every way out. *)
Definition createSnapshotForIndex m (streamId : Z) (keyspaceId : string)
    (idxInstId : Z) (tsVbuuid : TsVbuuid)
    (hasAllSB flushWasAborted needsCommit forceCommit : bool) (now : Z)
  : Outcome :=
  if negb (instMatches m streamId keyspaceId idxInstId) then Finished m
  else
    match indexSnapMap m !! idxInstId with
    | None => Crashed m nilDeref
    | Some snapC =>
        let lastIndexSnap := snap snapC in
        let lastWithPartns :=
          match lastIndexSnap with
          | Some li => if decide (is_partns li = ∅) then None else Some li
          | None => None
          end in
        let c0 := mkCreation (CloneIndexSnapshot lastIndexSnap (refs m)) []
                             true false needsCommit in
        let partnMap := default [] (indexPartnMap m !! idxInstId) in
        let finish (c : creation) (partnMap' : list (PartitionInst S)) :=
          addLogs (setRefs (storePartnMap m idxInstId partnMap') (c_refs c))
                  (c_logs c) in
        let deferred (m' : storageMgr S) :=
          setRefs m' (DestroyIndexSnapshot lastIndexSnap (refs m')) in
        match snapshotPartitions (numVbuckets m) idxInstId tsVbuuid hasAllSB
                                 flushWasAborted forceCommit lastWithPartns
                                 c0 ∅ [] partnMap with
        | Next (c, partnSnaps, partnMap') =>
            let isnap :=
              mkIndexSnap idxInstId (Some tsVbuuid) partnSnaps false now in
            let m1 := finish c partnMap' in
            let m2 :=
              if isSnapCreated c then updateSnapMapAndNotify m1 isnap now
              else setRefs m1 (DestroyIndexSnapshot (Some isnap) (refs m1)) in
            Finished (deferred m2)
        | Returned (c, _, partnMap') => Finished (deferred (finish c partnMap'))
        | Crash (c, _, partnMap') cause =>
            Crashed (deferred (finish c partnMap')) cause
        end
    end.

(** [createSnapshotWorker]. The source runs the instances of a flush on
    several workers at once and joins them; here they run one after the
    other, in the order of the instance list. *)
Fixpoint createSnapshots m (streamId : Z) (keyspaceId : string)
    (tsVbuuid : TsVbuuid) (hasAllSB flushWasAborted needsCommit
    forceCommit : bool) (now : Z) (instIdList : list Z) : Outcome :=
  match instIdList with
  | [] => Finished m
  | idxInstId :: rest =>
      match createSnapshotForIndex m streamId keyspaceId idxInstId tsVbuuid
              hasAllSB flushWasAborted needsCommit forceCommit now with
      | Finished m' =>
          createSnapshots m' streamId keyspaceId tsVbuuid hasAllSB
                          flushWasAborted needsCommit forceCommit now rest
      | Crashed m' cause => Crashed m' cause
      end
  end.

Definition createSnapshotWorker m (streamId : Z) (keyspaceId : string)
    (tsVbuuid : TsVbuuid) (instIdList : list Z)
    (flushWasAborted hasAllSB : bool) (now : Z) : Outcome :=
  let '(needsCommit, forceCommit) := commitFlags (GetSnapType tsVbuuid) in
  match createSnapshots m streamId keyspaceId tsVbuuid hasAllSB
                        flushWasAborted needsCommit forceCommit now
                        instIdList with
  | Finished m' =>
      Finished (sendResp m' (MsgStorageSnapDone streamId keyspaceId tsVbuuid
                                                flushWasAborted))
  | Crashed m' cause => Crashed m' cause
  end.

Definition mapSlices (f : S -> S) (partnMap : list (PartitionInst S))
  : list (PartitionInst S) :=
  map (fun p => mkPartnInst (PartitionId p) (map f (slices p))) partnMap.

(** [flushDone]: the flush of a timestamp that owes no snapshot.
    [tuningDue] stands for the test on the storage mode, the writer
    tuning setting and the time since the last flush. *)
Definition flushDone m (streamId : Z) (keyspaceId : string)
    (instIdList : list Z) (tsVbuuid : TsVbuuid)
    (flushWasAborted hasAllSB tuningDue : bool) : storageMgr S :=
  let m1 :=
    if tuningDue then
      fold_left
        (fun m' idxInstId =>
           if instMatches m' streamId keyspaceId idxInstId then
             storePartnMap m' idxInstId
               (mapSlices FlushDone
                          (default [] (indexPartnMap m' !! idxInstId)))
           else m')
        instIdList m
    else m in
  let m2 :=
    if hasAllSB then
      setPartnMap m1
        (map_imap
           (fun idxInstId partnMap =>
              Some (if instMatches m1 streamId keyspaceId idxInstId
                    then mapSlices (fun sl => SetLastRollbackTs sl None)
                                   partnMap
                    else partnMap))
           (indexPartnMap m1))
    else m1 in
  sendResp m2 (MsgStorageSnapDone streamId keyspaceId tsVbuuid flushWasAborted).

(** [handleCreateSnapshot], on the flush-done message of the mutation
    manager. The work that the source hands to a goroutine runs
    within the call. *)
Definition handleCreateSnapshot m (streamId : Z) (keyspaceId : string)
    (tsVbuuid : TsVbuuid) (flushWasAborted hasAllSB tuningDue : bool)
    (now : Z) : Outcome :=
  let m := sendCmd m MsgSuccess in
  let snapType := GetSnapType tsVbuuid in
  let tsVbuuid := setCrc64 tsVbuuid (HashVbuuid (Vbuuids tsVbuuid)) in
  let instIdList := default [] (instLists m !! (streamId, keyspaceId)) in
  if decide (snapType = NO_SNAP \/ snapType = NO_SNAP_OSO) then
    Finished (flushDone m streamId keyspaceId instIdList tsVbuuid
                        flushWasAborted hasAllSB tuningDue)
  else
    createSnapshotWorker m streamId keyspaceId (Copy tsVbuuid) instIdList
                         flushWasAborted hasAllSB now.

(** *** Rollback *)

(** Modelled from the spec: the snapshot info container is declared
    outside the sources; it lists the infos of a slice from the newest
    to the oldest ([GetLatest] is the first, "the snapshot immediately
    older" the next), and [GetOlderThanTS] picks "the newest [info]
    with [info.ts <= rollbackTs]". *)
Definition NewSnapshotInfoContainer (infos : list SnapshotInfo)
  : list SnapshotInfo := infos.

Definition GetLatest (s : list SnapshotInfo) : option SnapshotInfo := head s.

Definition GetOlderThanTS (s : list SnapshotInfo) (ts : TsVbuuid)
  : option SnapshotInfo :=
  find (fun si => seqnosLe (info_Timestamp si) ts) s.

(** The search of [findRollbackSnapshot] below the last rollback
    timestamp: the info after the one already used, or none. *)
Fixpoint nextAfterUsed (lastRollbackTs : TsVbuuid) (slist : list SnapshotInfo)
  : option SnapshotInfo :=
  match slist with
  | [] => None
  | si :: rest =>
      if Equal lastRollbackTs (info_Timestamp si) then head rest
      else nextAfterUsed lastRollbackTs rest
  end.

(** [findRollbackSnapshot]; the slice is only read. *)
Definition findRollbackSnapshot (slice : S) (rollbackTs : TsVbuuid)
  : res (option SnapshotInfo) :=
  match GetSnapshots slice with
  | Err err => Panic ("Unable read snapinfo -" +:+ err)
  | Panic cause => Panic cause
  | Ok infos =>
      let s := NewSnapshotInfoContainer infos in
      if existsb IsOSOSnap s then Ok None
      else if HasZeroSeqNum rollbackTs then
        let lastRollbackTs := LastRollbackTs slice in
        let latestSnapInfo := GetLatest s in
        match latestSnapInfo, lastRollbackTs with
        | Some _, Some lrt => Ok (nextAfterUsed lrt s)
        | _, _ => Ok latestSnapInfo
        end
      else Ok (GetOlderThanTS s rollbackTs)
  end.

(** [rollbackToSnapshot]: the slice after the call, the restart
    timestamp and the error. *)
Definition rollbackToSnapshot (slice : S) (snapInfo : option SnapshotInfo)
    (markAsUsed : bool) : S * option TsVbuuid * option Error :=
  match snapInfo with
  | Some info =>
      match Rollback slice info with
      | (slice, None) =>
          let restartTs := info_Timestamp info in
          (if markAsUsed then SetLastRollbackTs slice (Some restartTs)
           else slice,
           Some restartTs, None)
      | (slice, Some err) => (slice, None, Some err)
      end
  | None =>
      match RollbackToZero slice with
      | (slice, None) => (SetLastRollbackTs slice None, None, None)
      | (slice, Some err) => (slice, None, Some err)
      end
  end.

(** The work of [rollbackIndex] on one slice: search, then roll back. *)
Definition rollbackSlice (slice : S) (rollbackTs : TsVbuuid)
  : res (S * option TsVbuuid * option Error) :=
  snapInfo ← findRollbackSnapshot slice rollbackTs;
  Ok (rollbackToSnapshot slice snapInfo (HasZeroSeqNum rollbackTs)).

(** *** Merge and prune *)

(** [deepCloneIndexSnapshot]: the clone and the reference counts after
    opening every slice snapshot that is cloned. The clone of a
    partition takes the key of the map as its id. *)
Definition deepCloneIndexSnapshot (isnap : indexSnapshot) (doPrune : bool)
    (keepPartnIds : list Z) (now : Z) (refs : Refs) : indexSnapshot * Refs :=
  let partns :=
    map_imap
      (fun partnId partnSnap =>
         if negb doPrune || bool_decide (partnId ∈ keepPartnIds) then
           Some (mkPartnSnap partnId
                   ((fun ss => mkSliceSnap (ss_id ss) (ss_snap ss))
                      <$> ps_slices partnSnap))
         else None)
      (is_partns isnap) in
  (mkIndexSnap (is_instId isnap) (Copy <$> is_ts isnap) partns false now,
   openAll (heldSnapshots partns) refs).

(** The partition ids of a snapshot, in the order of the range. *)
Definition partitionIds (isnap : indexSnapshot) : list Z :=
  map (fun kp => ps_id kp.2) (map_to_list (is_partns isnap)).

Definition mergeFail (cause : string) : Message :=
  MsgError ERROR_STORAGE_MGR_MERGE_SNAPSHOT_FAIL FATAL cause.

(** The checks of [handleIndexMergeSnapshot] on the partitions: the
    source holds every requested partition and no other, and shares
    none with the target. *)
Definition checkPartitions (source target : indexSnapshot)
    (partitions : list Z) : option string :=
  if decide (is_partns source = ∅) then None
  else
    let count :=
      length (filter (fun partnId => partnId ∈ partitionIds source)
                     partitions) in
    if negb (bool_decide (count = length partitions))
       || negb (bool_decide (count = length (partitionIds source)))
    then Some "Source snapshot does not have all the required partitions"
    else if existsb (fun sp => bool_decide (sp ∈ partitionIds target))
                    (partitionIds source)
    then Some "Duplicate partition found between source and target"
    else None.

(** [handleIndexMergeSnapshot] *)
Definition handleIndexMergeSnapshot m (srcInstId tgtInstId : Z)
    (partitions : list Z) (now : Z) : Outcome :=
  match indexSnapMap m !! srcInstId with
  | None => Finished (sendCmd m MsgSuccess)
  | Some sourceC =>
      match snap sourceC with
      | None => Crashed m nilDeref
      | Some source =>
          let publish (m' : storageMgr S) (target : indexSnapshot) :=
            Finished (sendCmd (updateSnapMapAndNotify m' target now)
                              MsgSuccess) in
          match indexSnapMap m !! tgtInstId with
          | None =>
              let '(target, refs') :=
                deepCloneIndexSnapshot source false [] now (refs m) in
              publish (setRefs m refs') target
          | Some targetC =>
              match snap targetC with
              | None => Crashed m nilDeref
              | Some target =>
                  match is_ts source, is_ts target with
                  | Some sts, Some tts =>
                      if negb (EqualOrGreater sts tts false) then
                        Finished
                          (sendCmd
                             (addLogs m
                                [FatalMergeSnapshot srcInstId tgtInstId;
                                 FatalMergeSnapshot srcInstId tgtInstId])
                             (mergeFail "Timestamp mismatch between snapshot"))
                      else
                        match checkPartitions source target partitions with
                        | Some cause => Finished (sendCmd m (mergeFail cause))
                        | None =>
                            let '(target, refs1) :=
                              deepCloneIndexSnapshot target false [] now
                                                     (refs m) in
                            match partitions with
                            | [] => publish (setRefs m refs1) target
                            | _ :: _ =>
                                let '(source, refs2) :=
                                  deepCloneIndexSnapshot source true
                                    partitions now refs1 in
                                let moved :=
                                  map_fold
                                    (fun _ sp acc => <[ps_id sp := sp]> acc)
                                    (is_partns target) (is_partns source) in
                                publish (setRefs m refs2)
                                  (mkIndexSnap (is_instId target)
                                     (is_ts target) moved (is_epoch target)
                                     (is_creationTime target))
                            end
                        end
                  | _, _ => Crashed m nilDeref
                  end
              end
          end
      end
  end.

(** [handleIndexPruneSnapshot]: [partitions] are the partitions of the
    request; the ones of the snapshot that it does not name are kept. *)
Definition handleIndexPruneSnapshot m (instId : Z) (partitions : list Z)
    (now : Z) : Outcome :=
  match indexSnapMap m !! instId with
  | None => Finished (sendCmd m MsgSuccess)
  | Some snapC =>
      match snap snapC with
      | None => Crashed m nilDeref
      | Some snapshot =>
          let kept :=
            filter (fun id => id ∉ partitions) (partitionIds snapshot) in
          let '(newSnapshot, refs') :=
            deepCloneIndexSnapshot snapshot true kept now (refs m) in
          Finished (sendCmd (updateSnapMapAndNotify (setRefs m refs')
                                                    newSnapshot now)
                            MsgSuccess)
      end
  end.

End Creation.

(** *** A slice kept in memory

    A slice with scripted failures, and environments over the CRC-64
    hash, used to run the manager on concrete inputs. The infos are
    listed from the newest to the oldest. *)

Record memSlice : Type := mkMemSlice {
  ms_id : Z;
  ms_dirty : bool;
  ms_infos : list SnapshotInfo;
  ms_lastRollbackTs : option TsVbuuid;
  ms_newSnapshotErr : option Error;
  ms_openSnapshotErr : option Error;
  ms_rollbackErr : option Error;
  ms_nextAddr : Z;
  (* the calls made on the slice, oldest first *)
  ms_calls : list string
}.

Definition called (name : string) (s : memSlice) : memSlice :=
  mkMemSlice (ms_id s) (ms_dirty s) (ms_infos s) (ms_lastRollbackTs s)
             (ms_newSnapshotErr s) (ms_openSnapshotErr s) (ms_rollbackErr s)
             (ms_nextAddr s) (ms_calls s ++ [name]).

Definition setInfos (s : memSlice) (infos : list SnapshotInfo) (dirty : bool)
  : memSlice :=
  mkMemSlice (ms_id s) dirty infos (ms_lastRollbackTs s)
             (ms_newSnapshotErr s) (ms_openSnapshotErr s) (ms_rollbackErr s)
             (ms_nextAddr s) (ms_calls s).

Definition setLast (s : memSlice) (ts : option TsVbuuid) : memSlice :=
  mkMemSlice (ms_id s) (ms_dirty s) (ms_infos s) ts
             (ms_newSnapshotErr s) (ms_openSnapshotErr s) (ms_rollbackErr s)
             (ms_nextAddr s) (ms_calls s).

Definition bumpAddr (s : memSlice) : memSlice :=
  mkMemSlice (ms_id s) (ms_dirty s) (ms_infos s) (ms_lastRollbackTs s)
             (ms_newSnapshotErr s) (ms_openSnapshotErr s) (ms_rollbackErr s)
             (ms_nextAddr s + 1) (ms_calls s).

(** The infos from [info] on: what is left after rolling back to it. *)
Fixpoint infosFrom (info : SnapshotInfo) (infos : list SnapshotInfo)
  : list SnapshotInfo :=
  match infos with
  | [] => []
  | i :: rest => if decide (i = info) then infos else infosFrom info rest
  end.

#[local] Instance memSliceOps : SliceOps memSlice := {|
  Id := ms_id;
  IsDirty := ms_dirty;
  FlushDone := called "FlushDone";
  NewSnapshot := fun s ts commit =>
    let s := called "NewSnapshot" s in
    match ms_newSnapshotErr s with
    | Some e => (s, Err e)
    | None =>
        let info :=
          mkInfo ts (bool_decide (GetSnapType ts = DISK_SNAP_OSO)) in
        (setInfos s (info :: ms_infos s) false, Ok info)
    end;
  OpenSnapshot := fun s info refs =>
    let s := called "OpenSnapshot" s in
    match ms_openSnapshotErr s with
    | Some e => (s, refs, Err e)
    | None =>
        let sn := mkSnapshot (ms_nextAddr s) (info_Timestamp info) in
        (bumpAddr s, Open sn refs, Ok sn)
    end;
  GetSnapshots := fun s => Ok (ms_infos s);
  Rollback := fun s info =>
    let s := called "Rollback" s in
    match ms_rollbackErr s with
    | Some e => (s, Some e)
    | None => (setInfos s (infosFrom info (ms_infos s)) false, None)
    end;
  RollbackToZero := fun s =>
    let s := called "RollbackToZero" s in
    match ms_rollbackErr s with
    | Some e => (s, Some e)
    | None => (setInfos s [] false, None)
    end;
  LastRollbackTs := ms_lastRollbackTs;
  SetLastRollbackTs := setLast
|}.

(** Modelled from the spec: [isSnapshotConsistent] is declared outside
    the sources; any and absolute consistency always hold, query and
    session consistency hold when "[snap.ts >= reqTs]" sequence-wise. *)
Definition consistentWith (isnap : indexSnapshot) (cons : Consistency)
    (reqTs : option TsVbuuid) : bool :=
  match cons with
  | AnyConsistency | AbsoluteConsistency => true
  | QueryConsistency | SessionConsistency =>
      match is_ts isnap, reqTs with
      | _, None => true
      | Some sts, Some rts => seqnosLe rts sts
      | None, Some _ => false
      end
  end.

(** The environment in which [CrashOnError] does what its name says and
    panics on an error. *)
#[local] Instance crashEnv : Env := {|
  HashVbuuid := crc64Vbuuid;
  CrashOnError := fun _ => true;
  isSnapshotConsistent := consistentWith
|}.

(** The environment in which [CrashOnError] returns. *)
#[local] Instance lenientEnv : Env := {|
  HashVbuuid := crc64Vbuuid;
  CrashOnError := fun _ => false;
  isSnapshotConsistent := consistentWith
|}.

(** A manager with one active instance, one partition and one slice,
    one vbucket and one notification channel; [bootMgr] is that
    manager once the nil snapshot of the instance is in place. *)
Definition flushTs (seqno : Z) (t : SnapType) : TsVbuuid :=
  mkTs "b" [seqno] [7] 0 t.

Definition cleanSlice : memSlice :=
  mkMemSlice 0 false [] None None None None 100 [].

Definition sampleInst : IndexInst := mkInst 1 INDEX_STATE_ACTIVE 0 "b" "b".

Definition sampleMgr (sl : memSlice) : storageMgr memSlice :=
  mkMgr {[1 := sampleInst]} {[1 := [mkPartnInst 0 [sl]]]} ∅ ∅
        {[(0, "b"%string) := [1]]} ∅ [] [] [] [] [] 1 1.

Definition bootMgr (sl : memSlice) : storageMgr memSlice :=
  addNilSnapshot (sampleMgr sl) 1 "b" 5.

(** *** Properties stated about the manager *)

(** The three outcomes of the walk for a waiter. *)
Inductive WaiterOutcome : Type := TimedOut | Notified | Kept.

#[global] Instance WaiterOutcome_eq_dec : EqDecision WaiterOutcome.
Proof. solve_decision. Defined.

Definition outcomeOf `{Env} (t : Z) (isnap : indexSnapshot)
    (w : snapshotWaiter) : WaiterOutcome :=
  if isExpired t w then TimedOut
  else if isSnapshotConsistent isnap (w_cons w) (w_ts w) then Notified
  else Kept.

(** What a waiter is sent for each outcome. *)
Definition replyOf (isnap : indexSnapshot) (w : snapshotWaiter)
    (o : WaiterOutcome) : option (Z * Reply) :=
  match o with
  | TimedOut => Some (wch w, ReplyError ErrScanTimedOut)
  | Notified => Some (wch w, ReplySnapshot isnap)
  | Kept => None
  end.

(** The state in which a handler ends. *)
Definition stateOf {S : Type} (o : Outcome (S := S)) : storageMgr S :=
  match o with
  | Finished m => m
  | Crashed m _ => m
  end.

(** The invariant on the timestamps of the current snapshots: the
    [Crc64] field is the hash of the vbuuid vector. *)
Definition crcInv `{Env} {S : Type} (m : storageMgr S) : Prop :=
  forall instId snapC isnap ts,
    indexSnapMap m !! instId = Some snapC ->
    snap snapC = Some isnap ->
    is_ts isnap = Some ts ->
    Crc64 ts = HashVbuuid (Vbuuids ts).

(** The invariant as a test on the containers. *)
Definition crcOk `{Env} (snapC : IndexSnapshotContainer) : bool :=
  match snap snapC with
  | Some isnap =>
      match is_ts isnap with
      | Some ts => Crc64 ts =? HashVbuuid (Vbuuids ts)
      | None => true
      end
  | None => true
  end.

Definition crcInvb `{Env} {S : Type} (m : storageMgr S) : bool :=
  forallb (fun kc => crcOk kc.2) (map_to_list (indexSnapMap m)).

(** An index snapshot whose partition snapshots carry the id under
    which they are stored. *)
Definition wellKeyed (isnap : indexSnapshot) : Prop :=
  forall partnId ps, is_partns isnap !! partnId = Some ps -> ps_id ps = partnId.

(** How many slice snapshots of an index snapshot hold the storage
    snapshot at address [a]. *)
Definition holders (partns : gmap Z partitionSnapshot) (a : Z) : Z :=
  Z.of_nat (length (filter (fun s => snap_addr s = a) (heldSnapshots partns))).

(** An error of [NewSnapshot] or [OpenSnapshot] in the log. *)
Definition creationErr (e : LogEntry) : Prop :=
  exists sliceId err,
    e = ErrNewSnapshot sliceId err \/ e = ErrOpenSnapshot sliceId err.

(** A recovered panic of the notification in the log. *)
Definition notifyLog (e : LogEntry) : Prop :=
  exists i c, e = ErrNotifySnapshot i c.

(** The loop variables only move forward: the log grows by creation
    errors, and the snapshot counts as created as long as none was
    logged. *)
Definition grows (c c' : creation) : Prop :=
  exists new,
    c_logs c' = c_logs c ++ new
    /\ Forall creationErr new
    /\ isSnapCreated c' = isSnapCreated c && bool_decide (new = []).

(** The loop variables in which a loop ends. *)
Definition endState {X Y : Type} (r : loopRes (creation * X * Y)) : creation :=
  match r with
  | Next (c, _, _) | Returned (c, _, _) | Crash (c, _, _) _ => c
  end.

Definition isReturned {A : Type} (r : loopRes A) : bool :=
  match r with Returned _ => true | _ => false end.

(** The addresses of the storage snapshots that the current snapshot of
    an instance holds. *)
Definition publishedAddrs {S : Type} (m : storageMgr S) (instId : Z)
  : option (list Z) :=
  snapC ← indexSnapMap m !! instId;
  isnap ← snap snapC;
  Some (map snap_addr (heldSnapshots (is_partns isnap))).

(** The calls made so far on the slices of an instance. *)
Definition sliceCalls (m : storageMgr memSlice) (instId : Z)
  : list (list string) :=
  flat_map (fun p => map ms_calls (slices p))
           (default [] (indexPartnMap m !! instId)).

(** A dirty slice whose [NewSnapshot] fails. *)
Definition failingSlice : memSlice :=
  mkMemSlice 0 true [] None (Some "disk full"%string) None None 100 [].

(** The manager after a first disk flush at sequence number 1. *)
Definition flushedMgr : storageMgr memSlice :=
  stateOf (handleCreateSnapshot (H0 := crashEnv) (bootMgr cleanSlice) 0 "b"
             (flushTs 1 DISK_SNAP) false false false 10).

(** The partition ids under which the current snapshot of an instance
    holds partition snapshots. *)
Definition publishedPartitions {S : Type} (m : storageMgr S) (instId : Z)
  : option (list Z) :=
  snapC ← indexSnapMap m !! instId;
  isnap ← snap snapC;
  Some (map fst (map_to_list (is_partns isnap))).

(** A snapshot over the partitions 0 and 1, and a manager that has it
    as the current snapshot of instance 1. *)
Definition twoPartitions : indexSnapshot :=
  mkIndexSnap 1 (Some (flushTs 1 DISK_SNAP))
    (<[0 := mkPartnSnap 0 (<[0 := mkSliceSnap 0
                                     (mkSnapshot 100 (flushTs 1 DISK_SNAP))]> ∅)]>
       (<[1 := mkPartnSnap 1 (<[0 := mkSliceSnap 0
                                        (mkSnapshot 101 (flushTs 1 DISK_SNAP))]> ∅)]>
          ∅))
    false 10.

Definition pruneMgr : storageMgr memSlice :=
  mkMgr {[1 := sampleInst]} ∅ {[1 := mkSnapC (Some twoPartitions) 5 false]}
        {[1 := []]} ∅ (<[100 := 1]> (<[101 := 1]> ∅)) [] [] [] [] [] 1 1.

(** A manager in which the snapshot of the source instance 2 is behind
    the snapshot of the target instance 1. *)
Definition mergeMgr : storageMgr memSlice :=
  mkMgr {[1 := sampleInst; 2 := mkInst 2 INDEX_STATE_ACTIVE 0 "b" "b"]} ∅
        {[1 := mkSnapC (Some (mkIndexSnap 1 (Some (flushTs 2 DISK_SNAP)) ∅
                                          false 10)) 5 false;
          2 := mkSnapC (Some (mkIndexSnap 2 (Some (flushTs 1 DISK_SNAP)) ∅
                                          false 10)) 5 false]}
        ∅ ∅ ∅ [] [] [] [] [] 1 1.

(** Three waiters of instance 1: one past its deadline, one that any
    snapshot satisfies, one that asks for sequence number 9. *)
Definition lateWaiter : snapshotWaiter :=
  mkWaiter 11 None AnyConsistency 1 15.

Definition easyWaiter : snapshotWaiter :=
  mkWaiter 12 None AnyConsistency 1 0.

Definition aheadWaiter : snapshotWaiter :=
  mkWaiter 13 (Some (flushTs 9 DISK_SNAP)) QueryConsistency 1 0.

Definition waitMgr : storageMgr memSlice :=
  mkMgr {[1 := sampleInst]} ∅
        {[1 := mkSnapC (Some (nilSnapshot 1 "b" 1 5)) 5 false]}
        {[1 := [lateWaiter; easyWaiter; aheadWaiter]]} ∅ ∅ [] [] [] [] [] 1 1.

(** A slice that holds the snapshots of the sequence numbers 30, 20 and
    10, the newest first. *)
Definition info (seqno : Z) : SnapshotInfo :=
  mkInfo (flushTs seqno DISK_SNAP) false.

Definition threeInfos : memSlice :=
  mkMemSlice 0 false [info 30; info 20; info 10] None None None None 100 [].

End Storage.

(** ** Utilities of the indexer *)

Module Util.
Import Planner.

(** [^b]: the complement of a byte. *)
Definition complement (b : byte) : byte :=
  let '(b0, (b1, (b2, (b3, (b4, (b5, (b6, b7))))))) := Byte.to_bits b in
  Byte.of_bits (negb b0, (negb b1, (negb b2, (negb b3, (negb b4, (negb b5,
                (negb b6, negb b7))))))).

(** [FlipBits]: the slice is flipped in place; the result is its new
    content. *)
Definition FlipBits (code : bytes) : bytes := map complement code.

(** *** Strings *)

(** [strings.Split(s, sep)] of the Go library for a separator of one
    byte: the pieces of [s] between the separators, at least one. *)
Fixpoint split (sep : ascii) (s : string) : list string :=
  match s with
  | EmptyString => [EmptyString]
  | String c s' =>
      if Ascii.eqb c sep then EmptyString :: split sep s'
      else
        match split sep s' with
        | x :: xs => String c x :: xs
        | [] => [String c EmptyString]
        end
  end.

(** [strings.Join(elems, sep)] of the Go library. *)
Fixpoint join (sep : string) (elems : list string) : string :=
  match elems with
  | [] => EmptyString
  | [x] => x
  | x :: rest => x +:+ sep +:+ join sep rest
  end.

(** Whether the byte [c] occurs in [s]. *)
Fixpoint occurs (c : ascii) (s : string) : bool :=
  match s with
  | EmptyString => false
  | String d s' => Ascii.eqb d c || occurs c s'
  end.

(** [%d] of [fmt.Sprintf] on an integer. *)
Definition formatInt (z : Z) : string :=
  if z <? 0 then
    String "-" (DecimalString.NilZero.string_of_uint (N.to_uint (Z.to_N (- z))))
  else DecimalString.NilZero.string_of_uint (N.to_uint (Z.to_N z)).

(** [strconv.ParseUint(s, 10, 64)] of the Go library: a non-empty string
    of decimal digits whose value fits 64 bits. *)
Definition ParseUint (s : string) : res Z :=
  match DecimalString.NilZero.uint_of_string s with
  | None => Err "invalid syntax"
  | Some d =>
      let n := Z.of_N (N.of_uint d) in
      if n <? 2 ^ 64 then Ok n else Err "value out of range"
  end.

(** The conversion of a [uint64] to [int]. *)
Definition toInt (z : Z) : Z := if z <? 2 ^ 63 then z else z - 2 ^ 64.

(** *** Index paths *)

(** The fields of an index instance that make its path; [IsProxy] is
    the result of [inst.IsProxy()]. *)
Record PathInst : Type := mkPathInst {
  p_Bucket : string;
  p_Name : string;
  p_InstId : Z;
  p_RealInstId : Z;
  IsProxy : bool
}.

(** [GetRealIndexInstId] *)
Definition GetRealIndexInstId (inst : PathInst) : Z :=
  if IsProxy inst then p_RealInstId inst else p_InstId inst.

(** [IndexPath]; the slice id is not part of the path. *)
Definition IndexPath (inst : PathInst) (partnId sliceId : Z) : string :=
  let instId := if IsProxy inst then p_RealInstId inst else p_InstId inst in
  p_Bucket inst +:+ "_" +:+ p_Name inst +:+ "_" +:+ formatInt instId
    +:+ "_" +:+ formatInt partnId +:+ ".index".

(** [GetInstIdPartnIdFromPath]; an instance id is a [uint64], a
    partition id an [int]. *)
Definition GetInstIdPartnIdFromPath (idxPath : string) : res (Z * Z) :=
  let pathComponents := split "_" idxPath in
  let n := length pathComponents in
  if (n <? 4)%nat then Err "Malformed index path"
  else
    match pathComponents !! (n - 2)%nat, pathComponents !! (n - 1)%nat with
    | Some strInstId, Some lastComponent =>
        instId ← ParseUint strInstId;
        match split "." lastComponent with
        | [strPartnId; _] =>
            partnId ← ParseUint strPartnId;
            Ok (instId, toInt partnId)
        | _ => Err "Malformed index path"
        end
    | _, _ => Err "Malformed index path"
    end.

End Util.

(** ** Host names of the cluster utility *)

Module Urls.
Import Util.

(** [prependHttp] *)
Definition prependHttp (url : string) : string :=
  if (7 <? String.length url)%nat && bool_decide (substring 0 7 url = "http://")
  then url
  else "http://" +:+ url.

(** [prependHttps]; the first test compares the first seven bytes of the
    url with the eight bytes of "https://". *)
Definition prependHttps (url : string) : string :=
  if (8 <? String.length url)%nat
     && bool_decide (substring 0 7 url = "https://")
  then url
  else if (7 <? String.length url)%nat
          && bool_decide (substring 0 7 url = "http://")
  then "https://" +:+ substring 7 (String.length url - 7) url
  else "https://" +:+ url.

(** [securePortMap] *)
Definition securePortMap : gmap string string :=
  list_to_map [("9000", "19000"); ("9001", "19001"); ("9002", "19002");
               ("9003", "19003"); ("8091", "18091"); ("9102", "19102")]%string.

(** [useSecurePort] *)
Definition useSecurePort (hostname : string) : string :=
  let comps := split ":" hostname in
  let n := length comps in
  if (0 <? n)%nat then
    match comps !! (n - 1)%nat with
    | Some port =>
        match securePortMap !! port with
        | Some newPort => join ":" (<[(n - 1)%nat := newPort]> comps)
        | None => hostname
        end
    | None => hostname
    end
  else hostname.

(** [getHttpsHostname] *)
Definition getHttpsHostname (hostname : string) : string :=
  useSecurePort (prependHttps hostname).

End Urls.

(** ** Projections of a scan request *)

Module Projections.

(** [projGroup] *)
Record projGroup : Type := mkProjGroup {
  pos : Z;
  grpKey : bool
}.

(** [Projection] *)
Record Projection : Type := mkProjection {
  projectSecKeys : bool;
  projectionKeys : list bool;
  entryKeysEmpty : bool;
  projectGroupKeys : list projGroup
}.

(** The loop of [validateIndexProjection] over the entry keys. *)
Fixpoint markEntryKeys (cklen : Z) (entryKeys : list Z)
    (projectionKeys : list bool) : res (list bool) :=
  match entryKeys with
  | [] => Ok projectionKeys
  | position :: rest =>
      if (cklen <=? position) || (position <? 0) then
        Err "Invalid Entry Key in IndexProjection"
      else
        markEntryKeys cklen rest
                      (<[Z.to_nat position := true]> projectionKeys)
  end.

(** [validateIndexProjection]; [entryKeys] is [projection.EntryKeys]. *)
Definition validateIndexProjection (entryKeys : list Z) (cklen : Z)
  : res Projection :=
  if cklen <? Z.of_nat (length entryKeys) then
    Err "Invalid number of Entry Keys in IndexProjection"
  else
    projectionKeys ←
      markEntryKeys cklen entryKeys (replicate (Z.to_nat cklen) false);
    let projectAllSecKeys := forallb (fun sp => sp) projectionKeys in
    Ok (mkProjection (negb projectAllSecKeys) projectionKeys
                     (bool_decide (length entryKeys = 0%nat)) []).

(** The position of the first element of [ids] equal to [entryId]: the
    inner loops of [validateIndexProjectionGroupAggr]. *)
Fixpoint firstAt (entryId : Z) (j : Z) (ids : list Z) : option Z :=
  match ids with
  | [] => None
  | g :: rest => if entryId =? g then Some j else firstAt entryId (j + 1) rest
  end.

(** The outer loop of [validateIndexProjectionGroupAggr]. *)
Fixpoint projectGroups (entryKeys groupKeys aggrs : list Z)
  : res (list projGroup) :=
  match entryKeys with
  | [] => Ok []
  | entryId :: rest =>
      match firstAt entryId 0 groupKeys with
      | Some j =>
          projGrp ← projectGroups rest groupKeys aggrs;
          Ok (mkProjGroup j true :: projGrp)
      | None =>
          match firstAt entryId 0 aggrs with
          | Some j =>
              projGrp ← projectGroups rest groupKeys aggrs;
              Ok (mkProjGroup j false :: projGrp)
          | None => Err "Projection EntryId not found in any Group/Aggregate"
          end
      end
  end.

(** [validateIndexProjectionGroupAggr]; [groupKeys] and [aggrs] are the
    [EntryKeyId]s of the group keys and of the aggregates of the
    request. *)
Definition validateIndexProjectionGroupAggr (entryKeys groupKeys aggrs : list Z)
  : res Projection :=
  let nproj := Z.of_nat (length entryKeys) in
  if nproj <=? 0 then Err "Grouping without projection is not supported"
  else
    projGrp ← projectGroups entryKeys groupKeys aggrs;
    Ok (mkProjection true [] false projGrp).

(** What an entry of the projection resolves to: the first group key
    with its id, or, when no group key has it, the first aggregate. *)
Definition resolves (groupKeys aggrs : list Z) (entryId : Z) (g : projGroup)
  : Prop :=
  0 <= pos g
  /\ if grpKey g then
       groupKeys !! Z.to_nat (pos g) = Some entryId
       /\ forall n : nat, (n < Z.to_nat (pos g))%nat ->
                          groupKeys !! n <> Some entryId
     else
       (entryId ∉ groupKeys)
       /\ aggrs !! Z.to_nat (pos g) = Some entryId
       /\ forall n : nat, (n < Z.to_nat (pos g))%nat ->
                          aggrs !! n <> Some entryId.

End Projections.

(** ** Properties stated about the planner *)

Module PlanSpec.
Import Planner.

(** An inclusion that takes in the low end, the high end. *)
Definition includesLow (i : Inclusion) : Prop := i = Low \/ i = Both.

Definition includesHigh (i : Inclusion) : Prop := i = High \/ i = Both.

(** A filter id that names a filter of the list. *)
Definition validId (filters : list Filter) (id : Z) : Prop :=
  0 <= id < Z.of_nat (length filters).

(** What the sweep of [composeScans] keeps true: the active filters are
    recorded in the list, the list names filters of the request, and
    each scan emitted carries a filter. *)
Definition sweepOk (filters : list Filter) (st : sweep) : Prop :=
  Forall (validId filters) (sw_filtersList st)
  /\ (forall id, id ∈ sw_filtersMap st -> id ∈ sw_filtersList st)
  /\ Forall (fun sc => s_Filters sc <> []) (sw_scans st).

(** The scans [pre] of a request are planned without an early return. *)
Definition plansOn `{KeyOps} (r : ScanRequest) (pre : list ProtoScan) : Prop :=
  if isPrimary r then
    exists filters points scans,
      primaryLoop r pre [] [] [] = Ok (Fallthrough filters points scans)
  else
    exists filters points scans,
      secondaryLoop r pre [] [] = Ok (Fallthrough filters points scans).

(** *** Sample scans on raw keys *)

(** The scan with the one filter from [lo] to [hi], both ends included,
    and the filter that the planner makes of it on a secondary index. *)
Definition rangeScan (lo hi : string) : ProtoScan :=
  mkProtoScan [mkProtoFilter (wire lo) (wire hi) Both] [].

Definition rangeFilter (lo hi : string) : Filter :=
  mkFilter [mkCEF (key lo) (key hi) Both] (key lo) (key hi) Both noType.

(** The scan with one filter that has no bounds. *)
Definition unboundedScan : ProtoScan :=
  mkProtoScan [mkProtoFilter None None Both] [].

(** A filter on a primary index. *)
Definition primaryFilter (lo hi : string) : Filter :=
  mkFilter [] (primaryKey (list_byte_of_string lo))
           (primaryKey (list_byte_of_string hi)) Both RangeReq.

End PlanSpec.

(** ** Snapshot workers *)

Module Workers.
Import Storage.

(** [getNumSnapshotWorkers]; [configured] is the setting
    [numSnapshotWorkers]. *)
Definition getNumSnapshotWorkers (configured : Z) : Z :=
  if configured <? 1 then 10000 else configured.

(** The stream and keyspace of an instance. *)
Definition keyOf (inst : IndexInst) : Z * string :=
  (Stream inst, KeyspaceId inst).

(** [getStreamKeyspaceIdInstListFromInstMap]: the instances of each
    stream and keyspace. The instance map is given as its entries in the
    order the range visits them; the map of maps that the function
    returns is keyed by the pair of stream and keyspace. *)
Definition getStreamKeyspaceIdInstListFromInstMap
    (indexInstMap : list (Z * IndexInst)) : gmap (Z * string) (list Z) :=
  fold_left
    (fun out '(instId, inst) =>
       <[keyOf inst := default [] (out !! keyOf inst) ++ [instId]]> out)
    indexInstMap ∅.

(** The innermost loop of [getStreamKeyspaceIdInstsPerWorker]: the
    instance at position [i] goes to the worker [i % numSnapshotWorkers]. *)
Fixpoint distribute (numSnapshotWorkers : Z) (i : Z) (instList : list Z)
    (out : list (list Z)) : res (list (list Z)) :=
  match instList with
  | [] => Ok out
  | idxInstId :: rest =>
      if numSnapshotWorkers =? 0 then Panic "integer divide by zero"
      else
        let index := Z.rem i numSnapshotWorkers in
        match (if decide (0 <= index) then out !! Z.to_nat index else None) with
        | Some l =>
            distribute numSnapshotWorkers (i + 1) rest
                       (<[Z.to_nat index := l ++ [idxInstId]]> out)
        | None => Panic "index out of range"
        end
  end.

(** The lists of one stream and keyspace. *)
Definition instsPerWorker (instList : list Z) (numSnapshotWorkers : Z)
  : res (list (list Z)) :=
  if numSnapshotWorkers <? 0 then Panic "makeslice: len out of range"
  else distribute numSnapshotWorkers 0 instList
                  (replicate (Z.to_nat numSnapshotWorkers) []).

(** [getStreamKeyspaceIdInstsPerWorker]; the entry of a stream and
    keyspace does not depend on the other entries. *)
Definition getStreamKeyspaceIdInstsPerWorker
    (streamKeyspaceIdInstList : gmap (Z * string) (list Z))
    (numSnapshotWorkers : Z) : res (gmap (Z * string) (list (list Z))) :=
  map_fold
    (fun key instList acc =>
       out ← acc;
       perWorker ← instsPerWorker instList numSnapshotWorkers;
       Ok (<[key := perWorker]> out))
    (Ok ∅) streamKeyspaceIdInstList.

End Workers.

(** ** Snapshot requests and rollback to zero *)

Module Requests.
Import Storage.

(** [common.ErrIndexNotFound] *)
Definition ErrIndexNotFound : Error := "Index not found".

(** [MsgIndexSnapRequest]: [respch] is the channel on which the request
    is answered at once, [replyCh] the result of [GetReplyChannel], on
    which a parked request is answered later. *)
Record MsgIndexSnapRequest : Type := mkSnapReq {
  req_ts : option TsVbuuid;
  req_cons : Consistency;
  respch : Z;
  replyCh : Z;
  req_idxInstId : Z;
  req_expiredTime : Z
}.

(** [newSnapshotWaiter] *)
Definition newSnapshotWaiter (idxId : Z) (ts : option TsVbuuid)
    (cons : Consistency) (ch : Z) (expired : Z) : snapshotWaiter :=
  mkWaiter ch ts cons idxId expired.

Section Listen.
Context {S : Type} `{SliceOps S} `{Env}.
Implicit Type m : storageMgr S.

(** The body of the loop of [listenSnapshotReqs], for one request. A
    container holds a snapshot from its creation on; the consistency
    predicate reads the snapshot it is handed. *)
Definition snapshotRequest m (req : MsgIndexSnapRequest) (now : Z)
  : res (storageMgr S) :=
  let instId := req_idxInstId req in
  let notFound (m' : storageMgr S) :=
    sendWaiters m' [(respch req, ReplyError ErrIndexNotFound)] in
  match indexInstMap m !! instId with
  | None => Ok (notFound m)
  | Some inst =>
      if decide (State inst = INDEX_STATE_DELETED) then Ok (notFound m)
      else
        let m1 :=
          match indexSnapMap m !! instId with
          | Some _ => m
          | None => (initSnapshotContainerForInst m instId None now).1.1
          end in
        match indexSnapMap m1 !! instId with
        | None => Ok (notFound m1)
        | Some snapC =>
            if deleted snapC then Ok (notFound m1)
            else
              match snap snapC with
              | None => Panic nilDeref
              | Some isnap =>
                  if isSnapshotConsistent isnap (req_cons req) (req_ts req)
                  then
                    Ok (sendWaiters
                          (setRefs m1 (CloneIndexSnapshot (Some isnap)
                                                          (refs m1)))
                          [(respch req, ReplySnapshot isnap)])
                  else
                    let '(m2, ok) :=
                      match waitersMap m1 !! instId with
                      | Some _ => (m1, true)
                      | None => initSnapshotWaitersForInst m1 instId
                      end in
                    if negb ok then Ok (notFound m2)
                    else
                      let w := newSnapshotWaiter instId (req_ts req)
                                 (req_cons req) (replyCh req)
                                 (req_expiredTime req) in
                      Ok (setWaitersMap m2
                            (<[instId :=
                                 default [] (waitersMap m2 !! instId) ++ [w]]>
                               (waitersMap m2)))
              end
        end
  end.

(** The loop of [rollbackAllToZero] over the slices of a partition:
    the slices after the call and the first error. *)
Fixpoint zeroSlices (done todo : list S) : list S * option Error :=
  match todo with
  | [] => (done, None)
  | slice :: rest =>
      match rollbackToSnapshot slice None false with
      | (slice', _, Some err) => (done ++ slice' :: rest, Some err)
      | (slice', _, None) => zeroSlices (done ++ [slice']) rest
      end
  end.

(** The loop over the partitions of an instance, in the order of
    [getSortedPartnInst]. *)
Fixpoint zeroPartitions (done todo : list (PartitionInst S))
  : list (PartitionInst S) * option Error :=
  match todo with
  | [] => (done, None)
  | partnInst :: rest =>
      match zeroSlices [] (slices partnInst) with
      | (slices', Some err) =>
          (done ++ mkPartnInst (PartitionId partnInst) slices' :: rest,
           Some err)
      | (slices', None) =>
          zeroPartitions
            (done ++ [mkPartnInst (PartitionId partnInst) slices']) rest
      end
  end.

(** [rollbackAllToZero]: the loop over the instances, given as the
    entries of the partition map in the order the range visits them. *)
Fixpoint zeroInstances m (streamId : Z) (keyspaceId : string)
    (todo : list (Z * list (PartitionInst S))) : storageMgr S * option Error :=
  match todo with
  | [] => (m, None)
  | (idxInstId, partnMap) :: rest =>
      if instMatches m streamId keyspaceId idxInstId then
        match zeroPartitions [] partnMap with
        | (partnMap', Some err) =>
            (setPartnMap m (<[idxInstId := partnMap']> (indexPartnMap m)),
             Some err)
        | (partnMap', None) =>
            zeroInstances
              (setPartnMap m (<[idxInstId := partnMap']> (indexPartnMap m)))
              streamId keyspaceId rest
        end
      else zeroInstances m streamId keyspaceId rest
  end.

(** [rollbackAllToZero]: the manager after the call and the error
    returned. Go leaves the order of the range open; the entries are
    visited in the order of [map_to_list]. *)
Definition rollbackAllToZero m (streamId : Z) (keyspaceId : string)
  : storageMgr S * option Error :=
  zeroInstances m streamId keyspaceId (map_to_list (indexPartnMap m)).

(** *** Properties stated about requests and rollbacks *)

(** How many slice snapshots of the snapshot of a container hold the
    storage snapshot at address [a]. *)
Definition held (s : option indexSnapshot) (a : Z) : Z :=
  match s with
  | Some i => holders (is_partns i) a
  | None => 0
  end.

(** A slice after a rollback to zero that succeeded. *)
Definition zeroed (slice : S) : S :=
  SetLastRollbackTs (RollbackToZero slice).1 None.

Definition zeroedPartition (p : PartitionInst S) : PartitionInst S :=
  mkPartnInst (PartitionId p) (map zeroed (slices p)).

End Listen.

(** *** Sample requests and managers *)

(** A request for instance 1 that any snapshot satisfies, and one that
    asks for sequence number 9; both are answered at once on channel 20
    and later on channel 21, and have no deadline. *)
Definition anyRequest : MsgIndexSnapRequest :=
  mkSnapReq None AnyConsistency 20 21 1 0.

Definition aheadRequest : MsgIndexSnapRequest :=
  mkSnapReq (Some (flushTs 9 DISK_SNAP)) QueryConsistency 20 21 1 0.

(** A snapshot of instance 1 at sequence number 9. *)
Definition nextSnap : indexSnapshot :=
  mkIndexSnap 1 (Some (flushTs 9 DISK_SNAP)) ∅ false 30.

(** A manager in which the source instance 2 holds partition 1 and the
    target instance 1 holds partition 0, at the same timestamp. *)
Definition sourceSnap : indexSnapshot :=
  mkIndexSnap 2 (Some (flushTs 2 DISK_SNAP))
    (<[1 := mkPartnSnap 1 (<[0 := mkSliceSnap 0
                                     (mkSnapshot 101 (flushTs 2 DISK_SNAP))]> ∅)]>
       ∅)
    false 10.

Definition targetSnap : indexSnapshot :=
  mkIndexSnap 1 (Some (flushTs 2 DISK_SNAP))
    (<[0 := mkPartnSnap 0 (<[0 := mkSliceSnap 0
                                     (mkSnapshot 100 (flushTs 2 DISK_SNAP))]> ∅)]>
       ∅)
    false 10.

Definition moveMgr : storageMgr memSlice :=
  mkMgr {[1 := sampleInst; 2 := mkInst 2 INDEX_STATE_ACTIVE 0 "b" "b"]} ∅
        {[1 := mkSnapC (Some targetSnap) 5 false;
          2 := mkSnapC (Some sourceSnap) 5 false]}
        ∅ ∅ (<[100 := 1]> (<[101 := 1]> ∅)) [] [] [] [] [] 1 1.

(** A slice that holds the snapshots of the sequence numbers 30, 20 and
    10 and was last rolled back to the one of 30. *)
Definition usedNewest : memSlice :=
  mkMemSlice 0 false [info 30; info 20; info 10]
             (Some (flushTs 30 DISK_SNAP)) None None None 100 [].

End Requests.

(** * Properties *)

(** ** Scan planner *)

Module PlannerProofs.
Import Planner.

Section Order.
Context `{KeyOps}.

Lemma minlen_shorter (x y : IndexPoint) :
  lenBytes (Value x) < lenBytes (Value y) -> minlen x y = x.
Proof.
  intros Hlt. unfold minlen.
  destruct (Z.ltb_spec (lenBytes (Value x)) (lenBytes (Value y))); [done | lia].
Qed.

Lemma minlen_longer (x y : IndexPoint) :
  lenBytes (Value y) <= lenBytes (Value x) -> minlen x y = y.
Proof.
  intros Hle. unfold minlen.
  destruct (Z.ltb_spec (lenBytes (Value x)) (lenBytes (Value y))); [lia | done].
Qed.

Lemma len_neq_point (x y : IndexPoint) :
  lenBytes (Value x) <> lenBytes (Value y) -> x <> y.
Proof. intros Hne ->. done. Qed.

(** On keys that are not sentinels the comparison of two points is
    decided by the prefix comparison of their values, then by their
    lengths and types. *)
Lemma lessThan_ordinary (x y : IndexPoint) :
  ordinary (Value x) -> ordinary (Value y) ->
  IndexPointLessThan x y =
    if ComparePrefixIndexKey (Value x) (Value y) <? 0 then true
    else if ComparePrefixIndexKey (Value x) (Value y) =? 0 then
      if lenBytes (Value x) =? lenBytes (Value y) then
        bool_decide (Type_ x = "low"%string /\ Type_ y = "high"%string)
      else if lenBytes (Value x) <? lenBytes (Value y) then
        bool_decide (Type_ x = "low"%string)
      else bool_decide (Type_ y = "high"%string)
    else false.
Proof.
  intros [Hx1 Hx2] [Hy1 Hy2]. unfold IndexPointLessThan.
  repeat (case_decide; [done |]).
  destruct (_ <? 0); [done |].
  destruct (_ =? 0); [| done].
  destruct (Z.eqb_spec (lenBytes (Value x)) (lenBytes (Value y))) as [Heq | Hne].
  - case_bool_decide; case_decide; tauto.
  - pose proof (len_neq_point x y Hne) as Hxy.
    destruct (Z.ltb_spec (lenBytes (Value x)) (lenBytes (Value y))) as [Hlt | Hge].
    + rewrite minlen_shorter by done.
      repeat case_bool_decide; repeat case_decide; try done; congruence.
    + rewrite minlen_longer by done.
      repeat case_bool_decide; repeat case_decide; try done; congruence.
Qed.

(** C9 (as amended). Points whose values are not sentinels are ordered
    by [IndexPointLessThan] as follows: points with distinct values are
    in ascending key order; points with equal values and equal lengths
    place a low endpoint before a high endpoint; points with equal
    values and different lengths are ordered by the type of the shorter
    point, which goes first when it is a low endpoint and last when it
    is a high endpoint. *)
Theorem IndexPointLessThan_order (x y : IndexPoint) :
  ordinary (Value x) -> ordinary (Value y) ->
  let c := ComparePrefixIndexKey (Value x) (Value y) in
  (c < 0 -> IndexPointLessThan x y = true)
  /\ (0 < c -> IndexPointLessThan x y = false)
  /\ (c = 0 -> lenBytes (Value x) = lenBytes (Value y) ->
      (IndexPointLessThan x y = true
       <-> Type_ x = "low"%string /\ Type_ y = "high"%string))
  /\ (c = 0 -> lenBytes (Value x) < lenBytes (Value y) ->
      (IndexPointLessThan x y = true <-> Type_ x = "low"%string))
  /\ (c = 0 -> lenBytes (Value y) < lenBytes (Value x) ->
      (IndexPointLessThan x y = true <-> Type_ y = "high"%string)).
Proof.
  intros Hx Hy c. rewrite (lessThan_ordinary x y Hx Hy). fold c.
  split_and!.
  - intros Hc. by destruct (Z.ltb_spec c 0); [| lia].
  - intros Hc. destruct (Z.ltb_spec c 0); [lia |].
    by destruct (Z.eqb_spec c 0); [lia |].
  - intros -> Hlen. cbn [Z.ltb Z.eqb Z.compare].
    destruct (Z.eqb_spec (lenBytes (Value x)) (lenBytes (Value y))); [| lia].
    apply bool_decide_eq_true.
  - intros -> Hlen. cbn [Z.ltb Z.eqb Z.compare].
    destruct (Z.eqb_spec (lenBytes (Value x)) (lenBytes (Value y))); [lia |].
    destruct (Z.ltb_spec (lenBytes (Value x)) (lenBytes (Value y))); [| lia].
    apply bool_decide_eq_true.
  - intros -> Hlen. cbn [Z.ltb Z.eqb Z.compare].
    destruct (Z.eqb_spec (lenBytes (Value x)) (lenBytes (Value y))); [lia |].
    destruct (Z.ltb_spec (lenBytes (Value x)) (lenBytes (Value y))); [lia |].
    apply bool_decide_eq_true.
Qed.

End Order.

(** The order on raw keys: the low endpoint "ab" sorts before the
    longer "abc", and "abc" sorts before the high endpoint "ab". *)
Lemma IndexPointLessThan_order_witness :
  IndexPointLessThan (H := rawKeys) (mkPoint (key "ab") 0 "low")
                     (mkPoint (key "abc") 1 "low") = true
  /\ IndexPointLessThan (H := rawKeys) (mkPoint (key "abc") 1 "low")
                        (mkPoint (key "ab") 0 "high") = true.
Proof.
  split.
  - destruct (IndexPointLessThan_order (H := rawKeys)
                (mkPoint (key "ab") 0 "low") (mkPoint (key "abc") 1 "low"))
      as (_ & _ & _ & Hshorter & _).
    + split; discriminate.
    + split; discriminate.
    + apply Hshorter; reflexivity.
  - destruct (IndexPointLessThan_order (H := rawKeys)
                (mkPoint (key "abc") 1 "low") (mkPoint (key "ab") 0 "high"))
      as (_ & _ & _ & _ & Hlonger).
    + split; discriminate.
    + split; discriminate.
    + apply Hlonger; reflexivity.
Defined.

(** C9 (as stated) fails: points of equal value are not ordered by their
    length. The high endpoint "ab" is shorter than the point "abc" of
    equal value and sorts after it, so the shorter point is not always
    first; the low endpoint "ab" sorts before "abc", so the longer point
    is not always first either. *)
Lemma orderedByLength_fails : ~ orderedByLength (H := rawKeys).
Proof.
  intros [Hshort | Hlong].
  - destruct (Hshort (mkPoint (key "ab") 0 "high") (mkPoint (key "abc") 1 "low"))
      as [Hlt _]; [done | done | reflexivity | reflexivity |].
    vm_compute in Hlt. discriminate.
  - destruct (Hlong (mkPoint (key "ab") 0 "low") (mkPoint (key "abc") 1 "low"))
      as [Hlt _]; [done | done | reflexivity | reflexivity |].
    vm_compute in Hlt. discriminate.
Qed.

Section Inverted.
Context `{KeyOps}.
Variable r : ScanRequest.

Lemma wrapErr_ok {A} (p : string) (x : res A) (a : A) :
  x = Ok a -> wrapErr p x = Ok a.
Proof. by intros ->. Qed.

(** An inverted filter is bounded on one side at least. *)
Lemma inverted_not_nil (fl : ProtoFilter) :
  inverted r fl -> isNil r (pf_Low fl) && isNil r (pf_High fl) = false.
Proof.
  intros (l & h & Hl & Hh & Hlt).
  unfold newLowKey, newHighKey in *.
  destruct (isNil r (pf_Low fl)); [| done].
  destruct (isNil r (pf_High fl)); [| done].
  by simplify_eq.
Qed.

Lemma inverted_areFiltersNil (sc : ProtoScan) (fl : ProtoFilter) :
  fl ∈ ps_Filters sc -> inverted r fl -> areFiltersNil r sc = false.
Proof.
  intros Hin Hinv. unfold areFiltersNil.
  apply not_true_is_false. intros Hall.
  rewrite forallb_forall in Hall.
  apply list_elem_of_In in Hin. specialize (Hall _ Hin).
  by rewrite (inverted_not_nil fl Hinv) in Hall.
Qed.

(** Encoding the filters of a scan stops at the first inverted one. *)
Lemma encodeFilters_inverted (good rest : list ProtoFilter) (fl : ProtoFilter)
    (acc : list CompositeElementFilter) :
  Forall (encodes r) good -> inverted r fl ->
  encodeFilters r (good ++ fl :: rest) acc = Ok None.
Proof.
  intros Hgood (l & h & Hl & Hh & Hlt). revert acc.
  induction Hgood as [| g good (gl & gh & Hgl & Hgh) _ IH]; intros acc; simpl.
  - rewrite (wrapErr_ok _ _ _ Hl), (wrapErr_ok _ _ _ Hh). simpl.
    by rewrite Hlt.
  - rewrite (wrapErr_ok _ _ _ Hgl), (wrapErr_ok _ _ _ Hgh). simpl.
    destruct (IndexKeyLessThan gh gl); [done | apply IH].
Qed.

Lemma secondaryLoop_skip (sc : ProtoScan) (post : list ProtoScan)
    (filters : list Filter) (points : list IndexPoint) :
  ps_Equals sc = [] -> areFiltersNil r sc = false ->
  encodeFilters r (ps_Filters sc) [] = Ok None ->
  secondaryLoop r (sc :: post) filters points
  = secondaryLoop r post filters points.
Proof.
  intros Heq Hnil Henc. cbn [secondaryLoop]. rewrite Heq, Hnil.
  destruct (ps_Filters sc) eqn:Hfl; [done |].
  by rewrite Henc.
Qed.

(** A scan that the loop skips in every state can be taken out of the
    request. *)
Lemma secondaryLoop_drop (pre post : list ProtoScan) (sc : ProtoScan) :
  (forall filters points,
     secondaryLoop r (sc :: post) filters points
     = secondaryLoop r post filters points) ->
  forall filters points,
    secondaryLoop r (pre ++ sc :: post) filters points
    = secondaryLoop r (pre ++ post) filters points.
Proof.
  intros Hskip.
  induction pre as [| a pre IH]; intros filters points; [apply Hskip |].
  cbn [app secondaryLoop].
  destruct (ps_Equals a).
  - destruct (ps_Filters a); [done |].
    destruct (areFiltersNil r a); [done |].
    destruct (encodeFilters r _ []) as [[cfs |] | |]; simpl; try done.
    destruct (fillFilterLowHigh r cfs) as [[lo hi] | |]; simpl; try done.
  - destruct (fillFilterEquals r a); simpl; done.
Qed.

Lemma getEmptyScan_emptyRange (e : Scan) :
  getEmptyScan r = Ok e -> emptyRange e.
Proof.
  unfold getEmptyScan, emptyRange.
  destruct (newKey r (Some [])); intros; simplify_eq; done.
Qed.

(** C10 (as amended). An element filter whose high key is strictly less
    than its low key is not an error. On a primary index, when it is
    the first filter of a scan without equals, the scan adds the
    empty-range scan (low = high = the key of the empty string,
    inclusion Neither) and planning goes on with the next scan. On a
    secondary index, when the scan has no equals and the filters before
    it encode, the whole scan is skipped: the plan of the request is
    the plan of the request without this scan. *)
Theorem inverted_filter_plan (fl : ProtoFilter) :
  inverted r fl ->
  (forall rest post filters points scans e,
     getEmptyScan r = Ok e ->
     primaryLoop r (mkProtoScan (fl :: rest) [] :: post) filters points scans
     = primaryLoop r post filters points (scans ++ [e])
     /\ emptyRange e)
  /\ (forall good rest pre post filters points,
       Forall (encodes r) good ->
       secondaryLoop r (pre ++ mkProtoScan (good ++ fl :: rest) [] :: post)
                     filters points
       = secondaryLoop r (pre ++ post) filters points)
  /\ (forall good rest pre post,
       isPrimary r = false -> Forall (encodes r) good -> pre ++ post <> [] ->
       fillScans r (pre ++ mkProtoScan (good ++ fl :: rest) [] :: post)
       = fillScans r (pre ++ post)).
Proof.
  intros Hinv.
  assert (Hsec : forall good rest pre post filters points,
             Forall (encodes r) good ->
             secondaryLoop r
               (pre ++ mkProtoScan (good ++ fl :: rest) [] :: post)
               filters points
             = secondaryLoop r (pre ++ post) filters points).
  { intros good rest pre post filters points Hgood.
    apply secondaryLoop_drop. intros fs pts.
    apply secondaryLoop_skip; [done | |].
    - apply (inverted_areFiltersNil _ fl); [| done].
      cbn. apply elem_of_app. right. apply elem_of_cons. by left.
    - by apply encodeFilters_inverted. }
  split_and!; [| exact Hsec |].
  - intros rest post filters points scans e He.
    split; [| by apply getEmptyScan_emptyRange].
    pose proof (inverted_areFiltersNil (mkProtoScan (fl :: rest) []) fl) as Hnil.
    destruct Hinv as (l & h & Hl & Hh & Hlt).
    cbn [primaryLoop ps_Equals ps_Filters].
    rewrite Hnil; [| cbn; apply elem_of_cons; by left | by exists l, h].
    rewrite (wrapErr_ok _ _ _ Hl), (wrapErr_ok _ _ _ Hh). simpl.
    by rewrite Hlt, He.
  - intros good rest pre post Hsecondary Hgood Hne.
    unfold fillScans. rewrite Hsecondary.
    rewrite (Hsec good rest pre post [] [] Hgood).
    destruct pre; [destruct post; [done |] |]; done.
Qed.

End Inverted.

(** On raw keys: the filter from "b" down to "a" is inverted; on the
    primary index the scan it leads adds the empty-range scan, on the
    secondary index the scan is dropped from the request. *)
Lemma inverted_filter_plan_witness :
  let fl := mkProtoFilter (wire "b") (wire "a") Both in
  let other := mkProtoScan [mkProtoFilter (wire "c") (wire "d") Both] [] in
  inverted (H := rawKeys) secondaryRequest fl
  /\ fillScans (H := rawKeys) secondaryRequest [mkProtoScan [fl] []; other]
     = fillScans (H := rawKeys) secondaryRequest [other].
Proof.
  intros fl other.
  assert (Hinv : inverted (H := rawKeys) secondaryRequest fl).
  { exists (key "b"), (key "a"). by vm_compute. }
  split; [exact Hinv |].
  destruct (inverted_filter_plan (H := rawKeys) secondaryRequest fl Hinv)
    as (_ & _ & Hdrop).
  apply (Hdrop [] [] [] [other]); [reflexivity | constructor | discriminate].
Defined.

(** C10 (as stated) fails. Each request below holds the inverted filter
    from "b" down to "a". On the primary index the filter is not looked
    at when it is not the first of its scan, and the plan has no
    empty-range scan; on the secondary index a scan with equals is
    planned as a lookup and not dropped; and planning returns an error
    when another key of the request does not encode. *)
Lemma inverted_filter_counterexample :
  let fl := mkProtoFilter (wire "b") (wire "a") Both in
  let ab := mkProtoFilter (wire "a") (wire "b") Both in
  inverted (H := rawKeys) primaryRequest fl
  /\ inverted (H := rawKeys) secondaryRequest fl
  /\ fillScans (H := rawKeys) primaryRequest [mkProtoScan [ab; fl] []]
     = Ok [mkScan (primaryKey (list_byte_of_string "a"))
                  (primaryKey (list_byte_of_string "b")) Both RangeReq []
                  nilKey]
  /\ (exists sc, fillScans (H := rawKeys) secondaryRequest
                   [mkProtoScan [fl] [wire "x"]] = Ok [sc]
                 /\ s_ScanType sc = LookupReq /\ s_Equals sc = key "x")
  /\ fillScans (H := rawKeys) secondaryRequest
       [mkProtoScan [fl] []; mkProtoScan [] [None]]
     = Err "Invalid equal key Key is null".
Proof.
  intros fl ab. split_and!.
  - exists (primaryKey (list_byte_of_string "b")),
           (primaryKey (list_byte_of_string "a")). by vm_compute.
  - exists (key "b"), (key "a"). by vm_compute.
  - by vm_compute.
  - eexists. split; [by vm_compute |]. by vm_compute.
  - by vm_compute.
Qed.

End PlannerProofs.

(** ** Storage manager *)

Module StorageProofs.
Import Storage.

Section Mgr.
Context {S : Type} `{SliceOps S} `{Env}.
Implicit Type m : storageMgr S.

(** *** Publishing *)

Lemma notifySnapshotCreation_fields m isnap :
  let m' := notifySnapshotCreation m isnap in
  indexInstMap m' = indexInstMap m /\ indexPartnMap m' = indexPartnMap m
  /\ indexSnapMap m' = indexSnapMap m /\ waitersMap m' = waitersMap m
  /\ waiterCh m' = waiterCh m /\ supvCmdch m' = supvCmdch m
  /\ numVbuckets m' = numVbuckets m.
Proof. unfold notifySnapshotCreation. by destruct (_ =? 0). Qed.

Lemma notifySnapshotCreation_logs m isnap :
  exists extra, logs (notifySnapshotCreation m isnap) = logs m ++ extra
    /\ Forall (fun e => exists i c, e = ErrNotifySnapshot i c) extra.
Proof.
  unfold notifySnapshotCreation. destruct (_ =? 0); cbn.
  - eexists. split; [done |]. repeat constructor. by eexists _, _.
  - exists []. by rewrite app_nil_r.
Qed.

(** Installing a snapshot touches the snapshot map at the instance and
    the reference counts only. *)
Lemma installSnapshot_Some m isnap now m2 :
  installSnapshot m isnap now = Some m2 ->
  (exists snapC,
     indexSnapMap m2 = <[is_instId isnap := snapC]> (indexSnapMap m)
     /\ snap snapC = Some isnap)
  /\ indexInstMap m2 = indexInstMap m /\ indexPartnMap m2 = indexPartnMap m
  /\ waitersMap m2 = waitersMap m /\ waiterCh m2 = waiterCh m
  /\ snapshotNotifych m2 = snapshotNotifych m
  /\ supvCmdch m2 = supvCmdch m /\ logs m2 = logs m.
Proof.
  unfold installSnapshot, initSnapshotContainerForInst.
  destruct (indexSnapMap m !! is_instId isnap) as [snapC |] eqn:HsnapC.
  - cbn [negb]. rewrite ?HsnapC. intros [= <-]. cbn. split_and!; try done.
    by eexists.
  - destruct (indexInstMap m !! is_instId isnap) as [inst |]; [| done].
    destruct (decide (State inst = INDEX_STATE_DELETED)); [done |].
    rewrite ?HsnapC. cbn [negb]. intros [= <-]. cbn. split_and!; try done.
    by eexists.
Qed.

Lemma installSnapshot_None m isnap now :
  installSnapshot m isnap now = None ->
  indexSnapMap m !! is_instId isnap = None.
Proof.
  unfold installSnapshot, initSnapshotContainerForInst.
  destruct (indexSnapMap m !! is_instId isnap) as [snapC |] eqn:HsnapC; [| done].
  cbn [negb]. by rewrite ?HsnapC.
Qed.

(** Walking the waiters touches the waiters map, the reply channels and
    the reference counts only. *)
Lemma drainWaiters_fields m isnap now :
  let m' := drainWaiters m isnap now in
  indexInstMap m' = indexInstMap m /\ indexPartnMap m' = indexPartnMap m
  /\ indexSnapMap m' = indexSnapMap m
  /\ snapshotNotifych m' = snapshotNotifych m
  /\ supvCmdch m' = supvCmdch m /\ logs m' = logs m.
Proof.
  unfold drainWaiters, initSnapshotWaitersForInst.
  destruct (waitersMap m !! is_instId isnap).
  - cbn [negb]. by destruct (notifyWaiters _ _ _ _ _ _) as [[? ?] ?].
  - destruct (indexInstMap m !! is_instId isnap) as [inst |]; [| done].
    destruct (decide (State inst = INDEX_STATE_DELETED)); [done |].
    cbn [negb]. by destruct (notifyWaiters _ _ _ _ _ _) as [[? ?] ?].
Qed.

(** What publishing does to the snapshot map: the entry of the instance
    holds the new snapshot, or the instance is unknown or deleted and
    nothing is published. *)
Lemma updateSnapMapAndNotify_snapMap m isnap now :
  let m' := updateSnapMapAndNotify m isnap now in
  (m' = m /\ indexSnapMap m !! is_instId isnap = None)
  \/ (exists snapC,
        indexSnapMap m' = <[is_instId isnap := snapC]> (indexSnapMap m)
        /\ snap snapC = Some isnap).
Proof.
  unfold updateSnapMapAndNotify.
  destruct (installSnapshot m isnap now) as [m2 |] eqn:Hinst.
  - right. apply installSnapshot_Some in Hinst as ((snapC & Hs & Hsnap) & _).
    exists snapC. split; [| done].
    destruct (drainWaiters_fields (notifySnapshotCreation m2 isnap) isnap now)
      as (_ & _ & -> & _).
    by destruct (notifySnapshotCreation_fields m2 isnap) as (_ & _ & -> & _).
  - left. split; [done |]. by eapply installSnapshot_None.
Qed.

Lemma updateSnapMapAndNotify_logs m isnap now :
  exists extra, logs (updateSnapMapAndNotify m isnap now) = logs m ++ extra
    /\ Forall (fun e => exists i c, e = ErrNotifySnapshot i c) extra.
Proof.
  unfold updateSnapMapAndNotify.
  destruct (installSnapshot m isnap now) as [m2 |] eqn:Hinst.
  - apply installSnapshot_Some in Hinst as (_ & _ & _ & _ & _ & _ & _ & Hl).
    destruct (drainWaiters_fields (notifySnapshotCreation m2 isnap) isnap now)
      as (_ & _ & _ & _ & _ & ->).
    rewrite <- Hl. apply notifySnapshotCreation_logs.
  - exists []. by rewrite app_nil_r.
Qed.

Lemma updateSnapMapAndNotify_fields m isnap now :
  let m' := updateSnapMapAndNotify m isnap now in
  indexInstMap m' = indexInstMap m /\ indexPartnMap m' = indexPartnMap m
  /\ supvCmdch m' = supvCmdch m.
Proof.
  unfold updateSnapMapAndNotify.
  destruct (installSnapshot m isnap now) as [m2 |] eqn:Hinst; [| done].
  apply installSnapshot_Some in Hinst as (_ & Hi & Hp & _ & _ & _ & Hc & _).
  destruct (drainWaiters_fields (notifySnapshotCreation m2 isnap) isnap now)
    as (-> & -> & _ & _ & -> & _).
  destruct (notifySnapshotCreation_fields m2 isnap)
    as (-> & -> & _ & _ & _ & -> & _).
  done.
Qed.

(** *** Waiters *)

Lemma outcomeOf_cases (t : Z) (isnap : indexSnapshot) (w : snapshotWaiter) :
  (outcomeOf t isnap w = TimedOut <-> expired w <> 0 /\ expired w < t)
  /\ (outcomeOf t isnap w = Notified
      <-> ~ (expired w <> 0 /\ expired w < t)
          /\ isSnapshotConsistent isnap (w_cons w) (w_ts w) = true)
  /\ (outcomeOf t isnap w = Kept
      <-> ~ (expired w <> 0 /\ expired w < t)
          /\ isSnapshotConsistent isnap (w_cons w) (w_ts w) = false).
Proof.
  unfold outcomeOf, isExpired.
  destruct (Z.eqb_spec (expired w) 0), (Z.ltb_spec (expired w) t),
    (isSnapshotConsistent isnap (w_cons w) (w_ts w));
    simpl; split_and!; split; try done; try lia; intros [? ?]; try done; try lia.
Qed.

(** The loop over the waiters as a map and a filter. *)
Lemma notifyWaiters_walk (t : Z) (isnap : indexSnapshot)
    (ws : list snapshotWaiter) (refs : Refs) (sent : list (Z * Reply))
    (kept : list snapshotWaiter) :
  notifyWaiters t isnap ws refs sent kept
  = (Nat.iter (length (filter (fun w => outcomeOf t isnap w = Notified) ws))
              (CloneIndexSnapshot (Some isnap)) refs,
     sent ++ omap (fun w => replyOf isnap w (outcomeOf t isnap w)) ws,
     kept ++ filter (fun w => outcomeOf t isnap w = Kept) ws).
Proof.
  revert refs sent kept.
  induction ws as [| w ws IH]; intros refs sent kept.
  - simpl. by rewrite !app_nil_r.
  - cbn [notifyWaiters]. rewrite !filter_cons. cbn [omap list_omap].
    destruct (isExpired t w) eqn:He.
    + assert (outcomeOf t isnap w = TimedOut) as ->
        by (unfold outcomeOf; by rewrite He).
      rewrite IH. simpl. by rewrite <- !app_assoc.
    + destruct (isSnapshotConsistent isnap (w_cons w) (w_ts w)) eqn:Hc.
      * assert (outcomeOf t isnap w = Notified) as ->
          by (unfold outcomeOf; by rewrite He, Hc).
        rewrite IH. simpl. rewrite <- !app_assoc. simpl.
        by rewrite <- Nat.iter_succ_r.
      * assert (outcomeOf t isnap w = Kept) as ->
          by (unfold outcomeOf; by rewrite He, Hc).
        rewrite IH. simpl. by rewrite <- !app_assoc.
Qed.

(** C7. When a snapshot is published for an instance that has a
    container and a waiter list, the list is walked once and every
    waiter gets exactly one of three outcomes: past its deadline it is
    sent [ErrScanTimedOut] and removed; otherwise, if the snapshot
    satisfies its consistency predicate, it is sent the snapshot, cloned
    once for it, and removed; otherwise it is kept. *)
Theorem waiters_walked m (isnap : indexSnapshot) (now : Z)
    (snapC : IndexSnapshotContainer) (ws : list snapshotWaiter) :
  indexSnapMap m !! is_instId isnap = Some snapC ->
  waitersMap m !! is_instId isnap = Some ws ->
  let m' := updateSnapMapAndNotify m isnap now in
  waiterCh m'
  = waiterCh m ++ omap (fun w => replyOf isnap w (outcomeOf now isnap w)) ws
  /\ waitersMap m' !! is_instId isnap
     = Some (filter (fun w => outcomeOf now isnap w = Kept) ws)
  /\ (forall w,
        (outcomeOf now isnap w = TimedOut
         <-> expired w <> 0 /\ expired w < now)
        /\ (outcomeOf now isnap w = Notified
            <-> ~ (expired w <> 0 /\ expired w < now)
                /\ isSnapshotConsistent isnap (w_cons w) (w_ts w) = true)
        /\ (outcomeOf now isnap w = Kept
            <-> ~ (expired w <> 0 /\ expired w < now)
                /\ isSnapshotConsistent isnap (w_cons w) (w_ts w) = false))
  /\ (forall refs,
        (notifyWaiters now isnap ws refs [] []).1.1
        = Nat.iter
            (length (filter (fun w => outcomeOf now isnap w = Notified) ws))
            (CloneIndexSnapshot (Some isnap)) refs).
Proof.
  intros HsnapC Hws m'.
  assert (Hrun : exists m3,
             waiterCh m3 = waiterCh m /\ waitersMap m3 = waitersMap m
             /\ m' = setWaitersMap
                       (sendWaiters
                          (setRefs m3
                             (notifyWaiters now isnap ws (refs m3) [] []).1.1)
                          (notifyWaiters now isnap ws (refs m3) [] []).1.2)
                       (<[is_instId isnap :=
                            (notifyWaiters now isnap ws (refs m3) [] []).2]>
                          (waitersMap m3))).
  { subst m'. unfold updateSnapMapAndNotify.
    destruct (installSnapshot m isnap now) as [m2 |] eqn:Hinst.
    2:{ apply installSnapshot_None in Hinst. by rewrite HsnapC in Hinst. }
    apply installSnapshot_Some in Hinst as (_ & _ & _ & Hw2 & Hch2 & _).
    destruct (notifySnapshotCreation_fields m2 isnap)
      as (_ & _ & _ & Hw & Hch & _).
    exists (notifySnapshotCreation m2 isnap).
    split_and!; [by rewrite Hch | by rewrite Hw |].
    assert (Hws3 : waitersMap (notifySnapshotCreation m2 isnap)
                   !! is_instId isnap = Some ws) by (by rewrite Hw, Hw2).
    unfold drainWaiters. rewrite Hws3. cbn [negb]. rewrite Hws3. cbn [default].
    by destruct (notifyWaiters _ _ _ _ _ _) as [[? ?] ?]. }
  destruct Hrun as (m3 & Hch & Hw & ->).
  rewrite !notifyWaiters_walk. split_and!.
  - cbn. by rewrite Hch.
  - cbn. by rewrite lookup_insert_eq.
  - intros w. apply outcomeOf_cases.
  - intros refs. by rewrite notifyWaiters_walk.
Qed.

(** *** The loops of snapshot creation *)

Lemma grows_refl c : grows c c.
Proof.
  exists []. rewrite app_nil_r. split_and!; [done | done |].
  by rewrite andb_true_r.
Qed.

Lemma grows_trans c1 c2 c3 : grows c1 c2 -> grows c2 c3 -> grows c1 c3.
Proof.
  intros (n1 & Hl1 & Hf1 & Hs1) (n2 & Hl2 & Hf2 & Hs2).
  exists (n1 ++ n2). split_and!.
  - by rewrite Hl2, Hl1, app_assoc.
  - by apply Forall_app.
  - rewrite Hs2, Hs1, <- andb_assoc. f_equal.
    destruct n1, n2; done.
Qed.

Lemma grows_quiet c refs' hasNew nc :
  grows c (mkCreation refs' (c_logs c) (isSnapCreated c) hasNew nc).
Proof.
  exists []. cbn. rewrite app_nil_r. split_and!; [done | done |].
  by rewrite andb_true_r.
Qed.

Lemma grows_error c refs' e hasNew nc :
  creationErr e ->
  grows c (mkCreation refs' (c_logs c ++ [e]) false hasNew nc).
Proof.
  intros He. exists [e]. cbn. split_and!; [done | by constructor |].
  by rewrite andb_false_r.
Qed.

Lemma snapshotSlice_grows numVb idxInstId ts hasAllSB aborted forceCommit
    lastPartnSnap c sliceSnaps slice :
  let r := snapshotSlice numVb idxInstId ts hasAllSB aborted forceCommit
                         lastPartnSnap c sliceSnaps slice in
  grows c (endState r)
  /\ (isReturned r = true -> aborted = true /\ endState r = c)
  /\ (aborted = true -> isReturned r = true).
Proof.
  unfold snapshotSlice. destruct aborted.
  { cbn. split_and!; [apply grows_refl | done | done]. }
  destruct (latestOf lastPartnSnap (Id slice)) as [latest | e | e];
    [| cbn; split_and!; [apply grows_refl | done | done] ..].
  destruct (needNewSnapshot _ _ _ _ _ _).
  - destruct (NewSnapshot _ ts _) as [slice1 [info | err | cause]].
    + destruct (OpenSnapshot slice1 info (c_refs c))
        as [[slice2 refs'] [sn | err | cause]].
      * cbn. split_and!; [apply grows_quiet | done | done].
      * destruct (CrashOnError err); cbn;
          (split_and!; [apply grows_error; by eexists _, _; right | done | done]).
      * cbn. split_and!; [apply grows_quiet | done | done].
    + destruct (CrashOnError err); cbn;
        (split_and!; [apply grows_error; by eexists _, _; left | done | done]).
    + cbn. split_and!; [apply grows_quiet | done | done].
  - destruct latest; cbn;
      (split_and!; [first [apply grows_quiet | apply grows_refl] | done | done]).
Qed.

Lemma snapshotSlices_grows numVb idxInstId ts hasAllSB aborted forceCommit
    lastPartnSnap c sliceSnaps done todo :
  let r := snapshotSlices numVb idxInstId ts hasAllSB aborted forceCommit
                          lastPartnSnap c sliceSnaps done todo in
  grows c (endState r)
  /\ (isReturned r = true -> aborted = true)
  /\ (aborted = true -> endState r = c).
Proof.
  revert c sliceSnaps done.
  induction todo as [| slice rest IH]; intros c sliceSnaps done; cbn zeta.
  { cbn. split_and!; [apply grows_refl | done | done]. }
  cbn [snapshotSlices].
  pose proof (snapshotSlice_grows numVb idxInstId ts hasAllSB aborted
                forceCommit lastPartnSnap c sliceSnaps slice) as (Hg & Hr & Ha).
  destruct (snapshotSlice _ _ _ _ _ _ _ _ _ _)
    as [[[c' ss'] sl'] | [[c' ss'] sl'] | [[c' ss'] sl'] cause].
  - cbn in Hg. destruct (IH c' ss' (done ++ [sl'])) as (Hg' & Hr' & Ha').
    split_and!; [by eapply grows_trans | done |].
    intros ->. by specialize (Ha eq_refl).
  - cbn in *. split_and!; [done | | ]; intros; by apply Hr.
  - cbn in *. split_and!; [done | done |]. intros ->. by specialize (Ha eq_refl).
Qed.

Lemma snapshotPartitions_grows numVb idxInstId ts hasAllSB aborted forceCommit
    lastIndexSnap c partnSnaps done todo :
  let r := snapshotPartitions numVb idxInstId ts hasAllSB aborted forceCommit
                              lastIndexSnap c partnSnaps done todo in
  grows c (endState r)
  /\ (isReturned r = true -> aborted = true)
  /\ (aborted = true -> endState r = c).
Proof.
  revert c partnSnaps done.
  induction todo as [| p rest IH]; intros c partnSnaps done; cbn zeta.
  { cbn. split_and!; [apply grows_refl | done | done]. }
  cbn [snapshotPartitions].
  pose proof (snapshotSlices_grows numVb idxInstId ts hasAllSB aborted
                forceCommit (lastPartnSnapOf lastIndexSnap (PartitionId p))
                c ∅ [] (slices p)) as (Hg & Hr & Ha).
  destruct (snapshotSlices _ _ _ _ _ _ _ _ _ _ _)
    as [[[c' ss'] sl'] | [[c' ss'] sl'] | [[c' ss'] sl'] cause].
  - cbn in Hg, Ha.
    destruct (IH c' (<[PartitionId p := mkPartnSnap (PartitionId p) ss']> partnSnaps)
                 (done ++ [mkPartnInst (PartitionId p) sl'])) as (Hg' & Hr' & Ha').
    split_and!; [by eapply grows_trans | done |].
    intros Hab. rewrite (Ha' Hab). by apply Ha.
  - cbn in *. split_and!; [done | done | done].
  - cbn in *. split_and!; [done | done | done].
Qed.


Lemma storePartnMap_fields m id pm :
  let m' := storePartnMap m id pm in
  indexInstMap m' = indexInstMap m /\ indexSnapMap m' = indexSnapMap m
  /\ waitersMap m' = waitersMap m /\ waiterCh m' = waiterCh m
  /\ snapshotNotifych m' = snapshotNotifych m /\ supvCmdch m' = supvCmdch m
  /\ supvRespch m' = supvRespch m
  /\ logs m' = logs m /\ refs m' = refs m /\ numVbuckets m' = numVbuckets m
  /\ instLists m' = instLists m.
Proof. unfold storePartnMap. by destruct (indexPartnMap m !! id). Qed.

(** The three ways in which [createSnapshotForIndex] ends. *)
Lemma createSnapshotForIndex_cases m streamId keyspaceId idxInstId ts
    hasAllSB aborted needsCommit forceCommit now :
  let out := createSnapshotForIndex m streamId keyspaceId idxInstId ts
               hasAllSB aborted needsCommit forceCommit now in
  let m' := stateOf out in
  (* nothing is built: the instance is skipped, the flush was aborted, or
     the process panics *)
  (indexSnapMap m' = indexSnapMap m /\ waitersMap m' = waitersMap m
   /\ waiterCh m' = waiterCh m /\ snapshotNotifych m' = snapshotNotifych m
   /\ (exists new, logs m' = logs m ++ new /\ Forall creationErr new
                   /\ ((exists m1, out = Finished m1) -> new = [])))
  (* the snapshot is built and destroyed *)
  \/ (exists snapC c partnSnaps,
        indexSnapMap m !! idxInstId = Some snapC
        /\ isSnapCreated c = false
        /\ out = Finished m'
        /\ indexSnapMap m' = indexSnapMap m /\ waitersMap m' = waitersMap m
        /\ waiterCh m' = waiterCh m
        /\ snapshotNotifych m' = snapshotNotifych m
        /\ logs m' = logs m ++ c_logs c
        /\ Forall creationErr (c_logs c) /\ c_logs c <> []
        /\ refs m'
           = DestroyIndexSnapshot (snap snapC)
               (DestroyIndexSnapshot
                  (Some (mkIndexSnap idxInstId (Some ts) partnSnaps false now))
                  (c_refs c)))
  (* the snapshot is built and published *)
  \/ (exists snapC partnSnaps,
        out = Finished m'
        /\ indexSnapMap m' = <[idxInstId := snapC]> (indexSnapMap m)
        /\ snap snapC
           = Some (mkIndexSnap idxInstId (Some ts) partnSnaps false now)
        /\ exists extra, logs m' = logs m ++ extra /\ Forall notifyLog extra).
Proof.
  unfold createSnapshotForIndex.
  destruct (instMatches m streamId keyspaceId idxInstId).
  2:{ left. cbn. split_and!; try done. exists []. by rewrite app_nil_r. }
  cbn [negb].
  destruct (indexSnapMap m !! idxInstId) as [snapC |] eqn:HsnapC.
  2:{ left. cbn. split_and!; try done. exists [].
      rewrite app_nil_r. split_and!; try done. }
  set (c0 := mkCreation _ [] true false needsCommit).
  set (lastWithPartns := match snap snapC with Some _ => _ | None => None end).
  pose proof (snapshotPartitions_grows (numVbuckets m) idxInstId ts hasAllSB
                aborted forceCommit lastWithPartns c0 ∅ []
                (default [] (indexPartnMap m !! idxInstId)))
    as ((new & Hlogs & Hnew & Hcreated) & Hret & Hab).
  destruct (snapshotPartitions _ _ _ _ _ _ _ _ _ _ _)
    as [[[c ps] pm'] | [[c ps] pm'] | [[c ps] pm'] cause];
    cbn [endState isReturned] in *.
  - (* the loop completes *)
    destruct (storePartnMap_fields m idxInstId pm')
      as (Hi & Hs & Hw & Hch & Hn & Hcmd & _ & Hl & Hr & _).
    destruct (isSnapCreated c) eqn:Hc.
    + right. right.
      assert (new = []) as ->.
      { destruct new; [done |]. by rewrite andb_false_r in Hcreated. }
      rewrite app_nil_r in Hlogs. cbn in Hlogs.
      set (isnap := mkIndexSnap idxInstId (Some ts) ps false now).
      set (m1 := addLogs _ _).
      pose proof (updateSnapMapAndNotify_snapMap m1 isnap now) as Hpub.
      pose proof (updateSnapMapAndNotify_logs m1 isnap now)
        as (extra & Hextra & Hfx).
      destruct Hpub as [[_ Hnone] | (snapC' & Hmap & Hsnap)].
      { exfalso. subst m1. cbn in Hnone. rewrite Hs in Hnone.
        cbn in Hnone. by rewrite HsnapC in Hnone. }
      exists snapC', ps. cbn [stateOf]. split_and!; [done | | done |].
      * cbn [indexSnapMap setRefs]. rewrite Hmap. subst m1. cbn.
        by rewrite Hs.
      * exists extra. split; [| done]. cbn [logs setRefs]. rewrite Hextra.
        subst m1. cbn. by rewrite Hl, Hlogs, app_nil_r.
    + right. left. exists snapC, c, ps. cbn.
      rewrite Hs, Hw, Hch, Hn, Hl. split_and!; try done.
      * rewrite Hlogs. done.
      * intros Hnil. rewrite Hnil in Hlogs. cbn in Hlogs.
        destruct new; [| done]. by rewrite andb_true_r in Hcreated.
  - (* the flush was aborted *)
    left. destruct (storePartnMap_fields m idxInstId pm')
      as (Hi & Hs & Hw & Hch & Hn & Hcmd & _ & Hl & Hr & _).
    rewrite (Hab (Hret eq_refl)). cbn.
    rewrite Hs, Hw, Hch, Hn, Hl. split_and!; try done.
    exists []. by rewrite app_nil_r.
  - (* the process panics *)
    left. destruct (storePartnMap_fields m idxInstId pm')
      as (Hi & Hs & Hw & Hch & Hn & Hcmd & _ & Hl & Hr & _).
    cbn. rewrite Hs, Hw, Hch, Hn, Hl. split_and!; try done.
    exists new. rewrite Hlogs. split_and!; try done.
    by intros (? & ?).
Qed.


(** The flags of a flush that needs a commit. *)
Lemma commitFlags_disk (t : SnapType) :
  t = DISK_SNAP \/ t = DISK_SNAP_OSO -> commitFlags t = (true, false).
Proof. by intros [-> | ->]. Qed.

Lemma refcount_Open (s : Snapshot) (refs : Refs) :
  refcount (Open s refs) (snap_addr s) = refcount refs (snap_addr s) + 1.
Proof. unfold refcount at 1, Open. by rewrite lookup_insert_eq. Qed.

(** C1 (as amended). For a flush that was not aborted, with snapshot
    type Disk or DiskOso, and a slice that has a prior snapshot: a new
    storage snapshot is created exactly when the sequence numbers of the
    flush timestamp are pointwise at least those of the prior snapshot
    with one strictly greater, whether the slice is dirty or not;
    otherwise the prior slice snapshot is reused and its reference count
    goes up by one. *)
Theorem disk_flush_decision numVb idxInstId ts (hasAllSB : bool) lastPartnSnap
    (c : creation) sliceSnaps (slice : S) (latest : Snapshot) :
  GetSnapType ts = DISK_SNAP \/ GetSnapType ts = DISK_SNAP_OSO ->
  (needsCommit c, false) = commitFlags (GetSnapType ts) ->
  latestOf lastPartnSnap (Id slice) = Ok (Some latest) ->
  let slice0 := if hasAllSB then SetLastRollbackTs slice None else slice in
  let newer := GreaterThan (Seqnos ts) (Seqnos (snap_Timestamp latest)) in
  let r := snapshotSlice numVb idxInstId ts hasAllSB false false
                         lastPartnSnap c sliceSnaps slice in
  needNewSnapshot (Some latest) (IsDirty slice0) (needsCommit c) false
                  (Seqnos ts) (Seqnos (snap_Timestamp latest)) = newer
  /\ (newer = false ->
      r = Next (mkCreation (Open latest (c_refs c)) (c_logs c)
                           (isSnapCreated c) (hasNewSnapshot c) (needsCommit c),
                <[Id slice := mkSliceSnap (Id slice) latest]> sliceSnaps,
                slice0)
      /\ refcount (Open latest (c_refs c)) (snap_addr latest)
         = refcount (c_refs c) (snap_addr latest) + 1)
  /\ (newer = true ->
      forall s1 info s2 refs2 newSnapshot,
        NewSnapshot (FlushDone slice0) ts true = (s1, Ok info) ->
        OpenSnapshot s1 info (c_refs c) = (s2, refs2, Ok newSnapshot) ->
        r = Next (mkCreation refs2 (c_logs c) (isSnapCreated c) true true,
                  <[Id slice := mkSliceSnap (Id slice) newSnapshot]> sliceSnaps,
                  s2)).
Proof.
  intros Hdisk Hflags Hlatest slice0 newer r.
  rewrite (commitFlags_disk _ Hdisk) in Hflags.
  injection Hflags as Hnc.
  assert (Hneed : needNewSnapshot (Some latest) (IsDirty slice0) (needsCommit c)
                    false (Seqnos ts) (Seqnos (snap_Timestamp latest)) = newer).
  { unfold needNewSnapshot. rewrite Hnc. cbn.
    rewrite orb_true_r. cbn. by rewrite orb_false_r. }
  split_and!; [done | |].
  - intros Hnewer. split; [| apply refcount_Open].
    subst r. unfold snapshotSlice. rewrite Hlatest. fold slice0.
    by rewrite Hneed, Hnewer.
  - intros Hnewer s1 info s2 refs2 newSnapshot Hnew Hopen.
    subst r. unfold snapshotSlice. rewrite Hlatest. fold slice0.
    rewrite Hneed, Hnewer. rewrite Hnc. cbn [negb]. rewrite Hnew, Hopen.
    done.
Qed.

(** What [snapshotSlice] does with an error of [NewSnapshot] or of
    [OpenSnapshot]. *)
Lemma snapshotSlice_error numVb idxInstId ts (hasAllSB forceCommit : bool)
    lastPartnSnap
    (c : creation) sliceSnaps (slice : S) (latest : option Snapshot)
    (err : Error) :
  latestOf lastPartnSnap (Id slice) = Ok latest ->
  let slice0 := if hasAllSB then SetLastRollbackTs slice None else slice in
  let snapTs := match latest with
                | Some l => Seqnos (snap_Timestamp l)
                | None => NewTimestamp numVb
                end in
  needNewSnapshot latest (IsDirty slice0) (needsCommit c) forceCommit
                  (Seqnos ts) snapTs = true ->
  let commit := if forceCommit then forceCommit else needsCommit c in
  let r := snapshotSlice numVb idxInstId ts hasAllSB false forceCommit
                         lastPartnSnap c sliceSnaps slice in
  (forall s1,
     NewSnapshot (FlushDone slice0) ts commit = (s1, Err err) ->
     let c' := mkCreation (c_refs c)
                          (c_logs c ++ [ErrNewSnapshot (Id slice) err])
                          false (hasNewSnapshot c) commit in
     r = if CrashOnError err then Crash (c', sliceSnaps, s1) err
         else Next (c', sliceSnaps, s1))
  /\ (forall s1 info s2 refs2,
        NewSnapshot (FlushDone slice0) ts commit = (s1, Ok info) ->
        OpenSnapshot s1 info (c_refs c) = (s2, refs2, Err err) ->
        let c' := mkCreation refs2
                             (c_logs c ++ [ErrOpenSnapshot (Id slice) err])
                             false true commit in
        r = if CrashOnError err then Crash (c', sliceSnaps, s2) err
            else Next (c', sliceSnaps, s2)).
Proof.
  intros Hlatest slice0 snapTs Hneed commit r. split.
  - intros s1 Hnew c'. subst r. unfold snapshotSlice.
    rewrite Hlatest. fold slice0 snapTs. rewrite Hneed. fold commit.
    by rewrite Hnew.
  - intros s1 info s2 refs2 Hnew Hopen c'. subst r. unfold snapshotSlice.
    rewrite Hlatest. fold slice0 snapTs. rewrite Hneed. fold commit.
    by rewrite Hnew, Hopen.
Qed.

Lemma creationErr_not_notify (l : list LogEntry) :
  Exists creationErr l -> Forall notifyLog l -> False.
Proof.
  intros Hex Hall. apply Exists_exists in Hex as (e & Hin & sid & err & He).
  rewrite Forall_forall in Hall. destruct (Hall e Hin) as (i & cse & ->).
  by destruct He.
Qed.

(** C3 (as amended). An error returned by [NewSnapshot] or
    [OpenSnapshot] during snapshot creation is logged and handed to
    [CrashOnError]: when that call panics the creation stops there, and
    when it returns the slice is skipped for this cycle and the loop
    goes on. Whenever such an error was logged, the published snapshot
    of the instance is not updated and no waiter or listener is
    notified; when the creation runs to its end, the snapshot that was
    built is destroyed, and so is the clone of the last snapshot. *)
Theorem slice_error_not_published m streamId keyspaceId idxInstId ts
    (hasAllSB aborted commit forceCommit : bool) now (new : list LogEntry) :
  let out := createSnapshotForIndex m streamId keyspaceId idxInstId ts
               hasAllSB aborted commit forceCommit now in
  logs (stateOf out) = logs m ++ new ->
  Exists creationErr new ->
  (indexSnapMap (stateOf out) = indexSnapMap m
   /\ waitersMap (stateOf out) = waitersMap m
   /\ waiterCh (stateOf out) = waiterCh m
   /\ snapshotNotifych (stateOf out) = snapshotNotifych m)
  /\ (forall m', out = Finished m' ->
      exists snapC c partnSnaps,
        indexSnapMap m !! idxInstId = Some snapC
        /\ refs m'
           = DestroyIndexSnapshot (snap snapC)
               (DestroyIndexSnapshot
                  (Some (mkIndexSnap idxInstId (Some ts) partnSnaps false now))
                  (c_refs c)))
  /\ (forall numVb lastPartnSnap c sliceSnaps (slice : S) latest err,
      latestOf lastPartnSnap (Id slice) = Ok latest ->
      let slice0 := if hasAllSB then SetLastRollbackTs slice None else slice in
      let snapTs := match latest with
                    | Some l => Seqnos (snap_Timestamp l)
                    | None => NewTimestamp numVb
                    end in
      needNewSnapshot latest (IsDirty slice0) (needsCommit c) forceCommit
                      (Seqnos ts) snapTs = true ->
      let commit := if forceCommit then forceCommit else needsCommit c in
      let r := snapshotSlice numVb idxInstId ts hasAllSB false forceCommit
                             lastPartnSnap c sliceSnaps slice in
      (forall s1,
         NewSnapshot (FlushDone slice0) ts commit = (s1, Err err) ->
         let c' := mkCreation (c_refs c)
                              (c_logs c ++ [ErrNewSnapshot (Id slice) err])
                              false (hasNewSnapshot c) commit in
         r = if CrashOnError err then Crash (c', sliceSnaps, s1) err
             else Next (c', sliceSnaps, s1))
      /\ (forall s1 info s2 refs2,
            NewSnapshot (FlushDone slice0) ts commit = (s1, Ok info) ->
            OpenSnapshot s1 info (c_refs c) = (s2, refs2, Err err) ->
            let c' := mkCreation refs2
                                 (c_logs c ++ [ErrOpenSnapshot (Id slice) err])
                                 false true commit in
            r = if CrashOnError err then Crash (c', sliceSnaps, s2) err
                else Next (c', sliceSnaps, s2))).
Proof.
  intros out Hlogs Herr.
  pose proof (createSnapshotForIndex_cases m streamId keyspaceId idxInstId ts
                hasAllSB aborted commit forceCommit now) as Hcases.
  cbn zeta in Hcases. fold out in Hcases.
  destruct Hcases
    as [(Hs & Hw & Hch & Hn & new' & Hl & Hf & Hfin)
       | [(snapC & c & ps & HsnapC & Hc & Hout & Hs & Hw & Hch & Hn & Hl
           & Hf & Hne & Hrefs)
         | (snapC & ps & Hout & Hs & Hsnap & extra & Hl & Hf)]].
  - rewrite Hl in Hlogs. apply app_inv_head in Hlogs as ->.
    split_and!; [done .. | |].
    + intros m' Hm'. rewrite Hfin in Herr; [| by eexists].
      by apply Exists_nil in Herr.
    + intros numVb lps c1 ss1 slice latest err Hlat slice0 snapTs Hneed.
      by apply (snapshotSlice_error numVb idxInstId ts hasAllSB forceCommit
                  lps c1 ss1 slice latest).
  - split_and!; [done .. | |].
    + intros m' Hm'. exists snapC, c, ps. split; [done |].
      rewrite Hout in Hm'. injection Hm' as <-. done.
    + intros numVb lps c1 ss1 slice latest err Hlat slice0 snapTs Hneed.
      by apply (snapshotSlice_error numVb idxInstId ts hasAllSB forceCommit
                  lps c1 ss1 slice latest).
  - rewrite Hl in Hlogs. apply app_inv_head in Hlogs as ->.
    by destruct (creationErr_not_notify _ Herr Hf).
Qed.


(** *** The Crc64 invariant *)

Lemma crcInv_same_map m m' :
  indexSnapMap m' = indexSnapMap m -> crcInv m -> crcInv m'.
Proof. unfold crcInv. intros ->. done. Qed.

Lemma crcInv_insert m m' instId snapC isnap ts :
  indexSnapMap m' = <[instId := snapC]> (indexSnapMap m) ->
  snap snapC = Some isnap -> is_ts isnap = Some ts ->
  Crc64 ts = HashVbuuid (Vbuuids ts) ->
  crcInv m -> crcInv m'.
Proof.
  unfold crcInv. intros -> Hsnap Hts Hcrc Hinv i c' isnap' ts' Hlook Hs' Ht'.
  destruct (decide (instId = i)) as [-> | Hne].
  - rewrite lookup_insert_eq in Hlook. simplify_eq. done.
  - rewrite lookup_insert_ne in Hlook by done. by eapply Hinv.
Qed.

Lemma createSnapshotForIndex_crcInv m streamId keyspaceId idxInstId ts
    (hasAllSB aborted commit forceCommit : bool) now :
  Crc64 ts = HashVbuuid (Vbuuids ts) -> crcInv m ->
  crcInv (stateOf (createSnapshotForIndex m streamId keyspaceId idxInstId ts
                     hasAllSB aborted commit forceCommit now)).
Proof.
  intros Hcrc Hinv.
  pose proof (createSnapshotForIndex_cases m streamId keyspaceId idxInstId ts
                hasAllSB aborted commit forceCommit now) as Hcases.
  cbn zeta in Hcases.
  destruct Hcases
    as [(Hs & _) | [(snapC & c & ps & _ & _ & _ & Hs & _)
                   | (snapC & ps & _ & Hs & Hsnap & _)]].
  - by eapply crcInv_same_map.
  - by eapply crcInv_same_map.
  - by eapply crcInv_insert.
Qed.

Lemma createSnapshots_crcInv m streamId keyspaceId ts
    (hasAllSB aborted commit forceCommit : bool) now instIdList :
  Crc64 ts = HashVbuuid (Vbuuids ts) -> crcInv m ->
  crcInv (stateOf (createSnapshots m streamId keyspaceId ts hasAllSB aborted
                     commit forceCommit now instIdList)).
Proof.
  intros Hcrc. revert m.
  induction instIdList as [| i rest IH]; intros m Hinv; [done |].
  cbn [createSnapshots].
  pose proof (createSnapshotForIndex_crcInv m streamId keyspaceId i ts
                hasAllSB aborted commit forceCommit now Hcrc Hinv) as Hstep.
  destruct (createSnapshotForIndex _ _ _ _ _ _ _ _ _ _); [by apply IH | done].
Qed.

Lemma flushDone_snapMap m streamId keyspaceId instIdList ts
    (aborted hasAllSB tuningDue : bool) :
  indexSnapMap (flushDone m streamId keyspaceId instIdList ts aborted hasAllSB
                  tuningDue) = indexSnapMap m.
Proof.
  unfold flushDone.
  assert (Hfold : forall l (m0 : storageMgr S),
            indexSnapMap
              (fold_left
                 (fun m' idxInstId =>
                    if instMatches m' streamId keyspaceId idxInstId
                    then storePartnMap m' idxInstId
                           (mapSlices FlushDone
                              (default [] (indexPartnMap m' !! idxInstId)))
                    else m') l m0) = indexSnapMap m0).
  { induction l as [| i l IH]; intros m0; [done |]. cbn [fold_left].
    rewrite IH. destruct (instMatches _ _ _ _); [| done].
    by destruct (storePartnMap_fields m0 i
                   (mapSlices FlushDone (default [] (indexPartnMap m0 !! i))))
      as (_ & -> & _). }
  destruct tuningDue, hasAllSB; cbn; by rewrite ?Hfold.
Qed.

Lemma crcInvb_sound m : crcInvb m = true -> crcInv m.
Proof.
  unfold crcInvb, crcInv. rewrite forallb_forall.
  intros Hall instId snapC isnap ts Hlook Hsnap Hts.
  specialize (Hall (instId, snapC)). unfold crcOk in Hall. cbn in Hall.
  rewrite Hsnap, Hts in Hall. apply Z.eqb_eq, Hall.
  apply list_elem_of_In. by apply elem_of_map_to_list.
Qed.

(** C8 (as amended). Creating snapshots at a flush keeps the invariant
    that the [Crc64] of the timestamp of every current snapshot is the
    hash of its vbuuid vector. The nil snapshot that [addNilSnapshot]
    installs has a timestamp with [Crc64 = 0] and an all-zero vbuuid
    vector, so that installing it keeps the invariant exactly when the
    hash of the zero vector is zero. *)
Theorem crc_invariant m :
  crcInv m ->
  (forall streamId keyspaceId ts (aborted hasAllSB tuningDue : bool) now,
     crcInv (stateOf (handleCreateSnapshot m streamId keyspaceId ts aborted
                        hasAllSB tuningDue now)))
  /\ (forall idxInstId bucket now,
        indexSnapMap m !! idxInstId = None ->
        (exists snapC,
           indexSnapMap (addNilSnapshot m idxInstId bucket now) !! idxInstId
           = Some snapC
           /\ snap snapC
              = Some (mkIndexSnap idxInstId
                        (Some (mkTs bucket (replicate (numVbuckets m) 0)
                                    (replicate (numVbuckets m) 0) 0 NO_SNAP))
                        ∅ true now))
        /\ (crcInv (addNilSnapshot m idxInstId bucket now)
            <-> HashVbuuid (replicate (numVbuckets m) 0) = 0)).
Proof.
  intros Hinv. split.
  - intros streamId keyspaceId ts aborted hasAllSB tuningDue now.
    unfold handleCreateSnapshot.
    set (ts' := setCrc64 ts _).
    assert (Hcrc : Crc64 ts' = HashVbuuid (Vbuuids ts')) by done.
    assert (Hinv' : crcInv (sendCmd m MsgSuccess)) by done.
    case_decide.
    + cbn [stateOf]. eapply crcInv_same_map; [apply flushDone_snapMap | done].
    + unfold createSnapshotWorker.
      destruct (commitFlags _) as [commit forceCommit].
      pose proof (createSnapshots_crcInv (sendCmd m MsgSuccess) streamId
                    keyspaceId (Copy ts') hasAllSB aborted commit forceCommit
                    now (default [] (instLists (sendCmd m MsgSuccess)
                                       !! (streamId, keyspaceId)))
                    Hcrc Hinv') as Hall.
      destruct (createSnapshots _ _ _ _ _ _ _ _ _ _); cbn [stateOf] in *; done.
  - intros idxInstId bucket now Hnone.
    unfold addNilSnapshot. rewrite Hnone.
    set (nil := nilSnapshot idxInstId bucket (numVbuckets m) now).
    set (m1 := setSnapMap m _).
    destruct (notifySnapshotCreation_fields m1 nil) as (_ & _ & Hs & _).
    split.
    + eexists. rewrite Hs. subst m1. cbn [indexSnapMap setSnapMap].
      rewrite lookup_insert_eq. done.
    + split.
      * intros Hinv1.
        specialize (Hinv1 idxInstId (mkSnapC (Some nil) now false) nil
                          (NewTsVbuuid bucket (numVbuckets m))).
        rewrite Hs in Hinv1. subst m1. cbn [indexSnapMap setSnapMap] in Hinv1.
        rewrite lookup_insert_eq in Hinv1.
        symmetry. by apply Hinv1.
      * intros Hzero.
        eapply (crcInv_insert m _ idxInstId (mkSnapC (Some nil) now false) nil
                  (NewTsVbuuid bucket (numVbuckets m)));
          [by rewrite Hs | done | done | by cbn | done].
Qed.


(** *** Merge *)

Lemma EqualOrGreater_seqnos (ts other : TsVbuuid) (skip : bool) :
  EqualOrGreater ts other skip = true ->
  Forall2 (fun s o => o <= s) (Seqnos ts) (Seqnos other).
Proof.
  unfold EqualOrGreater. rewrite !andb_true_iff.
  intros [[Hlen Hall] _]. apply bool_decide_eq_true in Hlen.
  revert Hlen Hall. generalize (Seqnos ts) (Seqnos other).
  induction l as [| s l IH]; intros [| o l'] Hlen Hall; try done.
  cbn in *. apply andb_true_iff in Hall as [Hle Hall].
  constructor; [lia |]. apply IH; [lia | done].
Qed.

(** C5. When the containers of the source and of the target exist and
    the sequence numbers of the source timestamp are not componentwise
    greater than or equal to those of the target timestamp, the merge
    ends with the fatal error [ERROR_STORAGE_MGR_MERGE_SNAPSHOT_FAIL]
    sent to the supervisor, logged at fatal level, and no published
    snapshot, reference count or waiter is changed. *)
Theorem merge_rejects_older_source m srcInstId tgtInstId partitions now
    sourceC targetC source target sts tts :
  indexSnapMap m !! srcInstId = Some sourceC -> snap sourceC = Some source ->
  indexSnapMap m !! tgtInstId = Some targetC -> snap targetC = Some target ->
  is_ts source = Some sts -> is_ts target = Some tts ->
  ~ Forall2 (fun s t => t <= s) (Seqnos sts) (Seqnos tts) ->
  exists m',
    handleIndexMergeSnapshot m srcInstId tgtInstId partitions now = Finished m'
    /\ supvCmdch m'
       = supvCmdch m ++ [MsgError ERROR_STORAGE_MGR_MERGE_SNAPSHOT_FAIL FATAL
                                  "Timestamp mismatch between snapshot"]
    /\ logs m' = logs m ++ [FatalMergeSnapshot srcInstId tgtInstId;
                            FatalMergeSnapshot srcInstId tgtInstId]
    /\ indexSnapMap m' = indexSnapMap m /\ refs m' = refs m
    /\ waitersMap m' = waitersMap m /\ waiterCh m' = waiterCh m
    /\ snapshotNotifych m' = snapshotNotifych m.
Proof.
  intros HsrcC Hsrc HtgtC Htgt Hsts Htts Hnot.
  unfold handleIndexMergeSnapshot.
  rewrite HsrcC, Hsrc, HtgtC, Htgt, Hsts, Htts.
  destruct (EqualOrGreater sts tts false) eqn:Hge.
  - by apply EqualOrGreater_seqnos in Hge.
  - cbn [negb]. eexists. split; [reflexivity |]. by cbn.
Qed.

(** *** Rollback *)

Lemma find_newest {A} (P : A -> bool) (l : list A) :
  match find P l with
  | Some x => exists newer older,
                l = newer ++ x :: older /\ P x = true
                /\ Forall (fun y => P y = false) newer
  | None => Forall (fun y => P y = false) l
  end.
Proof.
  induction l as [| a l IH]; cbn; [done |].
  destruct (P a) eqn:Ha.
  - exists [], l. by split_and!.
  - destruct (find P l) as [x |].
    + destruct IH as (newer & older & -> & Hx & Hn).
      exists (a :: newer), older. split_and!; [done | done | by constructor].
    + by constructor.
Qed.

(** C2. Per slice of a rollback: if an info listed by the slice is an
    OSO snapshot the search returns no pick; otherwise, if the rollback
    timestamp has no zero sequence number, the search picks the newest
    info whose timestamp is [<=] the rollback timestamp; with a pick,
    [Rollback] is called on it and the restart timestamp is the
    timestamp of the pick; without, [RollbackToZero] is called and the
    restart timestamp is nil. *)
Theorem rollback_per_slice (slice : S) (rollbackTs : TsVbuuid)
    (infos : list SnapshotInfo) :
  GetSnapshots slice = Ok infos ->
  (* an OSO snapshot among the infos: no pick *)
  (existsb IsOSOSnap infos = true ->
   findRollbackSnapshot slice rollbackTs = Ok None)
  (* no zero sequence number: the newest info not beyond the rollback
     timestamp *)
  /\ (existsb IsOSOSnap infos = false -> HasZeroSeqNum rollbackTs = false ->
      exists pick,
        findRollbackSnapshot slice rollbackTs = Ok pick
        /\ match pick with
           | Some info =>
               exists newer older,
                 infos = newer ++ info :: older
                 /\ seqnosLe (info_Timestamp info) rollbackTs = true
                 /\ Forall (fun i => seqnosLe (info_Timestamp i) rollbackTs
                                     = false) newer
           | None =>
               Forall (fun i => seqnosLe (info_Timestamp i) rollbackTs = false)
                      infos
           end)
  (* a pick: [Rollback] is called on it, and when it succeeds the
     restart timestamp is that of the pick *)
  /\ (forall info markAsUsed slice',
        Rollback slice info = (slice', None) ->
        rollbackToSnapshot slice (Some info) markAsUsed
        = (if markAsUsed
           then SetLastRollbackTs slice' (Some (info_Timestamp info))
           else slice',
           Some (info_Timestamp info), None))
  (* no pick: [RollbackToZero] is called and the restart timestamp is
     nil *)
  /\ (forall markAsUsed,
        (rollbackToSnapshot slice None markAsUsed).1.2 = None
        /\ forall slice',
             RollbackToZero slice = (slice', None) ->
             rollbackToSnapshot slice None markAsUsed
             = (SetLastRollbackTs slice' None, None, None)).
Proof.
  intros Hinfos. split_and!.
  - intros Hoso. unfold findRollbackSnapshot, NewSnapshotInfoContainer.
    by rewrite Hinfos, Hoso.
  - intros Hoso Hzero. unfold findRollbackSnapshot, NewSnapshotInfoContainer.
    rewrite Hinfos, Hoso, Hzero. eexists. split; [reflexivity |].
    apply (find_newest (fun si => seqnosLe (info_Timestamp si) rollbackTs)).
  - intros info markAsUsed slice' Hrb. unfold rollbackToSnapshot.
    by rewrite Hrb.
  - intros markAsUsed. unfold rollbackToSnapshot. split.
    + by destruct (RollbackToZero slice) as [? [?|]].
    + intros slice' Hrb. by rewrite Hrb.
Qed.


(** *** Prune *)

Lemma refcount_Open_other (s : Snapshot) (refs : Refs) (a : Z) :
  snap_addr s <> a -> refcount (Open s refs) a = refcount refs a.
Proof. intros Hne. unfold refcount at 1, Open. by rewrite lookup_insert_ne. Qed.

Lemma refcount_openAll (l : list Snapshot) (refs : Refs) (a : Z) :
  refcount (openAll l refs) a
  = refcount refs a
    + Z.of_nat (length (filter (fun s => snap_addr s = a) l)).
Proof.
  revert refs. induction l as [| s l IH]; intros refs; [cbn; lia |].
  change (openAll (s :: l) refs) with (openAll l (Open s refs)).
  rewrite IH, filter_cons.
  destruct (decide (snap_addr s = a)) as [<- | Hne].
  - rewrite refcount_Open. cbn [length]. lia.
  - rewrite refcount_Open_other by done. lia.
Qed.

Lemma sliceSnapshot_copy (slices : gmap Z sliceSnapshot) :
  (fun ss => mkSliceSnap (ss_id ss) (ss_snap ss)) <$> slices = slices.
Proof.
  apply map_eq. intros i. rewrite lookup_fmap.
  by destruct (slices !! i) as [[? ?] |].
Qed.

Lemma elem_of_partitionIds (isnap : indexSnapshot) (k : Z) ps :
  wellKeyed isnap -> is_partns isnap !! k = Some ps -> k ∈ partitionIds isnap.
Proof.
  intros Hwk Hk. unfold partitionIds. apply list_elem_of_fmap.
  exists (k, ps). split; [cbn; symmetry; by apply Hwk |].
  by apply elem_of_map_to_list.
Qed.

(** The partitions of a pruning clone are those whose key is kept. *)
Lemma deepClone_partns (isnap : indexSnapshot) (keep : list Z) now refs :
  wellKeyed isnap ->
  is_partns (deepCloneIndexSnapshot isnap true keep now refs).1
  = filter (fun kp => kp.1 ∈ keep) (is_partns isnap).
Proof.
  intros Hwk. cbn. apply map_eq. intros k.
  rewrite map_lookup_imap, map_lookup_filter.
  destruct (is_partns isnap !! k) as [ps |] eqn:Hk; [| done].
  cbn. case_bool_decide.
  - rewrite option_guard_True by done. cbn.
    rewrite sliceSnapshot_copy. rewrite <- (Hwk k ps Hk). by destruct ps.
  - by rewrite option_guard_False.
Qed.

(** C6 (as amended). The partitions that a prune request lists are the
    ones dropped: the snapshot published for the instance holds exactly
    the partition snapshots of the current one whose id is not in the
    list, under the same timestamp, built by a clone that raises the
    reference count of every slice snapshot kept by one for each slice
    snapshot that holds it. An empty list keeps every partition; a list
    that names every partition yields a snapshot with no partitions. *)
Theorem prune_drops_listed m instId (partitions : list Z) now snapC old :
  indexSnapMap m !! instId = Some snapC -> snap snapC = Some old ->
  is_instId old = instId -> wellKeyed old ->
  exists m' new refs1,
    handleIndexPruneSnapshot m instId partitions now = Finished m'
    /\ indexSnapMap m' !! instId
       = Some (mkSnapC (Some new) (sc_creationTime snapC) (deleted snapC))
    /\ is_partns new = filter (fun kp => kp.1 ∉ partitions) (is_partns old)
    /\ is_ts new = is_ts old
    /\ deepCloneIndexSnapshot old true
         (filter (fun id => id ∉ partitions) (partitionIds old)) now (refs m)
       = (new, refs1)
    /\ (forall a, refcount refs1 a
                  = refcount (refs m) a + holders (is_partns new) a)
    /\ (partitions = [] -> is_partns new = is_partns old)
    /\ ((forall k, k ∈ dom (is_partns old) -> k ∈ partitions) ->
        is_partns new = ∅)
    /\ supvCmdch m' = supvCmdch m ++ [MsgSuccess].
Proof.
  intros HsnapC Hold Hid Hwk.
  set (kept := filter (fun id => id ∉ partitions) (partitionIds old)).
  destruct (deepCloneIndexSnapshot old true kept now (refs m))
    as [new refs1] eqn:Hclone.
  assert (Hpartns : is_partns new
                    = filter (fun kp => kp.1 ∉ partitions) (is_partns old)).
  { pose proof (deepClone_partns old kept now (refs m) Hwk) as Hp.
    rewrite Hclone in Hp. cbn [fst] in Hp. rewrite Hp.
    apply map_filter_ext. intros k ps Hk. cbn. subst kept.
    rewrite list_elem_of_filter. split; [by intros [? _] |].
    intros Hnot. split; [done |]. by eapply elem_of_partitionIds. }
  assert (Hnewid : is_instId new = instId).
  { unfold deepCloneIndexSnapshot in Hclone. by simplify_eq. }
  exists (sendCmd (updateSnapMapAndNotify (setRefs m refs1) new now) MsgSuccess),
         new, refs1.
  split_and!.
  - unfold handleIndexPruneSnapshot. rewrite HsnapC, Hold. fold kept.
    by rewrite Hclone.
  - cbn [indexSnapMap sendCmd].
    unfold updateSnapMapAndNotify.
    destruct (installSnapshot (setRefs m refs1) new now) as [m2 |] eqn:Hinst.
    + destruct (drainWaiters_fields (notifySnapshotCreation m2 new) new now)
        as (_ & _ & -> & _).
      destruct (notifySnapshotCreation_fields m2 new) as (_ & _ & -> & _).
      unfold installSnapshot in Hinst. rewrite Hnewid in Hinst.
      cbn [indexSnapMap setRefs] in Hinst. rewrite HsnapC in Hinst.
      cbn [negb] in Hinst. cbn [indexSnapMap setRefs] in Hinst.
      rewrite HsnapC in Hinst. injection Hinst as <-. cbn.
      by rewrite lookup_insert_eq.
    + apply installSnapshot_None in Hinst. rewrite Hnewid in Hinst.
      cbn in Hinst. by rewrite HsnapC in Hinst.
  - done.
  - unfold deepCloneIndexSnapshot in Hclone. simplify_eq. cbn.
    by destruct (is_ts old).
  - done.
  - intros a. unfold deepCloneIndexSnapshot in Hclone. simplify_eq.
    cbn [is_partns]. unfold holders. apply refcount_openAll.
  - intros ->. rewrite Hpartns. apply map_eq. intros k.
    rewrite map_lookup_filter. destruct (is_partns old !! k); [| done].
    cbn. rewrite option_guard_True; [done |]. cbn. apply not_elem_of_nil.
  - intros Hall. rewrite Hpartns. apply map_eq. intros k.
    rewrite map_lookup_filter, lookup_empty.
    destruct (is_partns old !! k) eqn:Hk; [| done].
    cbn. rewrite option_guard_False; [done |]. cbn.
    intros Hnot. apply Hnot, Hall. apply elem_of_dom. by eexists.
  - cbn [supvCmdch sendCmd]. f_equal.
    by destruct (updateSnapMapAndNotify_fields (setRefs m refs1) new now)
      as (_ & _ & ->).
Qed.

End Mgr.

(** *** Runs on the sample managers *)

(** A clean slice whose prior snapshot is at the flush timestamp keeps
    that snapshot, with one more reference. *)
Lemma disk_flush_decision_witness :
  let latest := mkSnapshot 100 (flushTs 1 DISK_SNAP) in
  let lastPartnSnap :=
    Some (mkPartnSnap 0 (<[0 := mkSliceSnap 0 latest]> ∅)) in
  let c := mkCreation ∅ [] true false true in
  snapshotSlice (H := memSliceOps) (H0 := crashEnv) 1 1 (flushTs 1 DISK_SNAP)
                false false false lastPartnSnap c ∅ cleanSlice
  = Next (mkCreation (Open latest ∅) [] true false true,
          <[0 := mkSliceSnap 0 latest]> ∅, cleanSlice).
Proof.
  intros latest lastPartnSnap c.
  destruct (disk_flush_decision (H := memSliceOps) (H0 := crashEnv) 1 1
              (flushTs 1 DISK_SNAP) false lastPartnSnap c ∅ cleanSlice latest)
    as (_ & Hreuse & _).
  - by left.
  - reflexivity.
  - reflexivity.
  - apply Hreuse. reflexivity.
Defined.


(** C1 (as stated) fails. After a first flush the slice is clean and
    holds the snapshot at address 100. A disk flush at a greater
    timestamp creates a new storage snapshot although the slice is not
    dirty; an aborted flush neither creates a snapshot nor reuses the
    prior one. *)
Lemma disk_flush_counterexample :
  let m1 := flushedMgr in
  let m2 := stateOf (handleCreateSnapshot (H := memSliceOps) (H0 := crashEnv)
                       m1 0 "b" (flushTs 2 DISK_SNAP) false false false 20) in
  let aborted :=
    stateOf (handleCreateSnapshot (H := memSliceOps) (H0 := crashEnv)
               m1 0 "b" (flushTs 2 DISK_SNAP) true false false 20) in
  (* after the first flush the slice is clean and has the prior snapshot
     at address 100 *)
  (map ms_dirty <$> (slices <$> (indexPartnMap m1 !! 1 ≫= head))
   = Some [false]
   /\ publishedAddrs m1 1 = Some [100])
  (* the flush at a greater timestamp creates the snapshot at address
     101 on the clean slice *)
  /\ (publishedAddrs m2 1 = Some [101]
      /\ sliceCalls m2 1
         = [["FlushDone"; "NewSnapshot"; "OpenSnapshot";
             "FlushDone"; "NewSnapshot"; "OpenSnapshot"]]%string)
  (* the aborted flush neither creates a snapshot nor reuses the prior
     one *)
  /\ (publishedAddrs aborted 1 = Some [100]
      /\ refs aborted = refs m1
      /\ sliceCalls aborted 1 = sliceCalls m1 1).
Proof. vm_compute. repeat split. Qed.


(** Where [CrashOnError] returns, the error of the failing slice is
    logged and the published snapshot stays. *)
Lemma slice_error_not_published_witness :
  let out := createSnapshotForIndex (H := memSliceOps) (H0 := lenientEnv)
               (bootMgr failingSlice) 0 "b" 1 (flushTs 1 DISK_SNAP)
               false false true false 10 in
  indexSnapMap (stateOf out) = indexSnapMap (bootMgr failingSlice)
  /\ logs (stateOf out) = [ErrNewSnapshot 0 "disk full"].
Proof.
  intros out.
  destruct (slice_error_not_published (H := memSliceOps) (H0 := lenientEnv)
              (bootMgr failingSlice) 0 "b" 1 (flushTs 1 DISK_SNAP)
              false false true false 10 [ErrNewSnapshot 0 "disk full"])
    as ((Hsame & _) & _).
  - by vm_compute.
  - constructor. exists 0, "disk full"%string. by left.
  - split; [exact Hsame | by vm_compute].
Defined.


(** C3 (as stated) fails where [CrashOnError] panics on an error, as its
    name says: the error of the failing slice is logged and the process
    panics; it does not go on to skip the slice and destroy the
    snapshot. *)
Lemma slice_error_counterexample :
  exists m',
    createSnapshotForIndex (H := memSliceOps) (H0 := crashEnv)
      (bootMgr failingSlice) 0 "b" 1 (flushTs 1 DISK_SNAP)
      false false true false 10
    = Crashed m' "disk full"%string
    /\ logs m' = [ErrNewSnapshot 0 "disk full"]
    /\ indexSnapMap m' = indexSnapMap (bootMgr failingSlice).
Proof. eexists. split; [by vm_compute |]. by vm_compute. Qed.


(** After a first flush the invariant holds, and a second flush keeps
    it. *)
Lemma crc_invariant_witness :
  crcInv (H := crashEnv)
         (stateOf (handleCreateSnapshot (H := memSliceOps) (H0 := crashEnv)
                     flushedMgr 0 "b" (flushTs 2 DISK_SNAP) false false false
                     20)).
Proof.
  apply (crc_invariant (H := memSliceOps) (H0 := crashEnv) flushedMgr).
  apply crcInvb_sound. by vm_compute.
Defined.


(** C8 (as stated) fails for the CRC-64 of the vbuuid vector: a manager
    without containers satisfies the invariant, and installing the nil
    snapshot of an instance breaks it, the [Crc64] of the nil snapshot
    being zero and the hash of the zero vector not. *)
Lemma crc_counterexample :
  crcInv (H := crashEnv) (sampleMgr cleanSlice)
  /\ ~ crcInv (H := crashEnv) (addNilSnapshot (sampleMgr cleanSlice) 1 "b" 5).
Proof.
  split.
  - intros i c isnap ts Hlook. done.
  - intros Hinv.
    specialize (Hinv 1 (mkSnapC (Some (nilSnapshot 1 "b" 1 5)) 5 false)
                     (nilSnapshot 1 "b" 1 5) (NewTsVbuuid "b" 1)
                     eq_refl eq_refl eq_refl).
    vm_compute in Hinv. discriminate.
Qed.


(** A rollback to sequence number 22 on a slice that holds the
    snapshots of 30, 20 and 10 picks the one of 20. *)
Lemma rollback_per_slice_witness :
  findRollbackSnapshot (H := memSliceOps) threeInfos (flushTs 22 DISK_SNAP)
  = Ok (Some (info 20))
  /\ exists slice',
       rollbackToSnapshot (H := memSliceOps) threeInfos (Some (info 20)) false
       = (slice', Some (flushTs 20 DISK_SNAP), None)
       /\ ms_calls slice' = ["Rollback"%string].
Proof.
  destruct (rollback_per_slice (H := memSliceOps) threeInfos
              (flushTs 22 DISK_SNAP) [info 30; info 20; info 10] eq_refl)
    as (_ & _ & Hpick & _).
  split; [by vm_compute |].
  eexists. split; [apply Hpick; reflexivity | reflexivity].
Defined.


(** A source at sequence number 1 is not merged into a target at
    sequence number 2. *)
Lemma merge_rejects_older_source_witness :
  exists m',
    handleIndexMergeSnapshot (S := memSlice) (H0 := crashEnv)
                             mergeMgr 2 1 [] 20 = Finished m'
    /\ indexSnapMap m' = indexSnapMap mergeMgr
    /\ supvCmdch m'
       = [MsgError ERROR_STORAGE_MGR_MERGE_SNAPSHOT_FAIL FATAL
                   "Timestamp mismatch between snapshot"].
Proof.
  destruct (merge_rejects_older_source (S := memSlice) (H0 := crashEnv)
              mergeMgr 2 1 [] 20
              (mkSnapC (Some (mkIndexSnap 2 (Some (flushTs 1 DISK_SNAP)) ∅
                                          false 10)) 5 false)
              (mkSnapC (Some (mkIndexSnap 1 (Some (flushTs 2 DISK_SNAP)) ∅
                                          false 10)) 5 false)
              (mkIndexSnap 2 (Some (flushTs 1 DISK_SNAP)) ∅ false 10)
              (mkIndexSnap 1 (Some (flushTs 2 DISK_SNAP)) ∅ false 10)
              (flushTs 1 DISK_SNAP) (flushTs 2 DISK_SNAP))
    as (m' & Hrun & Hcmd & _ & Hmap & _).
  - by vm_compute.
  - reflexivity.
  - by vm_compute.
  - reflexivity.
  - reflexivity.
  - reflexivity.
  - intros Hge. inversion Hge; subst. lia.
  - exists m'. by split_and!.
Defined.


(** Pruning partition 0 from a snapshot over the partitions 0 and 1
    leaves partition 1. *)
Lemma prune_drops_listed_witness :
  exists m',
    handleIndexPruneSnapshot (S := memSlice) (H0 := crashEnv)
                             pruneMgr 1 [0] 20 = Finished m'
    /\ publishedPartitions m' 1 = Some [1].
Proof.
  destruct (prune_drops_listed (S := memSlice) (H0 := crashEnv)
              pruneMgr 1 [0] 20 (mkSnapC (Some twoPartitions) 5 false)
              twoPartitions)
    as (m' & new & refs1 & Hrun & Hpub & Hpartns & _).
  - by vm_compute.
  - reflexivity.
  - reflexivity.
  - intros k ps Hk. cbn in Hk.
    apply lookup_insert_Some in Hk as [[<- <-] | [_ Hk]]; [done |].
    apply lookup_insert_Some in Hk as [[<- <-] | [_ Hk]]; [done |].
    by rewrite lookup_empty in Hk.
  - exists m'. split; [done |].
    unfold publishedPartitions. rewrite Hpub. cbn. rewrite Hpartns.
    by vm_compute.
Defined.


(** C6 (as stated) fails. The current snapshot holds the partitions 0
    and 1. A prune request that lists partition 0 publishes a snapshot
    that holds partition 1, not partition 0; a request with an empty
    list publishes a snapshot that holds both partitions, not none. *)
Lemma prune_counterexample :
  publishedPartitions pruneMgr 1 = Some [1; 0]
  /\ publishedPartitions
       (stateOf (handleIndexPruneSnapshot (S := memSlice) (H0 := crashEnv)
                   pruneMgr 1 [0] 20)) 1 = Some [1]
  /\ publishedPartitions
       (stateOf (handleIndexPruneSnapshot (S := memSlice) (H0 := crashEnv)
                   pruneMgr 1 [] 20)) 1 = Some [1; 0].
Proof. by vm_compute. Qed.


(** Of three waiters, the one past its deadline gets the timeout, the
    one that any snapshot satisfies gets the snapshot, and the one that
    asks for a later sequence number stays. *)
Lemma waiters_walked_witness :
  let isnap := mkIndexSnap 1 (Some (flushTs 5 DISK_SNAP)) ∅ false 20 in
  let m' := updateSnapMapAndNotify (H0 := crashEnv) waitMgr isnap 20 in
  waiterCh m' = [(11, ReplyError ErrScanTimedOut); (12, ReplySnapshot isnap)]
  /\ waitersMap m' !! 1 = Some [aheadWaiter].
Proof.
  intros isnap m'.
  destruct (waiters_walked (S := memSlice) (H0 := crashEnv) waitMgr isnap 20
              (mkSnapC (Some (nilSnapshot 1 "b" 1 5)) 5 false)
              [lateWaiter; easyWaiter; aheadWaiter])
    as (Hsent & Hkept & _).
  - by vm_compute.
  - by vm_compute.
  - split; [exact Hsent | exact Hkept].
Defined.

End StorageProofs.

(** ** Utilities *)

Module UtilProofs.
Import Planner Util.

Lemma complement_involutive (b : byte) : complement (complement b) = b.
Proof. by destruct b. Qed.

Lemma complement_to_N (b : byte) :
  Byte.to_N (complement b) = (255 - Byte.to_N b)%N.
Proof. by destruct b. Qed.

Lemma to_N_bound (b : byte) : (Byte.to_N b <= 255)%N.
Proof. pose proof (Byte.to_N_bounded b). lia. Qed.

(** X1. Flipping the bits of a byte slice twice gives the slice back,
    and flipping keeps its length. *)
Theorem FlipBits_involutive (code : bytes) :
  FlipBits (FlipBits code) = code /\ length (FlipBits code) = length code.
Proof.
  split.
  - unfold FlipBits. rewrite map_map. induction code as [| b code IH]; [done |].
    cbn. by rewrite complement_involutive, IH.
  - apply length_map.
Qed.

(** X2. On byte slices of the same length, flipping the bits reverses
    the order of [bytes.Compare]. *)
Theorem FlipBits_reverses (a b : bytes) :
  length a = length b ->
  bytes_Compare (FlipBits a) (FlipBits b) = - bytes_Compare a b.
Proof.
  revert b. induction a as [| x a IH]; intros [| y b] Hlen; try done.
  cbn in Hlen. cbn [FlipBits map bytes_Compare].
  rewrite !complement_to_N.
  pose proof (to_N_bound x). pose proof (to_N_bound y).
  destruct (N.compare_spec (Byte.to_N x) (Byte.to_N y)) as [Heq | Hlt | Hgt].
  - rewrite Heq, N.compare_refl. apply IH. lia.
  - destruct (N.compare_spec (255 - Byte.to_N x) (255 - Byte.to_N y)); lia.
  - destruct (N.compare_spec (255 - Byte.to_N x) (255 - Byte.to_N y)); lia.
Qed.
(** *** Splitting and joining *)

Lemma substring_app_l (s t : string) :
  substring 0 (String.length s) (s +:+ t) = s.
Proof. induction s as [| c s IH]; simpl; [by destruct t | by f_equal]. Qed.

Lemma string_length_app (s t : string) :
  String.length (s +:+ t) = (String.length s + String.length t)%nat.
Proof. induction s as [| c s IH]; simpl; [done | by rewrite IH]. Qed.


Lemma substring_length_le (n : nat) (s : string) :
  (String.length (substring 0 n s) <= n)%nat.
Proof.
  revert s. induction n as [| n IH]; intros [| c s]; cbn; try lia.
  specialize (IH s). lia.
Qed.

Lemma substring_split (n : nat) (s : string) :
  (n <= String.length s)%nat ->
  s = (substring 0 n s +:+ substring n (String.length s - n) s)%string.
Proof.
  revert s. induction n as [| n IH]; intros s Hn.
  - rewrite Nat.sub_0_r. simpl.
    assert (Hfull : forall t, substring 0 (String.length t) t = t).
    { intros t. induction t as [| c t IHt]; simpl; [done | by rewrite IHt]. }
    rewrite Hfull. by destruct s.
  - destruct s as [| c s]; simpl in *; [lia |].
    change (String c s = String c (substring 0 n s
                                   +:+ substring n (String.length s - n) s)).
    f_equal. apply IH. lia.
Qed.

Lemma sapp_cons (c : ascii) (s t : string) :
  (String c s +:+ t)%string = String c (s +:+ t).
Proof. done. Qed.

Lemma sapp_nil_l (t : string) : ("" +:+ t)%string = t.
Proof. done. Qed.

Lemma sapp_assoc (s t u : string) :
  ((s +:+ t) +:+ u)%string = (s +:+ t +:+ u)%string.
Proof. induction s as [| c s IH]; [done |]. by rewrite !sapp_cons, IH. Qed.

Lemma split_nonempty (sep : ascii) (s : string) : split sep s <> [].
Proof.
  destruct s as [| c s]; simpl; [done |].
  destruct (Ascii.eqb c sep); [done |]. by destruct (split sep s).
Qed.

Lemma split_app (sep : ascii) (s t : string) :
  split sep (s +:+ String sep t) = split sep s ++ split sep t.
Proof.
  induction s as [| c s IH].
  - rewrite sapp_nil_l. simpl. by rewrite Ascii.eqb_refl.
  - rewrite sapp_cons. simpl. destruct (Ascii.eqb c sep); rewrite IH; [done |].
    pose proof (split_nonempty sep s). by destruct (split sep s).
Qed.

Lemma split_absent (sep : ascii) (s : string) :
  occurs sep s = false -> split sep s = [s].
Proof.
  induction s as [| c s IH]; simpl; [done |].
  intros [Hc Hs]%orb_false_iff. by rewrite Hc, IH.
Qed.

Lemma join_snoc (sep : string) (l : list string) (x : string) :
  l <> [] -> join sep (l ++ [x]) = (join sep l +:+ sep +:+ x)%string.
Proof.
  induction l as [| a l IH]; [done |]. intros _.
  destruct l as [| b l]; [done |].
  change (join sep ((a :: b :: l) ++ [x]))
    with (a +:+ sep +:+ join sep ((b :: l) ++ [x]))%string.
  rewrite IH by done.
  change (join sep (a :: b :: l)) with (a +:+ sep +:+ join sep (b :: l))%string.
  by rewrite !sapp_assoc.
Qed.

Lemma join_split (sep : ascii) (s : string) :
  join (String sep "") (split sep s) = s.
Proof.
  induction s as [| c s IH]; simpl; [done |].
  pose proof (split_nonempty sep s) as Hne.
  destruct (Ascii.eqb_spec c sep) as [-> | Hc].
  - destruct (split sep s) as [| x xs] eqn:Hs; [done |].
    change (join (String sep "") ("" :: x :: xs))%string
      with ("" +:+ String sep "" +:+ join (String sep "") (x :: xs))%string.
    by rewrite IH.
  - destruct (split sep s) as [| x xs] eqn:Hs; [done |].
    destruct xs as [| y ys].
    + simpl in *. by rewrite IH.
    + change (join (String sep "") (String c x :: y :: ys))
        with (String c x +:+ String sep "" +:+ join (String sep "") (y :: ys))%string.
      rewrite sapp_cons. f_equal. exact IH.
Qed.

(** *** Paths *)

Lemma digits_clean (d : Decimal.uint) (c : ascii) :
  c = "_"%char \/ c = "."%char ->
  occurs c (DecimalString.NilEmpty.string_of_uint d) = false.
Proof. intros [-> | ->]; induction d; simpl; done. Qed.

Lemma formatInt_clean (z : Z) (c : ascii) :
  0 <= z -> c = "_"%char \/ c = "."%char -> occurs c (formatInt z) = false.
Proof.
  intros Hz Hc. unfold formatInt. destruct (Z.ltb_spec z 0); [lia |].
  unfold DecimalString.NilZero.string_of_uint.
  destruct (N.to_uint (Z.to_N z)) eqn:Hd;
    try (rewrite <- Hd; by apply digits_clean).
  by destruct Hc as [-> | ->].
Qed.

Lemma to_uint_nonnil (n : N) : N.to_uint n <> Decimal.Nil.
Proof.
  destruct n as [| p]; [done |]. apply DecimalPos.Unsigned.to_uint_nonnil.
Qed.

Lemma ParseUint_formatInt (z : Z) :
  0 <= z < 2 ^ 64 -> ParseUint (formatInt z) = Ok z.
Proof.
  intros Hz. unfold ParseUint, formatInt. destruct (Z.ltb_spec z 0); [lia |].
  rewrite DecimalString.NilZero.usu by apply to_uint_nonnil.
  rewrite DecimalN.Unsigned.of_to, Z2N.id by lia.
  by destruct (Z.ltb_spec z (2 ^ 64)); [| lia].
Qed.

Lemma occurs_app (c : ascii) (s t : string) :
  occurs c (s +:+ t) = occurs c s || occurs c t.
Proof.
  induction s as [| d s IH]; [done |].
  rewrite sapp_cons. simpl. by rewrite IH, orb_assoc.
Qed.

Lemma lookup_last_two {A} (pre : list A) (x y : A) :
  (pre ++ [x; y]) !! (length (pre ++ [x; y]) - 2)%nat = Some x
  /\ (pre ++ [x; y]) !! (length (pre ++ [x; y]) - 1)%nat = Some y.
Proof.
  rewrite length_app. simpl. split.
  - rewrite lookup_app_r by lia.
    by replace (length pre + 2 - 2 - length pre)%nat with 0%nat by lia.
  - rewrite lookup_app_r by lia.
    by replace (length pre + 2 - 1 - length pre)%nat with 1%nat by lia.
Qed.

(** X7. The path that [IndexPath] makes for an instance and a
    partition is read back by [GetInstIdPartnIdFromPath] as the real
    instance id and the partition id, whatever the bucket and index
    names are, as long as the partition id is not negative. *)
Theorem path_round_trip (inst : PathInst) (partnId sliceId : Z) :
  0 <= GetRealIndexInstId inst < 2 ^ 64 ->
  0 <= partnId < 2 ^ 63 ->
  GetInstIdPartnIdFromPath (IndexPath inst partnId sliceId)
  = Ok (GetRealIndexInstId inst, partnId).
Proof.
  intros Hinst Hpartn. unfold IndexPath. fold (GetRealIndexInstId inst).
  set (I := formatInt (GetRealIndexInstId inst)).
  set (P := formatInt partnId).
  assert (HI : occurs "_" I = false) by (apply formatInt_clean; [lia | by left]).
  assert (HP : occurs "_" (P +:+ ".index") = false).
  { rewrite occurs_app. unfold P.
    rewrite formatInt_clean; [done | lia | by left]. }
  assert (HPdot : occurs "." P = false)
    by (apply formatInt_clean; [lia | by right]).
  unfold GetInstIdPartnIdFromPath.
  change (p_Bucket inst +:+ "_" +:+ p_Name inst +:+ "_" +:+ I +:+ "_" +:+ P
          +:+ ".index")%string
    with (p_Bucket inst +:+ String "_" (p_Name inst +:+ String "_"
            (I +:+ String "_" (P +:+ ".index"))))%string.
  rewrite !split_app, (split_absent _ _ HI), (split_absent _ _ HP).
  pose proof (split_nonempty "_" (p_Bucket inst)) as HB.
  pose proof (split_nonempty "_" (p_Name inst)) as HN.
  set (b := split "_" (p_Bucket inst)) in *.
  set (n := split "_" (p_Name inst)) in *.
  replace (b ++ n ++ [I] ++ [(P +:+ ".index")%string])
    with ((b ++ n) ++ [I; (P +:+ ".index")%string])
    by (by rewrite <- app_assoc).
  destruct (lookup_last_two (b ++ n) I (P +:+ ".index")%string) as [-> ->].
  destruct (_ <? 4)%nat eqn:Hlen.
  { apply Nat.ltb_lt in Hlen. rewrite !length_app in Hlen. simpl in Hlen.
    destruct b; [done |]. destruct n; [done |]. simpl in Hlen. lia. }
  unfold I. rewrite ParseUint_formatInt by done. simpl.
  change (P +:+ ".index")%string with (P +:+ String "." "index")%string.
  rewrite split_app, (split_absent _ _ HPdot). simpl.
  unfold P. rewrite ParseUint_formatInt by lia. simpl.
  unfold toInt. by destruct (Z.ltb_spec partnId (2 ^ 63)); [| lia].
Qed.

(** The 16-bit keys 0x0102 and 0x0103 change places. *)
Lemma FlipBits_reverses_witness :
  bytes_Compare (FlipBits [Byte.x01; Byte.x02]) (FlipBits [Byte.x01; Byte.x03])
  = - bytes_Compare [Byte.x01; Byte.x02] [Byte.x01; Byte.x03].
Proof. apply FlipBits_reverses. reflexivity. Defined.

(** The path of partition 3 of a proxy instance whose real instance is
    7, with an underscore in the name of the index. *)
Lemma path_round_trip_witness :
  GetInstIdPartnIdFromPath
    (IndexPath (mkPathInst "travel" "by_city" 15 7 true) 3 0)
  = Ok (7, 3).
Proof.
  apply (path_round_trip (mkPathInst "travel" "by_city" 15 7 true) 3 0).
  - cbn. lia.
  - lia.
Defined.

End UtilProofs.

(** ** Host names *)

Module UrlProofs.
Import Util Urls UtilProofs.

(** X3. [prependHttp] returns a url that starts with "http://", and
    applying it twice is the same as applying it once for every url but
    the empty one, to which the second application adds the prefix again. *)
Theorem prependHttp_idempotent (url : string) :
  substring 0 7 (prependHttp url) = "http://"%string
  /\ (prependHttp (prependHttp url) = prependHttp url <-> url <> ""%string).
Proof.
  split.
  { unfold prependHttp. case_match eqn:Hc.
    - apply andb_true_iff in Hc as [_ Hc]. by apply bool_decide_eq_true_1 in Hc.
    - apply (substring_app_l "http://"). }
  split; [by intros Heq -> |].
  intros Hne. unfold prependHttp at 2. case_match eqn:Hc.
  - unfold prependHttp. by rewrite Hc.
  - unfold prependHttp.
    assert ((7 <? String.length ("http://" +:+ url))%nat = true) as ->.
    { apply Nat.ltb_lt. rewrite string_length_app.
      destruct url; [by destruct Hne |]. cbn. lia. }
    rewrite (substring_app_l "http://"), Hc.
    by rewrite bool_decide_eq_true_2 by done.
Qed.

Lemma https_test_dead (url : string) :
  bool_decide (substring 0 7 url = "https://"%string) = false.
Proof.
  apply bool_decide_eq_false. intros Heq.
  pose proof (substring_length_le 7 url) as Hle. rewrite Heq in Hle.
  cbn in Hle. lia.
Qed.

(** X4. [prependHttps] never returns its argument: the result is
    "https://" followed by the url, or by what follows "http://" in a
    url that has that prefix and more. So a url that starts with
    "https://" gets the prefix a second time. *)
Theorem prependHttps_always_prepends (url : string) :
  (exists rest, prependHttps url = ("https://" +:+ rest)%string
     /\ (rest = url
         \/ url = ("http://" +:+ rest)%string /\ rest <> ""%string))
  /\ forall tail, prependHttps ("https://" +:+ tail)
                  = ("https://https://" +:+ tail)%string.
Proof.
  assert (Hgen : forall u, exists rest,
             prependHttps u = ("https://" +:+ rest)%string
             /\ (rest = u \/ u = ("http://" +:+ rest)%string
                             /\ rest <> ""%string)).
  { intros u. unfold prependHttps.
    rewrite https_test_dead, andb_false_r. case_match eqn:Hc.
    - apply andb_true_iff in Hc as [Hlen Hpre].
      apply Nat.ltb_lt in Hlen. apply bool_decide_eq_true_1 in Hpre.
      eexists. split; [done |]. right.
      pose proof (substring_split 7 u ltac:(lia)) as Hsplit.
      rewrite Hpre in Hsplit. split; [done |].
      intros Hnil. rewrite Hnil in Hsplit. rewrite Hsplit in Hlen.
      rewrite string_length_app in Hlen. simpl in Hlen. lia.
    - eexists. split; [done |]. by left. }
  split; [apply Hgen |]. intros tail.
  destruct (Hgen ("https://" +:+ tail)%string)
    as (r & Heq & [-> | [Hcontra _]]); [done |].
  cbn in Hcontra. discriminate.
Qed.

Lemma prependHttps_http (rest : string) :
  rest <> ""%string ->
  prependHttps ("http://" +:+ rest) = ("https://" +:+ rest)%string.
Proof.
  intros Hne. unfold prependHttps. rewrite https_test_dead, andb_false_r.
  assert ((7 <? String.length ("http://" +:+ rest))%nat = true) as ->.
  { apply Nat.ltb_lt. rewrite string_length_app.
    destruct rest; [by destruct Hne |]. cbn. lia. }
  rewrite (substring_app_l "http://"), bool_decide_eq_true_2 by done.
  cbn [andb]. f_equal.
  rewrite string_length_app. cbn [String.length].
  replace (7 + String.length rest - 7)%nat with (String.length rest) by lia.
  change ("http://" +:+ rest)%string
    with (String "h" (String "t" (String "t" (String "p" (String ":"
            (String "/" (String "/" rest))))))).
  cbn [substring]. clear Hne.
  induction rest as [| c rest IH]; simpl; [done | by rewrite IH].
Qed.

Lemma securePortMap_entries (port newPort : string) :
  securePortMap !! port = Some newPort ->
  newPort = String "1" port /\ occurs ":" port = false.
Proof.
  intros Hin. apply elem_of_list_to_map_2 in Hin.
  repeat (apply elem_of_cons in Hin as [[= -> ->] | Hin]; [done |]).
  by apply elem_of_nil in Hin.
Qed.

Lemma useSecurePort_last (host port newPort : string) :
  securePortMap !! port = Some newPort ->
  useSecurePort (host +:+ ":" +:+ port) = (host +:+ ":" +:+ newPort)%string.
Proof.
  intros Hin. destruct (securePortMap_entries _ _ Hin) as [Hnew Hno].
  unfold useSecurePort.
  change (host +:+ ":" +:+ port)%string with (host +:+ String ":" port)%string.
  rewrite split_app, (split_absent _ _ Hno).
  pose proof (split_nonempty ":" host) as Hne.
  rewrite length_app. simpl.
  replace (length (split ":" host) + 1 - 1)%nat with
    (length (split ":" host) + 0)%nat by lia.
  destruct (0 <? _)%nat eqn:Hn; [| apply Nat.ltb_ge in Hn; lia].
  rewrite lookup_app_r, Nat.add_0_r, Nat.sub_diag by lia. simpl. rewrite Hin.
  rewrite insert_app_r_alt, Nat.sub_diag by lia. simpl.
  rewrite join_snoc by done. by rewrite join_split.
Qed.

(** X5. For a port of [securePortMap], [useSecurePort] replaces the
    port after the last colon of any host name by the secure port, which
    is the port with a leading 1, and [getHttpsHostname] turns
    "http://host:port" into "https://host:secure-port". *)
Theorem secure_port_of_hostname (host port newPort : string) :
  securePortMap !! port = Some newPort ->
  newPort = String "1" port
  /\ useSecurePort (host +:+ ":" +:+ port) = (host +:+ ":" +:+ newPort)%string
  /\ getHttpsHostname ("http://" +:+ host +:+ ":" +:+ port)
     = ("https://" +:+ host +:+ ":" +:+ newPort)%string.
Proof.
  intros Hin. split_and!.
  - by destruct (securePortMap_entries _ _ Hin).
  - by apply useSecurePort_last.
  - unfold getHttpsHostname. rewrite prependHttps_http.
    + rewrite <- (sapp_assoc "https://" host), <- (sapp_assoc "https://" host).
      by apply useSecurePort_last.
    + by destruct host.
Qed.

(** X6. A host name whose last component after a colon is not a port of
    [securePortMap] is returned as it is. *)
Theorem useSecurePort_other (hostname : string) :
  (forall port, last (split ":" hostname) = Some port ->
                securePortMap !! port = None) ->
  useSecurePort hostname = hostname.
Proof.
  intros Hno. unfold useSecurePort.
  destruct (0 <? _)%nat; [| done].
  destruct (split ":" hostname !! _) as [port |] eqn:Hl; [| done].
  rewrite Hno; [done |]. rewrite last_lookup.
  by replace (Init.Nat.pred (length (split ":" hostname)))
    with (length (split ":" hostname) - 1)%nat by lia.
Qed.

(** The port 9102 of the indexer becomes 19102. *)
Lemma secure_port_of_hostname_witness :
  getHttpsHostname "http://127.0.0.1:9102" = "https://127.0.0.1:19102"%string.
Proof.
  apply (secure_port_of_hostname "127.0.0.1" "9102" "19102"). reflexivity.
Defined.

(** A host name without a port. *)
Lemma useSecurePort_other_witness :
  useSecurePort "https://node1" = "https://node1"%string.
Proof.
  apply useSecurePort_other. intros port [= <-]. reflexivity.
Defined.

End UrlProofs.

(** ** Projections *)

Module ProjectionProofs.
Import Projections.

Lemma markEntryKeys_ok (cklen : Z) (entryKeys : list Z) (acc : list bool) :
  Forall (fun k => 0 <= k < cklen) entryKeys ->
  length acc = Z.to_nat cklen ->
  exists keys,
    markEntryKeys cklen entryKeys acc = Ok keys
    /\ length keys = Z.to_nat cklen
    /\ forall i : nat,
         keys !! i = Some true
         <-> (acc !! i = Some true
              \/ (Z.of_nat i ∈ entryKeys)).
Proof.
  intros Hall. revert acc.
  induction Hall as [| k ks Hk _ IH]; intros acc Hlen; simpl.
  - exists acc. split_and!; [done | done |]. intros i.
    rewrite elem_of_nil. tauto.
  - destruct (Z.leb_spec cklen k); [lia |].
    destruct (Z.ltb_spec k 0); [lia |]. simpl.
    destruct (IH (<[Z.to_nat k := true]> acc)) as (keys & Hrun & Hl & Hbits).
    { by rewrite length_insert. }
    exists keys. split_and!; [done | done |]. intros i. rewrite Hbits.
    rewrite elem_of_cons.
    destruct (decide (i = Z.to_nat k)) as [-> | Hne].
    + rewrite list_lookup_insert_eq by lia. rewrite Z2Nat.id by lia. tauto.
    + rewrite list_lookup_insert_ne by done.
      assert (Z.of_nat i <> k) by lia. tauto.
Qed.

Lemma markEntryKeys_err (cklen : Z) (entryKeys : list Z) (acc : list bool) :
  ~ Forall (fun k => 0 <= k < cklen) entryKeys ->
  markEntryKeys cklen entryKeys acc = Err "Invalid Entry Key in IndexProjection".
Proof.
  revert acc. induction entryKeys as [| k ks IH]; intros acc Hnot; simpl.
  - by destruct Hnot.
  - destruct (Z.leb_spec cklen k); [done |].
    destruct (Z.ltb_spec k 0); [done |]. simpl.
    apply IH. intros Hall. apply Hnot. constructor; [lia | done].
Qed.

(** X8. [validateIndexProjection] accepts a projection exactly when it
    has no more entry keys than the index has keys and every entry key
    is a position of the index key. *)
Theorem validateIndexProjection_accepts (entryKeys : list Z) (cklen : Z) :
  (exists p, validateIndexProjection entryKeys cklen = Ok p)
  <-> Z.of_nat (length entryKeys) <= cklen
      /\ Forall (fun k => 0 <= k < cklen) entryKeys.
Proof.
  unfold validateIndexProjection. split.
  - intros [p Hp].
    destruct (Z.ltb_spec cklen (Z.of_nat (length entryKeys))); [done |].
    split; [lia |].
    destruct (decide (Forall (fun k => 0 <= k < cklen) entryKeys)) as [| Hnot];
      [done |].
    by rewrite (markEntryKeys_err _ _ _ Hnot) in Hp.
  - intros [Hlen Hall].
    destruct (Z.ltb_spec cklen (Z.of_nat (length entryKeys))); [lia |].
    destruct (markEntryKeys_ok cklen entryKeys
                (replicate (Z.to_nat cklen) false) Hall)
      as (keys & -> & _); [by rewrite length_replicate |].
    by eexists.
Qed.

(** X9. In the projection that [validateIndexProjection] returns, the
    vector of projected keys has one bit for each key of the index, the
    bit of a position is set exactly when the position is an entry key,
    secondary keys are projected unless every position is an entry key,
    and the projection is marked empty exactly when there is no entry
    key. *)
Theorem validateIndexProjection_keys (entryKeys : list Z) (cklen : Z)
    (p : Projection) :
  validateIndexProjection entryKeys cklen = Ok p ->
  Z.of_nat (length (projectionKeys p)) = cklen
  /\ (forall i : nat, projectionKeys p !! i = Some true
                      <-> Z.of_nat i ∈ entryKeys)
  /\ (projectSecKeys p = false
      <-> forall k, 0 <= k < cklen -> k ∈ entryKeys)
  /\ (entryKeysEmpty p = true <-> entryKeys = []).
Proof.
  intros Hp.
  destruct (proj1 (validateIndexProjection_accepts entryKeys cklen))
    as [Hlen Hall]; [by exists p |].
  unfold validateIndexProjection in Hp.
  destruct (Z.ltb_spec cklen (Z.of_nat (length entryKeys))); [lia |].
  destruct (markEntryKeys_ok cklen entryKeys
              (replicate (Z.to_nat cklen) false) Hall)
    as (keys & Hrun & Hl & Hbits); [by rewrite length_replicate |].
  rewrite Hrun in Hp. simpl in Hp. injection Hp as <-. simpl.
  assert (Hbits' : forall i : nat,
             keys !! i = Some true <-> Z.of_nat i ∈ entryKeys).
  { intros i. rewrite Hbits. split; [| by right].
    intros [Hrep | Hin]; [| done].
    apply lookup_replicate in Hrep as [? _]. done. }
  split_and!.
  - lia.
  - done.
  - rewrite negb_false_iff, forallb_forall. split.
    + intros Hone k Hk. rewrite <- (Z2Nat.id k) by lia. apply Hbits'.
      destruct (keys !! Z.to_nat k) as [b |] eqn:Hb.
      * f_equal. apply Hone. apply list_elem_of_In.
        by apply list_elem_of_lookup_2 in Hb.
      * apply lookup_ge_None in Hb. lia.
    + intros Hcov b Hb. apply list_elem_of_In in Hb.
      apply list_elem_of_lookup_1 in Hb as [i Hi].
      assert (Hi' := Hi). apply lookup_lt_Some in Hi'.
      specialize (Hcov (Z.of_nat i) ltac:(lia)).
      apply Hbits' in Hcov. congruence.
  - rewrite bool_decide_eq_true. by destruct entryKeys.
Qed.

Lemma firstAt_None (entryId j : Z) (ids : list Z) :
  firstAt entryId j ids = None <-> entryId ∉ ids.
Proof.
  revert j. induction ids as [| g ids IH]; intros j; simpl.
  - split; [intros _; apply not_elem_of_nil | done].
  - rewrite not_elem_of_cons. destruct (Z.eqb_spec entryId g).
    + split; [done | tauto].
    + rewrite IH. tauto.
Qed.

Lemma firstAt_Some (entryId j k : Z) (ids : list Z) :
  firstAt entryId j ids = Some k ->
  j <= k
  /\ ids !! Z.to_nat (k - j) = Some entryId
  /\ forall n : nat, (n < Z.to_nat (k - j))%nat -> ids !! n <> Some entryId.
Proof.
  revert j. induction ids as [| g ids IH]; intros j; simpl; [done |].
  destruct (Z.eqb_spec entryId g) as [-> | Hne].
  - intros [= ->]. rewrite Z.sub_diag. split_and!; [lia | done |]. simpl. lia.
  - intros Hf. destruct (IH _ Hf) as (Hle & Hat & Hfirst).
    replace (Z.to_nat (k - j)) with (S (Z.to_nat (k - (j + 1)))) by lia.
    split_and!; [lia | done |].
    intros [| n] Hn; simpl; [congruence |]. apply Hfirst. lia.
Qed.

Lemma projectGroups_ok (entryKeys groupKeys aggrs : list Z)
    (projGrp : list projGroup) :
  projectGroups entryKeys groupKeys aggrs = Ok projGrp ->
  Forall2 (resolves groupKeys aggrs) entryKeys projGrp.
Proof.
  revert projGrp. induction entryKeys as [| e es IH]; intros pg; simpl.
  - intros [= <-]. constructor.
  - destruct (firstAt e 0 groupKeys) as [j |] eqn:Hg.
    + destruct (projectGroups es groupKeys aggrs) as [pg' | |]; simpl; [| done..].
      intros [= <-]. constructor; [| by apply IH].
      apply firstAt_Some in Hg as (Hle & Hat & Hfirst).
      rewrite Z.sub_0_r in *. by split.
    + destruct (firstAt e 0 aggrs) as [j |] eqn:Ha; [| done].
      destruct (projectGroups es groupKeys aggrs) as [pg' | |]; simpl; [| done..].
      intros [= <-]. constructor; [| by apply IH].
      apply firstAt_None in Hg.
      apply firstAt_Some in Ha as (Hle & Hat & Hfirst).
      rewrite Z.sub_0_r in *. by split.
Qed.

Lemma projectGroups_accepts (entryKeys groupKeys aggrs : list Z) :
  (exists pg, projectGroups entryKeys groupKeys aggrs = Ok pg)
  <-> Forall (fun e => e ∈ groupKeys \/ e ∈ aggrs) entryKeys.
Proof.
  induction entryKeys as [| e es IH]; simpl.
  - split; [constructor | by eexists].
  - rewrite Forall_cons, <- IH.
    destruct (firstAt e 0 groupKeys) as [j |] eqn:Hg.
    + apply firstAt_Some in Hg as (_ & Hat & _).
      apply list_elem_of_lookup_2 in Hat.
      destruct (projectGroups es groupKeys aggrs) as [pg' | |]; simpl.
      * split; [intros _; split; [by left | by eexists] | by eexists].
      * split; [by intros [? ?] | by intros [_ [? ?]]].
      * split; [by intros [? ?] | by intros [_ [? ?]]].
    + apply firstAt_None in Hg.
      destruct (firstAt e 0 aggrs) as [j |] eqn:Ha.
      * apply firstAt_Some in Ha as (_ & Hat & _).
        apply list_elem_of_lookup_2 in Hat.
        destruct (projectGroups es groupKeys aggrs) as [pg' | |]; simpl.
        -- split; [intros _; split; [by right | by eexists] | by eexists].
        -- split; [by intros [? ?] | by intros [_ [? ?]]].
        -- split; [by intros [? ?] | by intros [_ [? ?]]].
      * apply firstAt_None in Ha. split; [by intros [? ?] |].
        intros [[? | ?] _]; done.
Qed.

(** X10. In the projection that [validateIndexProjectionGroupAggr]
    returns, each entry key is resolved to the first group key with its
    id, and to the first aggregate with its id only when no group key
    has it. *)
Theorem validateIndexProjectionGroupAggr_resolves
    (entryKeys groupKeys aggrs : list Z) (p : Projection) :
  validateIndexProjectionGroupAggr entryKeys groupKeys aggrs = Ok p ->
  entryKeys <> []
  /\ projectSecKeys p = true
  /\ Forall2 (resolves groupKeys aggrs) entryKeys (projectGroupKeys p).
Proof.
  unfold validateIndexProjectionGroupAggr. intros Hp.
  destruct (Z.leb_spec (Z.of_nat (length entryKeys)) 0); [done |].
  destruct (projectGroups entryKeys groupKeys aggrs) as [pg | |] eqn:Hpg;
    simpl in Hp; [| done..].
  injection Hp as <-. simpl. split_and!; [| done | by apply projectGroups_ok].
  intros ->. simpl in *. lia.
Qed.

(** X11. [validateIndexProjectionGroupAggr] accepts a projection
    exactly when it has an entry key and every entry key is the id of a
    group key or of an aggregate. *)
Theorem validateIndexProjectionGroupAggr_accepts
    (entryKeys groupKeys aggrs : list Z) :
  (exists p, validateIndexProjectionGroupAggr entryKeys groupKeys aggrs = Ok p)
  <-> entryKeys <> []
      /\ Forall (fun e => e ∈ groupKeys \/ e ∈ aggrs) entryKeys.
Proof.
  unfold validateIndexProjectionGroupAggr. rewrite <- projectGroups_accepts.
  destruct (Z.leb_spec (Z.of_nat (length entryKeys)) 0) as [Hle | Hlt].
  - assert (entryKeys = []) as -> by (destruct entryKeys; [done | simpl in Hle; lia]).
    split; [by intros [? ?] | by intros [? _]].
  - assert (entryKeys <> []) by (intros ->; simpl in Hlt; lia).
    destruct (projectGroups entryKeys groupKeys aggrs) as [pg | |]; simpl.
    + split; [intros _; split; [done | by eexists] | by eexists].
    + split; [by intros [? ?] | by intros [_ [? ?]]].
    + split; [by intros [? ?] | by intros [_ [? ?]]].
Qed.

(** The entry keys 0 and 2 of an index of three keys. *)
Lemma validateIndexProjection_keys_witness :
  let p := mkProjection true [true; false; true] false [] in
  Z.of_nat (length (projectionKeys p)) = 3
  /\ (projectionKeys p !! 2%nat = Some true <-> 2 ∈ [0; 2]).
Proof.
  intros p.
  destruct (validateIndexProjection_keys [0; 2] 3 p eq_refl)
    as (Hlen & Hbits & _).
  split; [exact Hlen | exact (Hbits 2%nat)].
Defined.

(** The entry 5 is the group key at position 0 although an aggregate
    has the id 5 as well; the entry 9 is the aggregate at position 0. *)
Lemma validateIndexProjectionGroupAggr_resolves_witness :
  Forall2 (resolves [5] [9; 5]) [5; 9]
          [mkProjGroup 0 true; mkProjGroup 0 false].
Proof.
  apply (validateIndexProjectionGroupAggr_resolves [5; 9] [5] [9; 5]
           (mkProjection true [] false
                         [mkProjGroup 0 true; mkProjGroup 0 false])).
  reflexivity.
Defined.

End ProjectionProofs.

(** ** Planner: inclusion, order and composition *)

Module PlanProofs.
Import Planner PlanSpec.

Lemma lowInclude_cases (l : list Inclusion) :
  (lowInclude l = 1 /\ exists j, j ∈ l /\ includesLow j)
  \/ (lowInclude l = 0 /\ forall j, j ∈ l -> ~ includesLow j).
Proof.
  unfold lowInclude, includesLow. destruct (existsb _ l) eqn:Hex.
  - left. split; [done |].
    apply existsb_exists in Hex as (j & Hj & Hc).
    exists j. split; [by apply list_elem_of_In | by apply bool_decide_eq_true_1 in Hc].
  - right. split; [done |]. intros j Hj Hc.
    apply not_true_iff_false in Hex. apply Hex, existsb_exists.
    exists j. split; [by apply list_elem_of_In | by apply bool_decide_eq_true_2].
Qed.

Lemma highInclude_cases (l : list Inclusion) :
  (highInclude l = 1 /\ exists j, j ∈ l /\ includesHigh j)
  \/ (highInclude l = 0 /\ forall j, j ∈ l -> ~ includesHigh j).
Proof.
  unfold highInclude, includesHigh. destruct (existsb _ l) eqn:Hex.
  - left. split; [done |].
    apply existsb_exists in Hex as (j & Hj & Hc).
    exists j. split; [by apply list_elem_of_In | by apply bool_decide_eq_true_1 in Hc].
  - right. split; [done |]. intros j Hj Hc.
    apply not_true_iff_false in Hex. apply Hex, existsb_exists.
    exists j. split; [by apply list_elem_of_In | by apply bool_decide_eq_true_2].
Qed.

(** X12. The inclusion that [inclusionMatrix] gives for the results of
    [lowInclude] and [highInclude] takes in the low end exactly when
    some inclusion of the first list does, and the high end exactly when
    some inclusion of the second list does. *)
Theorem merged_inclusion (lows highs : list Inclusion) :
  let i := inclusionMatrix (lowInclude lows) (highInclude highs) in
  (includesLow i <-> exists j, j ∈ lows /\ includesLow j)
  /\ (includesHigh i <-> exists j, j ∈ highs /\ includesHigh j).
Proof.
  destruct (lowInclude_cases lows) as [[-> Hlo] | [-> Hlo]];
    destruct (highInclude_cases highs) as [[-> Hhi] | [-> Hhi]];
    unfold includesLow, includesHigh in *; simpl;
    (split;
     (split;
      [intros [? | ?]; (discriminate || assumption)
      | intros (j & Hj & Hc); first [by left | by right
             | by destruct (Hlo j Hj Hc) | by destruct (Hhi j Hj Hc)]])).
Qed.

Lemma bytes_Compare_range (a b : bytes) :
  bytes_Compare a b = -1 \/ bytes_Compare a b = 0 \/ bytes_Compare a b = 1.
Proof.
  revert b. induction a as [| x a IH]; intros [| y b]; simpl; auto.
  destruct (N.compare _ _); auto.
Qed.

Lemma bytes_Compare_antisym (a b : bytes) :
  bytes_Compare b a = - bytes_Compare a b.
Proof.
  revert b. induction a as [| x a IH]; intros [| y b]; simpl; try done.
  rewrite (N.compare_antisym (Byte.to_N x) (Byte.to_N y)).
  destruct (N.compare (Byte.to_N x) (Byte.to_N y)); simpl; auto.
Qed.

Lemma bytes_Compare_lt_trans (a b c : bytes) :
  bytes_Compare a b < 0 -> bytes_Compare b c < 0 -> bytes_Compare a c < 0.
Proof.
  revert b c. induction a as [| x a IH]; intros [| y b] [| z c]; simpl;
    try lia.
  destruct (N.compare_spec (Byte.to_N x) (Byte.to_N y)) as [Hxy | Hxy | Hxy];
    destruct (N.compare_spec (Byte.to_N y) (Byte.to_N z)) as [Hyz | Hyz | Hyz];
    destruct (N.compare_spec (Byte.to_N x) (Byte.to_N z)) as [Hxz | Hxz | Hxz];
    try lia.
  apply IH.
Qed.

(** X13. On keys that are not nil, [IndexKeyLessThan] is transitive;
    two keys are each less than the other only when both are the
    minimum key; the minimum key is less than every key, itself
    included, and the maximum key is less than none. *)
Theorem IndexKeyLessThan_order (a b c : IndexKey) :
  a <> nilKey -> b <> nilKey -> c <> nilKey ->
  (IndexKeyLessThan a b = true -> IndexKeyLessThan b c = true ->
   IndexKeyLessThan a c = true)
  /\ (IndexKeyLessThan a b = true -> IndexKeyLessThan b a = true ->
      a = MinIndexKey /\ b = MinIndexKey)
  /\ IndexKeyLessThan MinIndexKey b = true
  /\ IndexKeyLessThan MaxIndexKey b = false.
Proof.
  intros _ _ _. unfold IndexKeyLessThan. split_and!; [| | done | done].
  - repeat case_decide; try done.
    rewrite !Z.ltb_lt. apply bytes_Compare_lt_trans.
  - repeat case_decide; subst; try done.
    rewrite !Z.ltb_lt, (bytes_Compare_antisym (Bytes a) (Bytes b)). lia.
Qed.

Section Short.
Context `{KeyOps}.
Variable r : ScanRequest.

Lemma primaryLoop_app (pre rest : list ProtoScan) filters points scans :
  primaryLoop r (pre ++ rest) filters points scans
  = e ← primaryLoop r pre filters points scans;
    match e with
    | Fallthrough f p s => primaryLoop r rest f p s
    | Return s => Ok (Return s)
    end.
Proof.
  revert filters points scans.
  induction pre as [| sc pre IH]; intros filters points scans; [done |].
  cbn [app primaryLoop].
  destruct (ps_Equals sc) as [| eq0 eqs].
  - destruct (ps_Filters sc) as [| fl fls]; [done |].
    destruct (areFiltersNil r sc); [done |].
    destruct (wrapErr _ (newLowKey r (pf_Low fl))) as [l | |]; simpl; [| done..].
    destruct (wrapErr _ (newHighKey r (pf_High fl))) as [h | |]; simpl; [| done..].
    destruct (IndexKeyLessThan h l).
    { destruct (getEmptyScan r) as [e | |]; simpl; [apply IH | done..]. }
    destruct (_ && _).
    { destruct (getEmptyScan r) as [e | |]; simpl; [apply IH | done..]. }
    apply IH.
  - destruct (wrapErr _ (newKey r eq0)) as [k | |]; simpl; [apply IH | done..].
Qed.

Lemma secondaryLoop_app (pre rest : list ProtoScan) filters points :
  secondaryLoop r (pre ++ rest) filters points
  = e ← secondaryLoop r pre filters points;
    match e with
    | Fallthrough f p _ => secondaryLoop r rest f p
    | Return s => Ok (Return s)
    end.
Proof.
  revert filters points.
  induction pre as [| sc pre IH]; intros filters points; [done |].
  cbn [app secondaryLoop].
  destruct (ps_Equals sc) as [| eq0 eqs].
  - destruct (ps_Filters sc) as [| fl fls]; [done |].
    destruct (areFiltersNil r sc); [done |].
    destruct (encodeFilters r _ []) as [[cfs |] | |]; simpl; [| apply IH | done..].
    destruct (fillFilterLowHigh r cfs) as [[lo hi] | |]; simpl; [apply IH | done..].
  - destruct (fillFilterEquals r sc) as [f | |]; simpl; [apply IH | done..].
Qed.

(** X14. A scan without equals whose filters are all unbounded turns
    the plan of the whole request into the single scan of everything,
    whatever the scans before it added and whatever follows it, when the
    scans before it are planned without an early return. *)
Theorem unbounded_scan_is_ScanAll (pre post : list ProtoScan) (sc : ProtoScan) :
  plansOn r pre ->
  ps_Equals sc = [] ->
  areFiltersNil r sc = true ->
  fillScans r (pre ++ sc :: post) = Ok [getScanAll].
Proof.
  intros Hpre Heq Hnil. unfold fillScans, plansOn in *.
  destruct (pre ++ sc :: post) as [| x xs] eqn:Hl; [by destruct pre |].
  rewrite <- Hl. clear x xs Hl.
  destruct (isPrimary r).
  - destruct Hpre as (f & p & s & Hpre).
    rewrite primaryLoop_app, Hpre. simpl. rewrite Heq, Hnil.
    by destruct (ps_Filters sc).
  - destruct Hpre as (f & p & s & Hpre).
    rewrite secondaryLoop_app, Hpre. simpl. rewrite Heq, Hnil.
    by destruct (ps_Filters sc).
Qed.

End Short.


Section Compose.
Context `{KeyOps}.
Variable r : ScanRequest.

Lemma filterAt_ok (filters : list Filter) (ids : list Z) :
  Forall (validId filters) ids ->
  exists fs, mapM (filterAt filters) ids = Ok fs /\ length fs = length ids.
Proof.
  induction 1 as [| id ids [Hlo Hhi] _ (fs & IH & Hlen)]; [by exists [] |].
  simpl. rewrite IH. unfold filterAt.
  destruct (decide (0 <= id)); [| lia].
  destruct (filters !! Z.to_nat id) as [f |] eqn:Hf.
  - exists (f :: fs). simpl. split; [done | by rewrite Hlen].
  - apply lookup_ge_None in Hf. lia.
Qed.

Lemma Forall_removelast {A} (P : A -> Prop) (l : list A) :
  Forall P l -> Forall P (removelast l).
Proof.
  induction 1 as [| x l Hx Hl IH]; [constructor |]. simpl.
  destruct l; [constructor | by constructor].
Qed.

Lemma composeStep_ok (filters : list Filter) (st : sweep) (p : IndexPoint) :
  sweepOk filters st -> validId filters (FilterId p) ->
  exists st', composeStep filters st p = Ok st' /\ sweepOk filters st'.
Proof.
  intros (Hvalid & Hrec & Hscans) Hp. unfold composeStep.
  destruct (decide (FilterId p ∈ sw_filtersMap st)) as [Hin | Hnotin].
  - destruct (decide (sw_filtersMap st ∖ {[FilterId p]} = ∅)) as [Hempty | Hne].
    + destruct (filterAt_ok filters _ Hvalid) as (fs & -> & Hlen).
      assert (Hfs : fs <> []).
      { apply Hrec in Hin. destruct (sw_filtersList st); [by apply elem_of_nil in Hin |].
        by destruct fs. }
      cbn. rewrite Hempty.
      destruct (last (sw_scans st)) as [prev |] eqn:Hlast.
      * destruct (_ =? 0); eexists; (split; [done |]);
          (split_and!; cbn; [constructor | set_solver |]).
        -- apply Forall_app. split.
           ++ by apply Forall_removelast.
           ++ constructor; [| constructor]. cbn. intros Happ.
              apply app_eq_nil in Happ as [_ ?]. done.
        -- apply Forall_app. split; [done |]. constructor; [done | constructor].
      * eexists. split; [done |]. split_and!; cbn; [constructor | set_solver |].
        constructor; [done | constructor].
    + eexists. split; [done |]. split_and!; cbn; [done | | done].
      intros id Hid. apply Hrec. apply elem_of_difference in Hid. tauto.
  - eexists. split; [done |]. split_and!; cbn; [| | done].
    + apply Forall_app. split; [done |]. by constructor.
    + intros id Hid. apply elem_of_app.
      apply elem_of_union in Hid as [Hid | Hid]; [right | left; auto].
      apply elem_of_singleton in Hid as ->. apply elem_of_cons. by left.
Qed.

Lemma composeLoop_ok (filters : list Filter) (points : list IndexPoint)
    (st : sweep) :
  sweepOk filters st ->
  Forall (fun p => validId filters (FilterId p)) points ->
  exists st', composeLoop filters st points = Ok st' /\ sweepOk filters st'.
Proof.
  intros Hst Hall. revert st Hst.
  induction Hall as [| p points Hp _ IH]; intros st Hst; [by exists st |].
  cbn [composeLoop].
  destruct (composeStep_ok filters st p Hst Hp) as (st1 & -> & Hst1).
  cbn. by apply IH.
Qed.

Lemma collapseScan_Filters (sc : Scan) :
  s_Filters (collapseScan r sc) = s_Filters sc.
Proof.
  unfold collapseScan.
  destruct (s_Filters sc) as [| f [| f' fs]] eqn:Hfs; cbn; rewrite ?Hfs; try done.
  destruct (decide (f_ScanType f = LookupReq)); cbn; rewrite ?Hfs;
    destruct (CompositeFilters f) as [| cf [| cf' cfs]]; try done;
    by case_decide.
Qed.

Lemma composeScans_ok (points : list IndexPoint) (filters : list Filter) :
  Forall (fun p => validId filters (FilterId p)) points ->
  exists scans,
    composeScans r points filters = Ok scans
    /\ Forall (fun sc => s_Filters sc <> []) scans.
Proof.
  intros Hall. unfold composeScans.
  destruct (composeLoop_ok filters points (mkSweep [] ∅ [] nilKey))
    as (st & -> & _ & _ & Hscans); [| done |].
  { split_and!; cbn; [constructor | set_solver | constructor]. }
  cbn. eexists. split; [done |].
  apply Forall_map. eapply Forall_impl; [exact Hscans |].
  intros sc Hsc. cbn. by rewrite collapseScan_Filters.
Qed.

(** X15. When every point names a filter of the list, [composeScans]
    returns scans, in whatever order the points come, and each scan it
    returns carries at least one filter. *)
Theorem composeScans_total (points : list IndexPoint) (filters : list Filter) :
  Forall (fun p => 0 <= FilterId p < Z.of_nat (length filters)) points ->
  exists scans,
    composeScans r points filters = Ok scans
    /\ Forall (fun sc => s_Filters sc <> []) scans.
Proof. intros Hall. by apply composeScans_ok. Qed.

Lemma validId_grow (filters : list Filter) (f : Filter) (id : Z) :
  validId filters id -> validId (filters ++ [f]) id.
Proof. unfold validId. rewrite length_app. simpl. lia. Qed.

Lemma endpoints_valid (filters : list Filter) (f : Filter) :
  Forall (fun p => validId (filters ++ [f]) (FilterId p)) (endpoints filters f).
Proof.
  unfold endpoints, validId. rewrite length_app. simpl.
  repeat constructor; simpl; lia.
Qed.

Lemma secondaryLoop_valid (protoScans : list ProtoScan) filters points
    filters' points' scans' :
  Forall (fun p => validId filters (FilterId p)) points ->
  secondaryLoop r protoScans filters points
  = Ok (Fallthrough filters' points' scans') ->
  Forall (fun p => validId filters' (FilterId p)) points'.
Proof.
  revert filters points.
  induction protoScans as [| sc rest IH]; intros filters points Hvalid; simpl.
  - by intros [= <- <- <-].
  - assert (Hstep : forall f,
               Forall (fun p => validId (filters ++ [f]) (FilterId p))
                      (points ++ endpoints filters f)).
    { intros f. apply Forall_app. split; [| apply endpoints_valid].
      eapply Forall_impl; [exact Hvalid |]. intros p. apply validId_grow. }
    destruct (ps_Equals sc) as [| eq0 eqs].
    + destruct (ps_Filters sc) as [| fl fls]; [done |].
      destruct (areFiltersNil r sc); [done |].
      destruct (encodeFilters r _ []) as [[cfs |] | |]; simpl; [| by apply IH | done..].
      destruct (fillFilterLowHigh r cfs) as [[lo hi] | |]; simpl; [| done..].
      by apply IH.
    + destruct (fillFilterEquals r sc) as [f | |]; simpl; [| done..].
      by apply IH.
Qed.

(** X16. The points that the loop of [fillScans] over the scans of a
    secondary index collects name filters that it collected, so that
    [composeScans] returns scans for them in any order, and for any part
    of them. *)
Theorem planned_points_compose (protoScans : list ProtoScan) filters points
    scans (sorted : list IndexPoint) :
  secondaryLoop r protoScans [] [] = Ok (Fallthrough filters points scans) ->
  (forall p, p ∈ sorted -> p ∈ points) ->
  exists out,
    composeScans r sorted filters = Ok out
    /\ Forall (fun sc => s_Filters sc <> []) out.
Proof.
  intros Hloop Hsub. apply composeScans_ok.
  apply secondaryLoop_valid in Hloop; [| constructor].
  rewrite Forall_forall in Hloop. apply Forall_forall.
  intros p Hp. by apply Hloop, Hsub.
Qed.

End Compose.


Section Merge.
Context `{KeyOps}.

(** X17. On a primary index the first filter becomes a range scan with
    its bounds and inclusion, and merging in the same filter again
    leaves that scan as it is, for a filter whose low key is not above
    its high key and whose keys compare equal to themselves. *)
Theorem MergeFiltersForPrimary_idempotent (f : Filter) :
  f_Low f <> nilKey -> f_High f <> nilKey ->
  ComparePrefixIndexKey (f_Low f) (f_Low f) = 0 ->
  ComparePrefixIndexKey (f_High f) (f_High f) = 0 ->
  ComparePrefixIndexKey (f_Low f) (f_High f) <= 0 ->
  (ComparePrefixIndexKey (f_High f) (f_Low f) = 0 -> f_Inclusion f <> Neither) ->
  MergeFiltersForPrimary (MergeFiltersForPrimary [] f) f
  = MergeFiltersForPrimary [] f
  /\ MergeFiltersForPrimary [] f
     = [mkScan (f_Low f) (f_High f) (f_Inclusion f) RangeReq [] nilKey].
Proof.
  intros Hl Hh Hll Hhh Hlh Hincl. split; [| done].
  unfold MergeFiltersForPrimary. cbn.
  destruct (Z.ltb_spec 0 (ComparePrefixIndexKey (f_Low f) (f_High f))); [lia |].
  assert ((ComparePrefixIndexKey (f_High f) (f_Low f) =? 0)
          && negb (bool_decide (f_Inclusion f = High \/ f_Inclusion f = Both
                                \/ f_Inclusion f = Low \/ f_Inclusion f = Both))
          = false) as ->.
  { destruct (Z.eqb_spec (ComparePrefixIndexKey (f_High f) (f_Low f)) 0) as [Hz |];
      [| done].
    specialize (Hincl Hz). simpl. apply negb_false_iff, bool_decide_eq_true_2.
    destruct (f_Inclusion f); auto. done. }
  rewrite Hll, Hhh. cbn.
  rewrite !decide_False by done.
  by destruct (f_Inclusion f).
Qed.

End Merge.


(** *** Runs on raw keys *)

(** "a" is less than "b" and "b" less than "c". *)
Lemma IndexKeyLessThan_order_witness :
  IndexKeyLessThan (key "a") (key "c") = true.
Proof.
  destruct (IndexKeyLessThan_order (key "a") (key "b") (key "c"))
    as (Htrans & _); [done | done | done |].
  apply Htrans; reflexivity.
Defined.

(** An unbounded scan between two range scans. *)
Lemma unbounded_scan_is_ScanAll_witness :
  fillScans (H := rawKeys) secondaryRequest
            [rangeScan "a" "b"; unboundedScan; rangeScan "c" "d"]
  = Ok [getScanAll].
Proof.
  apply (unbounded_scan_is_ScanAll (H := rawKeys) secondaryRequest
           [rangeScan "a" "b"] [rangeScan "c" "d"] unboundedScan).
  - do 3 eexists. reflexivity.
  - reflexivity.
  - reflexivity.
Defined.

(** The high point of a filter before its low point. *)
Lemma composeScans_total_witness :
  exists scans,
    composeScans (H := rawKeys) secondaryRequest
                 [mkPoint (key "b") 0 "high"; mkPoint (key "a") 0 "low"]
                 [rangeFilter "a" "b"]
    = Ok scans
    /\ Forall (fun sc => s_Filters sc <> []) scans.
Proof.
  apply (composeScans_total (H := rawKeys) secondaryRequest).
  repeat constructor; cbn; lia.
Defined.

(** The low points of two range scans, the later scan first. *)
Lemma planned_points_compose_witness :
  exists out,
    composeScans (H := rawKeys) secondaryRequest
                 [mkPoint (key "c") 1 "low"; mkPoint (key "a") 0 "low"]
                 [rangeFilter "a" "b"; rangeFilter "c" "d"]
    = Ok out
    /\ Forall (fun sc => s_Filters sc <> []) out.
Proof.
  apply (planned_points_compose (H := rawKeys) secondaryRequest
           [rangeScan "a" "b"; rangeScan "c" "d"]
           [rangeFilter "a" "b"; rangeFilter "c" "d"]
           [mkPoint (key "a") 0 "low"; mkPoint (key "b") 0 "high";
            mkPoint (key "c") 1 "low"; mkPoint (key "d") 1 "high"] []).
  - reflexivity.
  - intros p Hp. apply elem_of_cons in Hp as [-> | Hp].
    + do 2 right. left.
    + apply list_elem_of_singleton in Hp as ->. left.
Defined.

(** The filter from "a" to "b" merged into its own scan. *)
Lemma MergeFiltersForPrimary_idempotent_witness :
  MergeFiltersForPrimary (H := rawKeys)
    (MergeFiltersForPrimary (H := rawKeys) [] (primaryFilter "a" "b"))
    (primaryFilter "a" "b")
  = MergeFiltersForPrimary (H := rawKeys) [] (primaryFilter "a" "b").
Proof.
  apply (MergeFiltersForPrimary_idempotent (H := rawKeys)
           (primaryFilter "a" "b")).
  - done.
  - done.
  - reflexivity.
  - reflexivity.
  - by vm_compute.
  - done.
Defined.

End PlanProofs.

(** ** Snapshot workers *)

Module WorkerProofs.
Import Storage Workers.

Lemma concat_insert_snoc {A} (out : list (list A)) (k : nat) (l : list A)
    (x : A) :
  out !! k = Some l ->
  concat (<[k := l ++ [x]]> out) ≡ₚ concat out ++ [x].
Proof.
  revert k. induction out as [| w out IH]; intros [| k]; simpl; try done.
  - intros [= ->]. rewrite <- !app_assoc. apply Permutation_app_head.
    apply Permutation_app_comm.
  - intros Hk. rewrite (IH _ Hk). by rewrite app_assoc.
Qed.

Lemma distribute_ok (n i : Z) (instList : list Z) (out : list (list Z)) :
  0 < n -> 0 <= i -> Z.of_nat (length out) = n ->
  exists out',
    distribute n i instList out = Ok out'
    /\ Z.of_nat (length out') = n
    /\ concat out' ≡ₚ concat out ++ instList
    /\ (forall k w, out !! k = Some w ->
          exists w', out' !! k = Some w' /\ forall x, x ∈ w -> x ∈ w')
    /\ (forall (j : nat) id, instList !! j = Some id ->
          exists w, out' !! Z.to_nat ((i + Z.of_nat j) mod n) = Some w
                    /\ id ∈ w).
Proof.
  intros Hn. revert i out.
  induction instList as [| id rest IH]; intros i out Hi Hlen; simpl.
  - exists out. rewrite app_nil_r. split_and!; try done.
    intros k w Hk. by exists w.
  - destruct (Z.eqb_spec n 0); [lia |].
    rewrite Z.rem_mod_nonneg by lia.
    pose proof (Z.mod_pos_bound i n Hn) as Hb.
    destruct (decide (0 <= i mod n)); [| lia].
    destruct (out !! Z.to_nat (i mod n)) as [l0 |] eqn:Hl;
      [| apply lookup_ge_None in Hl; lia].
    destruct (IH (i + 1) (<[Z.to_nat (i mod n) := l0 ++ [id]]> out))
      as (out' & Hrun & Hlen' & Hperm & Hmono & Hpos);
      [lia | by rewrite length_insert |].
    exists out'. split_and!; [done | done | | |].
    + rewrite Hperm, (concat_insert_snoc _ _ _ _ Hl).
      by rewrite <- app_assoc.
    + intros k w Hk.
      destruct (decide (k = Z.to_nat (i mod n))) as [-> | Hne].
      * destruct (Hmono (Z.to_nat (i mod n)) (l0 ++ [id])) as (w' & Hw' & Hsub).
        { apply list_lookup_insert_eq. apply lookup_lt_Some in Hl. lia. }
        exists w'. split; [done |]. intros x Hx. apply Hsub.
        rewrite Hl in Hk. injection Hk as <-. apply elem_of_app. by left.
      * apply Hmono. by rewrite list_lookup_insert_ne.
    + intros [| j] id' Hj; simpl in Hj.
      * injection Hj as <-. rewrite Z.add_0_r.
        destruct (Hmono (Z.to_nat (i mod n)) (l0 ++ [id])) as (w' & Hw' & Hsub).
        { apply list_lookup_insert_eq. apply lookup_lt_Some in Hl. lia. }
        exists w'. split; [done |]. apply Hsub, elem_of_app. right.
        apply elem_of_cons. by left.
      * destruct (Hpos j id' Hj) as (w & Hw & Hin). exists w.
        split; [| done].
        by replace (i + Z.of_nat (S j)) with (i + 1 + Z.of_nat j) by lia.
Qed.

Lemma instsPerWorker_partition (instList : list Z) (configured : Z) :
  let n := getNumSnapshotWorkers configured in
  exists out,
    instsPerWorker instList n = Ok out
    /\ Z.of_nat (length out) = n
    /\ concat out ≡ₚ instList
    /\ forall (j : nat) id, instList !! j = Some id ->
         exists w, out !! Z.to_nat (Z.of_nat j mod n) = Some w /\ id ∈ w.
Proof.
  intros n.
  assert (Hn : 0 < n).
  { unfold n, getNumSnapshotWorkers. destruct (Z.ltb_spec configured 1); lia. }
  unfold instsPerWorker. destruct (Z.ltb_spec n 0); [lia |].
  destruct (distribute_ok n 0 instList (replicate (Z.to_nat n) []))
    as (out & Hrun & Hlen & Hperm & _ & Hpos);
    [done | done | rewrite length_replicate; lia |].
  exists out. split_and!; [done | done | |].
  - rewrite Hperm. clear. induction (Z.to_nat n); [done |]. done.
  - intros j id Hj. destruct (Hpos j id Hj) as (w & Hw & Hin).
    exists w. by rewrite Z.add_0_l in Hw.
Qed.

(** X18. With the number of workers that [getNumSnapshotWorkers]
    gives, [getStreamKeyspaceIdInstsPerWorker] does not panic; for each
    stream and keyspace it makes one list per worker, the lists together
    hold the instances of the keyspace, each one once, and the instance
    at position [j] is with the worker [j mod n]. *)
Theorem workers_share_instances (lists : gmap (Z * string) (list Z))
    (configured : Z) :
  let n := getNumSnapshotWorkers configured in
  exists out,
    getStreamKeyspaceIdInstsPerWorker lists n = Ok out
    /\ forall key,
         match lists !! key with
         | Some instList =>
             exists perWorker,
               out !! key = Some perWorker
               /\ Z.of_nat (length perWorker) = n
               /\ concat perWorker ≡ₚ instList
               /\ forall (j : nat) id, instList !! j = Some id ->
                    exists w, perWorker !! Z.to_nat (Z.of_nat j mod n) = Some w
                              /\ id ∈ w
         | None => out !! key = None
         end.
Proof.
  intros n. unfold getStreamKeyspaceIdInstsPerWorker.
  apply (map_fold_weak_ind
           (fun acc (m : gmap (Z * string) (list Z)) =>
              exists out, acc = Ok out
                /\ forall key,
                     match m !! key with
                     | Some instList =>
                         exists perWorker,
                           out !! key = Some perWorker
                           /\ Z.of_nat (length perWorker) = n
                           /\ concat perWorker ≡ₚ instList
                           /\ forall (j : nat) id, instList !! j = Some id ->
                                exists w,
                                  perWorker !! Z.to_nat (Z.of_nat j mod n)
                                  = Some w /\ id ∈ w
                     | None => out !! key = None
                     end)).
  - exists ∅. split; [done |]. intros key. by rewrite !lookup_empty.
  - intros key instList m acc Hkey (out & -> & IH).
    destruct (instsPerWorker_partition instList configured)
      as (perWorker & Hrun & Hlen & Hperm & Hpos).
    fold n in Hrun, Hlen, Hpos. simpl. rewrite Hrun. simpl.
    eexists. split; [done |]. intros key'.
    destruct (decide (key' = key)) as [-> | Hne].
    + rewrite !lookup_insert_eq. by exists perWorker.
    + rewrite !lookup_insert_ne by done. apply IH.
Qed.

Lemma fold_instList (entries : list (Z * IndexInst))
    (out : gmap (Z * string) (list Z)) (key : Z * string) :
  let r := fold_left
             (fun out '(instId, inst) =>
                <[keyOf inst := default [] (out !! keyOf inst) ++ [instId]]> out)
             entries out in
  let mine := (filter (fun e => keyOf e.2 = key) entries).*1 in
  default [] (r !! key) = default [] (out !! key) ++ mine
  /\ (r !! key = None <-> out !! key = None /\ mine = []).
Proof.
  revert out. induction entries as [| [instId inst] entries IH]; intros out.
  - cbn. rewrite app_nil_r. tauto.
  - cbn [fold_left]. rewrite filter_cons. cbn [snd].
    destruct (IH (<[keyOf inst := default [] (out !! keyOf inst) ++ [instId]]>
                    out)) as [Hl Hn].
    cbn zeta in Hl, Hn. rewrite Hl, Hn.
    destruct (decide (keyOf inst = key)) as [-> | Hne].
    + rewrite lookup_insert_eq. cbn. rewrite <- app_assoc.
      split; [done |]. split; [by intros [? _] | by intros [_ ?]].
    + by rewrite lookup_insert_ne by done.
Qed.

(** X19. In the result of [getStreamKeyspaceIdInstListFromInstMap] the
    list of a stream and keyspace holds the instances of that stream and
    keyspace, in the order in which the range visits them, and a stream
    and keyspace without an instance has no list. *)
Theorem instList_of_keyspace (entries : list (Z * IndexInst))
    (stream : Z) (keyspaceId : string) :
  let mine :=
    (filter (fun e => Stream e.2 = stream /\ KeyspaceId e.2 = keyspaceId)
            entries).*1 in
  getStreamKeyspaceIdInstListFromInstMap entries !! (stream, keyspaceId)
  = if decide (mine = []) then None else Some mine.
Proof.
  intros mine.
  destruct (fold_instList entries ∅ (stream, keyspaceId)) as [Hl Hn].
  fold (getStreamKeyspaceIdInstListFromInstMap entries) in Hl, Hn.
  rewrite lookup_empty in Hl, Hn. cbn in Hl.
  assert (Hmine : (filter (fun e => keyOf e.2 = (stream, keyspaceId)) entries).*1
                  = mine).
  { subst mine. f_equal. apply list_filter_iff. intros [i inst]. cbn.
    unfold keyOf. split; [by intros [= -> ->] | by intros [-> ->]]. }
  rewrite Hmine in Hl, Hn.
  destruct (decide (mine = [])) as [Hnil | Hnil].
  - apply Hn. by split.
  - destruct (getStreamKeyspaceIdInstListFromInstMap entries
                !! (stream, keyspaceId)) as [l |] eqn:Hk.
    + cbn in Hl. by rewrite Hl.
    + destruct Hn as [Hn _]. by destruct (Hn eq_refl).
Qed.

End WorkerProofs.

(** ** Requests, publication, merge and rollback to zero *)

Module RequestProofs.
Import Storage Requests StorageProofs.

Section Served.
Context {S : Type} `{SliceOps S} `{Env}.
Implicit Type m : storageMgr S.

Lemma refcount_Close (s : Snapshot) (refs : Refs) :
  refcount (Close s refs) (snap_addr s) = refcount refs (snap_addr s) - 1.
Proof. unfold refcount at 1, Close. by rewrite lookup_insert_eq. Qed.

Lemma refcount_Close_other (s : Snapshot) (refs : Refs) (a : Z) :
  snap_addr s <> a -> refcount (Close s refs) a = refcount refs a.
Proof. intros Hne. unfold refcount at 1, Close. by rewrite lookup_insert_ne. Qed.

Lemma refcount_closeAll (l : list Snapshot) (refs : Refs) (a : Z) :
  refcount (closeAll l refs) a
  = refcount refs a
    - Z.of_nat (length (filter (fun s => snap_addr s = a) l)).
Proof.
  revert refs. induction l as [| s l IH]; intros refs; [cbn; lia |].
  change (closeAll (s :: l) refs) with (closeAll l (Close s refs)).
  rewrite IH, filter_cons.
  destruct (decide (snap_addr s = a)) as [<- | Hne].
  - rewrite refcount_Close. cbn [length]. lia.
  - rewrite refcount_Close_other by done. lia.
Qed.

Lemma refcount_Clone (s : option indexSnapshot) (refs : Refs) (a : Z) :
  refcount (CloneIndexSnapshot s refs) a = refcount refs a + held s a.
Proof.
  destruct s as [i |]; simpl; [| lia]. apply refcount_openAll.
Qed.

Lemma refcount_Destroy (s : option indexSnapshot) (refs : Refs) (a : Z) :
  refcount (DestroyIndexSnapshot s refs) a = refcount refs a - held s a.
Proof.
  destruct s as [i |]; simpl; [| lia]. apply refcount_closeAll.
Qed.

Lemma refcount_iter_Clone (n : nat) (i : indexSnapshot) (refs : Refs) (a : Z) :
  refcount (Nat.iter n (CloneIndexSnapshot (Some i)) refs) a
  = refcount refs a + Z.of_nat n * holders (is_partns i) a.
Proof.
  induction n as [| n IH]; [simpl; lia |].
  rewrite Nat.iter_succ, refcount_Clone, IH. simpl held. lia.
Qed.

(** Publishing for an instance that has a container and a waiter list,
    field by field. *)
Lemma publish_run m (isnap : indexSnapshot) (now : Z)
    (snapC : IndexSnapshotContainer) (ws : list snapshotWaiter) :
  indexSnapMap m !! is_instId isnap = Some snapC ->
  waitersMap m !! is_instId isnap = Some ws ->
  let m' := updateSnapMapAndNotify m isnap now in
  let notified :=
    length (filter (fun w => outcomeOf now isnap w = Notified) ws) in
  waiterCh m'
  = waiterCh m ++ omap (fun w => replyOf isnap w (outcomeOf now isnap w)) ws
  /\ waitersMap m'
     = <[is_instId isnap := filter (fun w => outcomeOf now isnap w = Kept) ws]>
         (waitersMap m)
  /\ indexSnapMap m'
     = <[is_instId isnap := mkSnapC (Some isnap) (sc_creationTime snapC)
                                    (deleted snapC)]> (indexSnapMap m)
  /\ refs m'
     = Nat.iter notified (CloneIndexSnapshot (Some isnap))
         (if numNotifyCh m =? 0
          then DestroyIndexSnapshot (snap snapC) (refs m)
          else CloneIndexSnapshot (Some isnap)
                 (DestroyIndexSnapshot (snap snapC) (refs m))).
Proof.
  intros HsnapC Hws m' notified. subst m' notified.
  unfold updateSnapMapAndNotify, installSnapshot.
  rewrite HsnapC. cbn [negb]. rewrite HsnapC.
  set (m2 := setSnapMap _ _).
  unfold drainWaiters, notifySnapshotCreation.
  destruct (numNotifyCh m2 =? 0) eqn:Hn; subst m2; cbn in Hn; rewrite Hn;
    cbn; rewrite Hws; cbn; rewrite notifyWaiters_walk; cbn; rewrite Hws;
    done.
Qed.

(** X20. Publishing a snapshot for an instance that has a container
    and a waiter list changes the reference count of each storage
    snapshot by what the new snapshot holds of it, once for the
    listeners when there is a notification channel and once for each
    waiter that is notified, less what the replaced snapshot held of
    it. *)
Theorem publish_refcount m (isnap : indexSnapshot) (now : Z)
    (snapC : IndexSnapshotContainer) (ws : list snapshotWaiter) (a : Z) :
  indexSnapMap m !! is_instId isnap = Some snapC ->
  waitersMap m !! is_instId isnap = Some ws ->
  let m' := updateSnapMapAndNotify m isnap now in
  let notified :=
    Z.of_nat (length (filter (fun w => outcomeOf now isnap w = Notified) ws)) in
  let listeners := if numNotifyCh m =? 0 then 0 else 1 in
  refcount (refs m') a
  = refcount (refs m) a - held (snap snapC) a
    + (listeners + notified) * holders (is_partns isnap) a.
Proof.
  intros HsnapC Hws m' notified listeners.
  destruct (publish_run m isnap now snapC ws HsnapC Hws) as (_ & _ & _ & Hrefs).
  subst m' notified listeners. rewrite Hrefs, refcount_iter_Clone.
  destruct (numNotifyCh m =? 0).
  - rewrite refcount_Destroy. lia.
  - rewrite refcount_Clone, refcount_Destroy. simpl held. lia.
Qed.

(** X21. A snapshot of an instance that has no container and is
    unknown or deleted is not published: the manager stays as it is, and
    the snapshot is not destroyed. *)
Theorem publish_unknown_instance m (isnap : indexSnapshot) (now : Z) :
  indexSnapMap m !! is_instId isnap = None ->
  (forall inst, indexInstMap m !! is_instId isnap = Some inst ->
                State inst = INDEX_STATE_DELETED) ->
  updateSnapMapAndNotify m isnap now = m.
Proof.
  intros Hnone Hdead.
  unfold updateSnapMapAndNotify, installSnapshot, initSnapshotContainerForInst.
  rewrite Hnone.
  destruct (indexInstMap m !! is_instId isnap) as [inst |]; [| done].
  by rewrite decide_True by auto.
Qed.

Lemma snapshotRequest_run m (req : MsgIndexSnapRequest) (now : Z)
    (inst : IndexInst) (snapC : IndexSnapshotContainer) (isnap : indexSnapshot)
    (ws : list snapshotWaiter) :
  indexInstMap m !! req_idxInstId req = Some inst ->
  State inst <> INDEX_STATE_DELETED ->
  indexSnapMap m !! req_idxInstId req = Some snapC ->
  deleted snapC = false ->
  snap snapC = Some isnap ->
  waitersMap m !! req_idxInstId req = Some ws ->
  exists m',
    snapshotRequest m req now = Ok m'
    /\ indexSnapMap m' = indexSnapMap m
    /\ if isSnapshotConsistent isnap (req_cons req) (req_ts req) then
         waiterCh m' = waiterCh m ++ [(respch req, ReplySnapshot isnap)]
         /\ waitersMap m' = waitersMap m
         /\ forall a, refcount (refs m') a
                      = refcount (refs m) a + holders (is_partns isnap) a
       else
         waiterCh m' = waiterCh m
         /\ waitersMap m'
            = <[req_idxInstId req :=
                  ws ++ [mkWaiter (replyCh req) (req_ts req) (req_cons req)
                                  (req_idxInstId req) (req_expiredTime req)]]>
                (waitersMap m)
         /\ refs m' = refs m.
Proof.
  intros Hinst Hlive HsnapC Hdel Hsnap Hws. unfold snapshotRequest.
  rewrite Hinst, decide_False by done. rewrite HsnapC, HsnapC, Hdel, Hsnap.
  destruct (isSnapshotConsistent isnap (req_cons req) (req_ts req)).
  - eexists. split; [done |]. cbn. split_and!; try done.
    intros a. apply refcount_openAll.
  - rewrite Hws. cbn. eexists. split; [done |]. cbn. by rewrite Hws.
Qed.

(** X22. A request for a live instance whose container holds a
    snapshot is answered at once with that snapshot, which gets one more
    reference, when the snapshot satisfies the request; otherwise the
    request is added at the end of the waiter list of the instance and
    nothing is sent. *)
Theorem request_answered_or_parked m (req : MsgIndexSnapRequest) (now : Z)
    (inst : IndexInst) (snapC : IndexSnapshotContainer) (isnap : indexSnapshot)
    (ws : list snapshotWaiter) :
  indexInstMap m !! req_idxInstId req = Some inst ->
  State inst <> INDEX_STATE_DELETED ->
  indexSnapMap m !! req_idxInstId req = Some snapC ->
  deleted snapC = false ->
  snap snapC = Some isnap ->
  waitersMap m !! req_idxInstId req = Some ws ->
  exists m',
    snapshotRequest m req now = Ok m'
    /\ indexSnapMap m' = indexSnapMap m
    /\ if isSnapshotConsistent isnap (req_cons req) (req_ts req) then
         waiterCh m' = waiterCh m ++ [(respch req, ReplySnapshot isnap)]
         /\ waitersMap m' = waitersMap m
         /\ forall a, refcount (refs m') a
                      = refcount (refs m) a + holders (is_partns isnap) a
       else
         waiterCh m' = waiterCh m
         /\ waitersMap m'
            = <[req_idxInstId req :=
                  ws ++ [mkWaiter (replyCh req) (req_ts req) (req_cons req)
                                  (req_idxInstId req) (req_expiredTime req)]]>
                (waitersMap m)
         /\ refs m' = refs m.
Proof. apply snapshotRequest_run. Qed.

(** X23. A request that the current snapshot does not satisfy is
    parked, and the next snapshot published for the instance that
    satisfies it takes the request off the waiter list and answers it on
    its reply channel, with the snapshot, or with the timeout error when
    its deadline has passed. *)
Theorem parked_request_woken m (req : MsgIndexSnapRequest) (now later : Z)
    (inst : IndexInst) (snapC : IndexSnapshotContainer)
    (isnap next : indexSnapshot) (ws : list snapshotWaiter) :
  indexInstMap m !! req_idxInstId req = Some inst ->
  State inst <> INDEX_STATE_DELETED ->
  indexSnapMap m !! req_idxInstId req = Some snapC ->
  deleted snapC = false ->
  snap snapC = Some isnap ->
  waitersMap m !! req_idxInstId req = Some ws ->
  isSnapshotConsistent isnap (req_cons req) (req_ts req) = false ->
  is_instId next = req_idxInstId req ->
  isSnapshotConsistent next (req_cons req) (req_ts req) = true ->
  exists m1,
    snapshotRequest m req now = Ok m1
    /\ let m2 := updateSnapMapAndNotify m1 next later in
       let w := mkWaiter (replyCh req) (req_ts req) (req_cons req)
                         (req_idxInstId req) (req_expiredTime req) in
       (forall ws', waitersMap m2 !! req_idxInstId req = Some ws' -> w ∉ ws')
       /\ if bool_decide (req_expiredTime req <> 0
                          /\ req_expiredTime req < later)
          then (replyCh req, ReplyError ErrScanTimedOut) ∈ waiterCh m2
          else (replyCh req, ReplySnapshot next) ∈ waiterCh m2.
Proof.
  intros Hinst Hlive HsnapC Hdel Hsnap Hws Hnot Hid Hcons.
  destruct (snapshotRequest_run m req now inst snapC isnap ws)
    as (m1 & Hrun & Hmap & Hpark); try done.
  rewrite Hnot in Hpark. destruct Hpark as (Hch & Hwm & _).
  exists m1. split; [done |]. intros m2 w.
  assert (HsnapC1 : indexSnapMap m1 !! is_instId next = Some snapC)
    by (by rewrite Hid, Hmap).
  assert (Hws1 : waitersMap m1 !! is_instId next = Some (ws ++ [w]))
    by (by rewrite Hid, Hwm, lookup_insert_eq).
  destruct (publish_run m1 next later snapC (ws ++ [w]) HsnapC1 Hws1)
    as (Hch2 & Hwm2 & _).
  fold m2 in Hch2, Hwm2.
  destruct (outcomeOf_cases later next w) as (Ht & Hn & Hk).
  split.
  - intros ws'. rewrite Hwm2, <- Hid, lookup_insert_eq. intros [= <-].
    intros Hin. apply list_elem_of_filter in Hin as [Hkept _].
    apply Hk in Hkept as [_ Hkept]. simpl in Hkept. congruence.
  - rewrite Hch2, omap_app. simpl.
    case_bool_decide as Hexp.
    + apply Ht in Hexp. rewrite Hexp. simpl.
      rewrite !elem_of_app. right. right. apply elem_of_cons. by left.
    + assert (Hout : outcomeOf later next w = Notified) by (by apply Hn).
      rewrite Hout. simpl.
      rewrite !elem_of_app. right. right. apply elem_of_cons. by left.
Qed.

(** X24. [addNilSnapshot] gives an instance without a container a
    container with the nil snapshot and leaves an existing container as
    it is; applying it a second time changes nothing. *)
Theorem addNilSnapshot_once m (idxInstId : Z) (bucket bucket' : string)
    (now later : Z) :
  addNilSnapshot (addNilSnapshot m idxInstId bucket now) idxInstId bucket' later
  = addNilSnapshot m idxInstId bucket now
  /\ exists snapC, indexSnapMap (addNilSnapshot m idxInstId bucket now)
                   !! idxInstId = Some snapC
       /\ (indexSnapMap m !! idxInstId = None ->
           snap snapC = Some (nilSnapshot idxInstId bucket (numVbuckets m) now))
       /\ (forall c, indexSnapMap m !! idxInstId = Some c -> snapC = c).
Proof.
  assert (Hhas : exists snapC,
             indexSnapMap (addNilSnapshot m idxInstId bucket now) !! idxInstId
             = Some snapC
             /\ (indexSnapMap m !! idxInstId = None ->
                 snap snapC
                 = Some (nilSnapshot idxInstId bucket (numVbuckets m) now))
             /\ (forall c, indexSnapMap m !! idxInstId = Some c -> snapC = c)).
  { unfold addNilSnapshot.
    destruct (indexSnapMap m !! idxInstId) as [c |] eqn:Hc.
    - exists c. split_and!; [exact Hc | intros [=] | by intros ? [= <-]].
    - exists (mkSnapC (Some (nilSnapshot idxInstId bucket (numVbuckets m) now))
                      now false).
      split_and!; [| done | done].
      destruct (notifySnapshotCreation_fields
                  (setSnapMap m (<[idxInstId :=
                     mkSnapC (Some (nilSnapshot idxInstId bucket
                                      (numVbuckets m) now)) now false]>
                     (indexSnapMap m)))
                  (nilSnapshot idxInstId bucket (numVbuckets m) now))
        as (_ & _ & -> & _).
      cbn. by rewrite lookup_insert_eq. }
  split; [| done]. destruct Hhas as (snapC & Hl & _).
  unfold addNilSnapshot at 1. by rewrite Hl.
Qed.

(** X25. A flush whose timestamp asks for no snapshot publishes
    nothing: the snapshots, the waiters and the reference counts stay as
    they are, the caller gets the success message and the supervisor
    the done message with the CRC of the vbuuids set. *)
Theorem no_snap_flush_publishes_nothing m (streamId : Z) (keyspaceId : string)
    (ts : TsVbuuid) (aborted hasAllSB tuningDue : bool) (now : Z) :
  GetSnapType ts = NO_SNAP \/ GetSnapType ts = NO_SNAP_OSO ->
  exists m',
    handleCreateSnapshot m streamId keyspaceId ts aborted hasAllSB tuningDue now
    = Finished m'
    /\ indexSnapMap m' = indexSnapMap m
    /\ waitersMap m' = waitersMap m
    /\ waiterCh m' = waiterCh m
    /\ snapshotNotifych m' = snapshotNotifych m
    /\ refs m' = refs m
    /\ supvCmdch m' = supvCmdch m ++ [MsgSuccess]
    /\ supvRespch m'
       = supvRespch m
         ++ [MsgStorageSnapDone streamId keyspaceId
               (setCrc64 ts (HashVbuuid (Vbuuids ts))) aborted].
Proof.
  intros Htype. unfold handleCreateSnapshot. rewrite decide_True by done.
  eexists. split; [done |].
  set (m0 := sendCmd m MsgSuccess).
  set (l := default [] _). set (ts' := setCrc64 _ _).
  unfold flushDone.
  set (m1 := if tuningDue then _ else m0).
  assert (H1 : indexSnapMap m1 = indexSnapMap m /\ waitersMap m1 = waitersMap m
               /\ waiterCh m1 = waiterCh m
               /\ snapshotNotifych m1 = snapshotNotifych m
               /\ refs m1 = refs m /\ supvCmdch m1 = supvCmdch m ++ [MsgSuccess]
               /\ supvRespch m1 = supvRespch m).
  { subst m1. destruct tuningDue; [| done].
    assert (Hgen : forall m0',
               indexSnapMap m0' = indexSnapMap m /\ waitersMap m0' = waitersMap m
               /\ waiterCh m0' = waiterCh m
               /\ snapshotNotifych m0' = snapshotNotifych m
               /\ refs m0' = refs m
               /\ supvCmdch m0' = supvCmdch m ++ [MsgSuccess]
               /\ supvRespch m0' = supvRespch m ->
               let r := fold_left
                 (fun m' idxInstId =>
                    if instMatches m' streamId keyspaceId idxInstId then
                      storePartnMap m' idxInstId
                        (mapSlices FlushDone
                           (default [] (indexPartnMap m' !! idxInstId)))
                    else m') l m0' in
               indexSnapMap r = indexSnapMap m /\ waitersMap r = waitersMap m
               /\ waiterCh r = waiterCh m
               /\ snapshotNotifych r = snapshotNotifych m
               /\ refs r = refs m
               /\ supvCmdch r = supvCmdch m ++ [MsgSuccess]
               /\ supvRespch r = supvRespch m).
    { induction l as [| id l IH]; intros m0' Hm0'; [done |]. simpl.
      apply IH. destruct (instMatches m0' streamId keyspaceId id); [| done].
      destruct (storePartnMap_fields m0' id
                  (mapSlices FlushDone (default [] (indexPartnMap m0' !! id))))
        as (_ & -> & -> & -> & -> & -> & -> & _ & -> & _).
      done. }
    by apply Hgen. }
  destruct H1 as (Hs & Hw & Hch & Hn & Hr & Hc & Hresp).
  destruct hasAllSB; cbn; rewrite ?Hs, ?Hw, ?Hch, ?Hn, ?Hr, ?Hc, ?Hresp; done.
Qed.

(** X26. Merging into an instance that has no container publishes the
    clone of the source snapshot under the id of the source instance:
    the target instance still has no container afterwards. *)
Theorem merge_without_target m (srcInstId tgtInstId : Z) (partitions : list Z)
    (now : Z) (sourceC : IndexSnapshotContainer) (source : indexSnapshot) :
  indexSnapMap m !! srcInstId = Some sourceC ->
  snap sourceC = Some source ->
  is_instId source = srcInstId ->
  indexSnapMap m !! tgtInstId = None ->
  exists m' clone,
    handleIndexMergeSnapshot m srcInstId tgtInstId partitions now = Finished m'
    /\ indexSnapMap m' !! tgtInstId = None
    /\ indexSnapMap m' !! srcInstId
       = Some (mkSnapC (Some clone) (sc_creationTime sourceC) (deleted sourceC))
    /\ is_instId clone = srcInstId
    /\ dom (is_partns clone) = dom (is_partns source)
    /\ supvCmdch m' = supvCmdch m ++ [MsgSuccess].
Proof.
  intros HsourceC Hsource Hid Htgt.
  assert (Hne : tgtInstId <> srcInstId) by (intros ->; congruence).
  unfold handleIndexMergeSnapshot. rewrite HsourceC, Hsource, Htgt.
  destruct (deepCloneIndexSnapshot source false [] now (refs m))
    as [clone refs1] eqn:Hclone.
  assert (Hcid : is_instId clone = srcInstId).
  { unfold deepCloneIndexSnapshot in Hclone. by simplify_eq. }
  assert (Hdom : dom (is_partns clone) = dom (is_partns source)).
  { unfold deepCloneIndexSnapshot in Hclone. simplify_eq. cbn.
    apply set_eq. intros k. rewrite !elem_of_dom, map_lookup_imap.
    destruct (is_partns source !! k); cbn; split; intros [? ?]; done. }
  eexists _, clone. split; [done |].
  cbn [indexSnapMap sendCmd supvCmdch].
  assert (HsC : indexSnapMap (setRefs m refs1) !! is_instId clone = Some sourceC)
    by (by rewrite Hcid).
  unfold updateSnapMapAndNotify, installSnapshot. rewrite HsC. cbn [negb].
  rewrite HsC.
  set (m2 := setSnapMap _ _).
  destruct (drainWaiters_fields (notifySnapshotCreation m2 clone) clone now)
    as (_ & _ & Hs & _ & Hc & _).
  destruct (notifySnapshotCreation_fields m2 clone)
    as (_ & _ & Hs' & _ & _ & Hc' & _).
  rewrite Hs, Hs', Hc, Hc'. subst m2. cbn. rewrite Hcid.
  rewrite lookup_insert_ne by done. rewrite lookup_insert_eq. done.
Qed.

Lemma moved_union (src tgt : gmap Z partitionSnapshot) :
  (forall k ps, src !! k = Some ps -> ps_id ps = k) ->
  map_fold (fun _ sp acc => <[ps_id sp := sp]> acc) tgt src = src ∪ tgt.
Proof.
  apply (map_fold_weak_ind
           (fun r (m0 : gmap Z partitionSnapshot) =>
              (forall k ps, m0 !! k = Some ps -> ps_id ps = k) ->
              r = m0 ∪ tgt)).
  - intros _. by rewrite (left_id_L ∅ (∪) tgt).
  - intros i x m0 r Hi IH Hwk.
    assert (ps_id x = i) as -> by apply Hwk, lookup_insert_eq.
    rewrite IH.
    + by rewrite insert_union_l.
    + intros k ps Hk. apply Hwk. rewrite lookup_insert_ne; [done |].
      intros ->. congruence.
Qed.

Lemma deepClone_all (isnap : indexSnapshot) (keep : list Z) now refs :
  wellKeyed isnap ->
  is_partns (deepCloneIndexSnapshot isnap false keep now refs).1
  = is_partns isnap.
Proof.
  intros Hwk. cbn. apply map_eq. intros k. rewrite map_lookup_imap.
  destruct (is_partns isnap !! k) as [ps |] eqn:Hk; [| done].
  cbn. rewrite sliceSnapshot_copy, <- (Hwk k ps Hk). by destruct ps.
Qed.

(** X27. A merge that passes the checks publishes, for the target
    instance, the partitions of the target together with the listed
    partitions of the source, under the timestamp of the target. *)
Theorem merge_moves_partitions m (srcInstId tgtInstId : Z)
    (partitions : list Z) (now : Z) (sourceC targetC : IndexSnapshotContainer)
    (source target : indexSnapshot) (sts tts : TsVbuuid) :
  indexSnapMap m !! srcInstId = Some sourceC -> snap sourceC = Some source ->
  indexSnapMap m !! tgtInstId = Some targetC -> snap targetC = Some target ->
  is_instId target = tgtInstId ->
  wellKeyed source -> wellKeyed target ->
  is_ts source = Some sts -> is_ts target = Some tts ->
  EqualOrGreater sts tts false = true ->
  checkPartitions source target partitions = None ->
  exists m' new,
    handleIndexMergeSnapshot m srcInstId tgtInstId partitions now = Finished m'
    /\ indexSnapMap m' !! tgtInstId
       = Some (mkSnapC (Some new) (sc_creationTime targetC) (deleted targetC))
    /\ is_partns new
       = filter (fun kp => kp.1 ∈ partitions) (is_partns source)
         ∪ is_partns target
    /\ is_ts new = Some tts
    /\ supvCmdch m' = supvCmdch m ++ [MsgSuccess].
Proof.
  intros HsourceC Hsource HtargetC Htarget Hid Hwks Hwkt Hsts Htts Hge Hcheck.
  unfold handleIndexMergeSnapshot.
  rewrite HsourceC, Hsource, HtargetC, Htarget, Hsts, Htts, Hge. cbn [negb].
  rewrite Hcheck.
  pose proof (deepClone_all target [] now (refs m) Hwkt) as Htp.
  destruct (deepCloneIndexSnapshot target false [] now (refs m))
    as [target1 refs1] eqn:Hc1. cbn [fst] in Htp.
  assert (Ht1 : is_instId target1 = tgtInstId /\ is_ts target1 = Some tts).
  { unfold deepCloneIndexSnapshot in Hc1. simplify_eq. cbn. by rewrite Htts. }
  destruct Ht1 as [Hid1 Hts1].
  assert (Hpub : forall refs' new,
             is_instId new = tgtInstId ->
             indexSnapMap
               (sendCmd (updateSnapMapAndNotify (setRefs m refs') new now)
                        MsgSuccess) !! tgtInstId
             = Some (mkSnapC (Some new) (sc_creationTime targetC)
                             (deleted targetC))
             /\ supvCmdch
                  (sendCmd (updateSnapMapAndNotify (setRefs m refs') new now)
                           MsgSuccess)
                = supvCmdch m ++ [MsgSuccess]).
  { intros refs' new Hnew. cbn [indexSnapMap sendCmd supvCmdch].
    assert (HtC : indexSnapMap (setRefs m refs') !! is_instId new = Some targetC)
      by (by rewrite Hnew).
    unfold updateSnapMapAndNotify, installSnapshot. rewrite HtC. cbn [negb].
    rewrite HtC. set (m2 := setSnapMap _ _).
    destruct (drainWaiters_fields (notifySnapshotCreation m2 new) new now)
      as (_ & _ & Hs & _ & Hc & _).
    destruct (notifySnapshotCreation_fields m2 new)
      as (_ & _ & Hs' & _ & _ & Hc' & _).
    rewrite Hs, Hs', Hc, Hc'. subst m2. cbn. rewrite Hnew.
    by rewrite lookup_insert_eq. }
  destruct partitions as [| p0 ps].
  - exists (sendCmd (updateSnapMapAndNotify (setRefs m refs1) target1 now)
                    MsgSuccess), target1.
    destruct (Hpub refs1 target1 Hid1) as [Hmap Hcmd].
    split_and!; [done | done | | done | done].
    rewrite Htp.
    assert (filter (fun kp : Z * partitionSnapshot => kp.1 ∈ ([] : list Z))
                   (is_partns source) = ∅) as ->.
    { apply map_eq. intros k. rewrite map_lookup_filter, lookup_empty.
      destruct (is_partns source !! k); [| done]. cbn.
      rewrite option_guard_False; [done |]. cbn. apply not_elem_of_nil. }
    by rewrite (left_id_L ∅ (∪) (is_partns target)).
  - pose proof (deepClone_partns source (p0 :: ps) now refs1 Hwks) as Hsp.
    destruct (deepCloneIndexSnapshot source true (p0 :: ps) now refs1)
      as [source1 refs2] eqn:Hc2. cbn [fst] in Hsp.
    set (new := mkIndexSnap _ _ _ _ _).
    destruct (Hpub refs2 new Hid1) as [Hmap Hcmd].
    exists (sendCmd (updateSnapMapAndNotify (setRefs m refs2) new now)
                    MsgSuccess), new.
    split_and!; [done | done | | done | done].
    subst new. cbn [is_partns]. rewrite moved_union.
    + by rewrite Hsp, Htp.
    + intros k x Hk. rewrite Hsp in Hk.
      apply map_lookup_filter_Some in Hk as [Hk _]. by apply Hwks.
Qed.

(** X28. For a rollback timestamp with a zero sequence number on a
    slice without OSO snapshots: a slice that was not rolled back before
    goes to its newest snapshot; a slice whose last rollback used one of
    its snapshots goes to the next older one; and a slice whose last
    rollback timestamp matches none of its snapshots goes to zero. *)
Theorem zero_rollback_pick (slice : S) (rollbackTs : TsVbuuid)
    (infos : list SnapshotInfo) :
  GetSnapshots slice = Ok infos ->
  existsb IsOSOSnap infos = false ->
  HasZeroSeqNum rollbackTs = true ->
  (LastRollbackTs slice = None ->
   findRollbackSnapshot slice rollbackTs = Ok (head infos))
  /\ (forall lrt newer used older,
        LastRollbackTs slice = Some lrt ->
        infos = newer ++ used :: older ->
        Forall (fun i => Equal lrt (info_Timestamp i) = false) newer ->
        Equal lrt (info_Timestamp used) = true ->
        findRollbackSnapshot slice rollbackTs = Ok (head older))
  /\ (forall lrt,
        LastRollbackTs slice = Some lrt ->
        Forall (fun i => Equal lrt (info_Timestamp i) = false) infos ->
        findRollbackSnapshot slice rollbackTs = Ok None).
Proof.
  intros Hget Hoso Hzero. unfold findRollbackSnapshot, NewSnapshotInfoContainer.
  rewrite Hget, Hoso, Hzero. unfold GetLatest. split_and!.
  - intros ->. by destruct (head infos).
  - intros lrt newer used older -> -> Hnewer Hused.
    assert (Hnext : nextAfterUsed lrt (newer ++ used :: older) = head older).
    { clear Hget Hoso.
      induction Hnewer as [| i newer Hi _ IH]; simpl; [by rewrite Hused |].
      by rewrite Hi. }
    rewrite Hnext. by destruct newer.
  - intros lrt -> Hall.
    assert (Hnext : nextAfterUsed lrt infos = None).
    { clear Hget Hoso.
      induction Hall as [| i infos Hi _ IH]; simpl; [done |]. by rewrite Hi. }
    rewrite Hnext. by destruct infos.
Qed.

Lemma zeroSlices_ok (done todo r : list S) :
  zeroSlices done todo = (r, None) ->
  r = done ++ map zeroed todo
  /\ Forall (fun sl => (RollbackToZero sl).2 = None) todo.
Proof.
  revert done. induction todo as [| sl todo IH]; intros done; simpl.
  - intros [= <-]. by rewrite app_nil_r.
  - unfold zeroed. destruct (RollbackToZero sl) as [sl' [e |]] eqn:Hz; [done |].
    intros Hrun. apply IH in Hrun as [-> Hall]. simpl.
    split; [by rewrite <- app_assoc | constructor; [by rewrite Hz | done]].
Qed.

Lemma zeroPartitions_ok (done todo r : list (PartitionInst S)) :
  zeroPartitions done todo = (r, None) ->
  r = done ++ map zeroedPartition todo
  /\ Forall (fun p => Forall (fun sl => (RollbackToZero sl).2 = None)
                             (slices p)) todo.
Proof.
  revert done. induction todo as [| p todo IH]; intros done; simpl.
  - intros [= <-]. by rewrite app_nil_r.
  - destruct (zeroSlices [] (slices p)) as [sl' [e |]] eqn:Hz; [done |].
    apply zeroSlices_ok in Hz as [-> Hsl].
    intros Hrun. apply IH in Hrun as [-> Hall]. simpl.
    split; [by rewrite <- app_assoc | by constructor].
Qed.

Lemma instMatches_setPartnMap m pm (streamId : Z) (keyspaceId : string) id :
  instMatches (setPartnMap m pm) streamId keyspaceId id
  = instMatches m streamId keyspaceId id.
Proof. done. Qed.

Lemma zeroInstances_ok (todo : list (Z * list (PartitionInst S))) m m'
    (streamId : Z) (keyspaceId : string) :
  NoDup todo.*1 ->
  zeroInstances m streamId keyspaceId todo = (m', None) ->
  (forall id, instMatches m' streamId keyspaceId id
              = instMatches m streamId keyspaceId id)
  /\ (forall id, id ∉ todo.*1 ->
                 indexPartnMap m' !! id = indexPartnMap m !! id)
  /\ (forall id pm, (id, pm) ∈ todo ->
        if instMatches m streamId keyspaceId id then
          indexPartnMap m' !! id = Some (map zeroedPartition pm)
          /\ Forall (fun p => Forall (fun sl => (RollbackToZero sl).2 = None)
                                     (slices p)) pm
        else indexPartnMap m' !! id = indexPartnMap m !! id)
  /\ indexSnapMap m' = indexSnapMap m /\ waitersMap m' = waitersMap m
  /\ refs m' = refs m /\ waiterCh m' = waiterCh m.
Proof.
  revert m. induction todo as [| [id0 pm0] todo IH]; intros m Hnd; simpl.
  - intros [= <-]. split_and!; try done. intros id pm Hin.
    by apply elem_of_nil in Hin.
  - apply NoDup_cons in Hnd as [Hfresh Hnd].
    destruct (instMatches m streamId keyspaceId id0) eqn:Hm.
    + destruct (zeroPartitions [] pm0) as [pm' [e |]] eqn:Hz; [done |].
      apply zeroPartitions_ok in Hz as [-> Hall]. simpl.
      intros Hrun. apply IH in Hrun as (Hi & Hout & Hin & Hrest); [| done].
      split_and!; try apply Hrest.
      * intros id. by rewrite Hi.
      * intros id Hid. apply not_elem_of_cons in Hid as [Hne Hid].
        rewrite (Hout id Hid). cbn. by rewrite lookup_insert_ne.
      * intros id pm Hid. apply elem_of_cons in Hid as [[= -> ->] | Hid].
        -- rewrite Hm. rewrite (Hout id0 Hfresh). cbn.
           by rewrite lookup_insert_eq.
        -- specialize (Hin id pm Hid). rewrite instMatches_setPartnMap in Hin.
           destruct (instMatches m streamId keyspaceId id); [done |].
           rewrite Hin. cbn. rewrite lookup_insert_ne; [done |].
           intros ->. apply Hfresh. apply list_elem_of_fmap. by exists (id, pm).
    + intros Hrun. apply IH in Hrun as (Hi & Hout & Hin & Hrest); [| done].
      split_and!; try apply Hrest.
      * done.
      * intros id Hid. apply not_elem_of_cons in Hid as [Hne Hid]. by apply Hout.
      * intros id pm Hid. apply elem_of_cons in Hid as [[= -> ->] | Hid].
        -- rewrite Hm. by apply Hout.
        -- by apply Hin.
Qed.

(** X29. When [rollbackAllToZero] returns no error, every slice of
    every instance of the stream and keyspace that is not deleted has
    been rolled back to zero and has its last rollback timestamp
    cleared, the other instances keep their slices, and the snapshots,
    waiters and reference counts are as before. *)
Theorem rollbackAllToZero_zeroes m m' (streamId : Z) (keyspaceId : string) :
  rollbackAllToZero m streamId keyspaceId = (m', None) ->
  (forall id pm, indexPartnMap m !! id = Some pm ->
     if instMatches m streamId keyspaceId id then
       indexPartnMap m' !! id = Some (map zeroedPartition pm)
       /\ Forall (fun p => Forall (fun sl => (RollbackToZero sl).2 = None)
                                  (slices p)) pm
     else indexPartnMap m' !! id = Some pm)
  /\ (forall id, indexPartnMap m !! id = None -> indexPartnMap m' !! id = None)
  /\ indexSnapMap m' = indexSnapMap m /\ waitersMap m' = waitersMap m
  /\ refs m' = refs m /\ waiterCh m' = waiterCh m.
Proof.
  unfold rollbackAllToZero. intros Hrun.
  apply zeroInstances_ok in Hrun as (_ & Hout & Hin & Hrest);
    [| apply NoDup_fst_map_to_list].
  split_and!; try apply Hrest.
  - intros id pm Hid. specialize (Hin id pm).
    rewrite elem_of_map_to_list in Hin. specialize (Hin Hid).
    destruct (instMatches m streamId keyspaceId id); [done |]. by rewrite Hin.
  - intros id Hid. rewrite Hout; [done |].
    intros Hin'. apply list_elem_of_fmap in Hin' as ([id' pm] & -> & Hin').
    apply elem_of_map_to_list in Hin'. cbn in Hid. congruence.
Qed.

End Served.

(** *** Runs on the sample managers *)

(** Of the three waiters one is notified, and there is a notification
    channel: the storage snapshot at address 100, which the new snapshot
    holds once, gets two references. *)
Lemma publish_refcount_witness :
  refcount (refs (updateSnapMapAndNotify (H0 := crashEnv) waitMgr
                    twoPartitions 20)) 100
  = 2.
Proof.
  pose proof (publish_refcount (S := memSlice) (H0 := crashEnv) waitMgr
                twoPartitions 20
                (mkSnapC (Some (nilSnapshot 1 "b" 1 5)) 5 false)
                [lateWaiter; easyWaiter; aheadWaiter] 100) as Hcount.
  cbn zeta in Hcount. rewrite Hcount; by vm_compute.
Defined.

(** A snapshot of the unknown instance 2. *)
Lemma publish_unknown_instance_witness :
  updateSnapMapAndNotify (H0 := crashEnv) (sampleMgr cleanSlice)
                         (mkIndexSnap 2 None ∅ false 10) 20
  = sampleMgr cleanSlice.
Proof.
  apply (publish_unknown_instance (S := memSlice) (H0 := crashEnv)).
  - by vm_compute.
  - intros inst Hinst. by vm_compute in Hinst.
Defined.

(** The request that any snapshot satisfies is answered with the nil
    snapshot. *)
Lemma request_answered_or_parked_witness :
  exists m',
    snapshotRequest (H0 := crashEnv) waitMgr anyRequest 20 = Ok m'
    /\ waiterCh m' = [(20, ReplySnapshot (nilSnapshot 1 "b" 1 5))]
    /\ waitersMap m' = waitersMap waitMgr.
Proof.
  destruct (request_answered_or_parked (S := memSlice) (H0 := crashEnv)
              waitMgr anyRequest 20 sampleInst
              (mkSnapC (Some (nilSnapshot 1 "b" 1 5)) 5 false)
              (nilSnapshot 1 "b" 1 5) [lateWaiter; easyWaiter; aheadWaiter])
    as (m' & Hrun & _ & Hsent & Hwaiters & _);
    [by vm_compute | done | by vm_compute | done | done | by vm_compute |].
  exists m'. by split_and!.
Defined.

(** The request for sequence number 9 is parked on the nil snapshot and
    answered by the snapshot at sequence number 9. *)
Lemma parked_request_woken_witness :
  exists m1,
    snapshotRequest (H0 := crashEnv) waitMgr aheadRequest 20 = Ok m1
    /\ (21, ReplySnapshot nextSnap)
       ∈ waiterCh (updateSnapMapAndNotify (H0 := crashEnv) m1 nextSnap 30).
Proof.
  destruct (parked_request_woken (S := memSlice) (H0 := crashEnv)
              waitMgr aheadRequest 20 30 sampleInst
              (mkSnapC (Some (nilSnapshot 1 "b" 1 5)) 5 false)
              (nilSnapshot 1 "b" 1 5) nextSnap
              [lateWaiter; easyWaiter; aheadWaiter])
    as (m1 & Hrun & _ & Hsent);
    [by vm_compute | done | by vm_compute | done | done | by vm_compute
    | by vm_compute | done | by vm_compute |].
  exists m1. by split.
Defined.

(** A flush without snapshot after the first disk flush. *)
Lemma no_snap_flush_publishes_nothing_witness :
  exists m',
    handleCreateSnapshot (H := memSliceOps) (H0 := crashEnv) flushedMgr 0 "b"
                         (flushTs 2 NO_SNAP) false false false 20
    = Finished m'
    /\ indexSnapMap m' = indexSnapMap flushedMgr
    /\ refs m' = refs flushedMgr.
Proof.
  destruct (no_snap_flush_publishes_nothing (H := memSliceOps)
              (H0 := crashEnv) flushedMgr 0 "b" (flushTs 2 NO_SNAP)
              false false false 20)
    as (m' & Hrun & Hmap & _ & _ & _ & Hrefs & _); [by left |].
  exists m'. by split_and!.
Defined.

(** A merge of instance 2 into instance 3, which has no container. *)
Lemma merge_without_target_witness :
  exists m' clone,
    handleIndexMergeSnapshot (S := memSlice) (H0 := crashEnv)
                             moveMgr 2 3 [1] 20 = Finished m'
    /\ indexSnapMap m' !! 3 = None
    /\ indexSnapMap m' !! 2 = Some (mkSnapC (Some clone) 5 false).
Proof.
  destruct (merge_without_target (S := memSlice) (H0 := crashEnv)
              moveMgr 2 3 [1] 20 (mkSnapC (Some sourceSnap) 5 false)
              sourceSnap)
    as (m' & clone & Hrun & Htgt & Hsrc & _);
    [by vm_compute | done | done | by vm_compute |].
  exists m', clone. by split_and!.
Defined.

(** The merge of partition 1 of instance 2 into instance 1. *)
Lemma merge_moves_partitions_witness :
  exists m' new,
    handleIndexMergeSnapshot (S := memSlice) (H0 := crashEnv)
                             moveMgr 2 1 [1] 20 = Finished m'
    /\ indexSnapMap m' !! 1 = Some (mkSnapC (Some new) 5 false)
    /\ dom (is_partns new) = {[0; 1]}.
Proof.
  destruct (merge_moves_partitions (S := memSlice) (H0 := crashEnv)
              moveMgr 2 1 [1] 20 (mkSnapC (Some sourceSnap) 5 false)
              (mkSnapC (Some targetSnap) 5 false) sourceSnap targetSnap
              (flushTs 2 DISK_SNAP) (flushTs 2 DISK_SNAP))
    as (m' & new & Hrun & Hpub & Hpartns & _).
  - by vm_compute.
  - done.
  - by vm_compute.
  - done.
  - done.
  - intros k ps Hk. cbn in Hk.
    apply lookup_insert_Some in Hk as [[<- <-] | [_ Hk]]; [done |].
    by rewrite lookup_empty in Hk.
  - intros k ps Hk. cbn in Hk.
    apply lookup_insert_Some in Hk as [[<- <-] | [_ Hk]]; [done |].
    by rewrite lookup_empty in Hk.
  - done.
  - done.
  - by vm_compute.
  - by vm_compute.
  - exists m', new. split_and!; [done | done |].
    rewrite Hpartns. by vm_compute.
Defined.

(** The slice that used its newest snapshot goes to the one of 20. *)
Lemma zero_rollback_pick_witness :
  findRollbackSnapshot (H := memSliceOps) usedNewest (flushTs 0 DISK_SNAP)
  = Ok (Some (info 20)).
Proof.
  destruct (zero_rollback_pick (H := memSliceOps) usedNewest
              (flushTs 0 DISK_SNAP) [info 30; info 20; info 10])
    as (_ & Hused & _); [done | done | done |].
  apply (Hused (flushTs 30 DISK_SNAP) [] (info 30) [info 20; info 10]);
    [done | done | constructor | by vm_compute].
Defined.

(** The one slice of instance 1 is rolled back to zero. *)
Lemma rollbackAllToZero_zeroes_witness :
  let out := rollbackAllToZero (H := memSliceOps) (sampleMgr threeInfos)
                               0 "b" in
  out.2 = None
  /\ indexPartnMap out.1 !! 1
     = Some [zeroedPartition (H := memSliceOps) (mkPartnInst 0 [threeInfos])].
Proof.
  intros out. split; [by vm_compute |].
  destruct (rollbackAllToZero_zeroes (H := memSliceOps)
              (sampleMgr threeInfos) out.1 0 "b") as (Hin & _);
    [by vm_compute |].
  specialize (Hin 1 [mkPartnInst 0 [threeInfos]]).
  assert (Hm : instMatches (sampleMgr threeInfos) 0 "b" 1 = true)
    by (by vm_compute).
  rewrite Hm in Hin. apply Hin. by vm_compute.
Defined.

End RequestProofs.
